(** * groundhog: the stream-cipher connection transform of [common/crypto]

    A shallow embedding of [src/common/crypto/crypto.go] and the properties
    of its cipher builder, its two transforms and the guarded connection.

    The Go program calls into the standard library ([crypto/aes],
    [crypto/cipher], [io], [net]) and runs goroutines.  Those packages are
    not part of the repository; the modules [IO], [Runtime], [Cipher] and
    [AES] describe the part of their behaviour that the program relies on:
    programs as trees of blocking operations, the worlds in which they
    run, the stream modes, and the block cipher of FIPS-197.  Module
    [Crypto] is the translation of [crypto.go] itself; [Props] and [Vector]
    hold the vocabulary of the properties, which come after. *)

From Stdlib Require Import String.
From Stdlib Require Import ZArith List Bool Arith Lia.
Import ListNotations.

Set Implicit Arguments.

(** ** Bytes and slices *)

(** A Go [byte] is an 8-bit unsigned integer; it is kept as a [Z] in
    [0, 256).  A Go slice [[]byte] is either [nil] or a (possibly empty)
    sequence: [None] is the [nil] slice, [Some []] is [[]byte{}]. *)
Definition byte := Z.
Definition bytes := list byte.
Definition slice := option bytes.

Definition xor_byte (a b : byte) : byte := Z.lxor a b.

(** ** Errors *)

(** The [error] values that can reach the program.  [errorString] is the
    result of [errors.New]; [KeySizeError] is [aes.KeySizeError]; [EOF],
    [ErrClosedPipe], [ErrShortWrite] and [errInvalidWrite] are the
    sentinels of package [io]; [ConnError] stands for whatever error a
    real connection reports. *)
Inductive error : Type :=
| errorString (s : string)
| KeySizeError (k : nat)
| EOF
| ErrClosedPipe
| ErrShortWrite
| errInvalidWrite
| ConnError (s : string).

Definition error_eqb (a b : error) : bool :=
  match a, b with
  | errorString s, errorString t => String.eqb s t
  | KeySizeError k, KeySizeError l => Nat.eqb k l
  | EOF, EOF => true
  | ErrClosedPipe, ErrClosedPipe => true
  | ErrShortWrite, ErrShortWrite => true
  | errInvalidWrite, errInvalidWrite => true
  | ConnError s, ConnError t => String.eqb s t
  | _, _ => false
  end.

(** A Go call either returns or panics. *)
Inductive outcome (A : Type) : Type :=
| Returns (a : A)
| Panics (msg : string).
Arguments Panics {A} msg.

(** ** Programs, operations and package io *)

Module IO.

(** *** Operations on the outside world

    A goroutine acts on the world through blocking calls on the real
    connection ([net.Conn]) and on the ends of in-memory pipes
    ([io.Pipe]).  [PipeWriter.Write] is a rendezvous: the writer
    offers its data ([PipeOffer]) and then waits until readers have taken
    all of it ([PipeAwait]). *)
Definition pipe_id := nat.

Inductive Op : Type :=
| ConnRead (cap : nat)          (* Read(buf) with len(buf) = cap *)
| ConnWrite (b : bytes)
| ConnClose
| PipeRead (p : pipe_id) (cap : nat)
| PipeOffer (p : pipe_id) (b : bytes)
| PipeAwait (p : pipe_id)
| PipeCloseReader (p : pipe_id)
| PipeCloseWriter (p : pipe_id).

(** What a call hands back: the bytes placed in the buffer (reads), the
    count [n], and the error. *)
Record OpRes : Type := mkRes {
  res_data : bytes;
  res_n : nat;
  res_err : option error
}.

(** *** Programs

    A goroutine body is a tree of operations.  [Iter body i k] is the Go
    loop [for { ... }] with loop state [i]: the body answers [inl i'] to
    go round again and [inr x] to leave the loop with [x].  [Crash] is a
    run-time panic. *)
Inductive Prog : Type -> Type :=
| Ret {A : Type} (a : A) : Prog A
| Do {A : Type} (o : Op) (k : OpRes -> Prog A) : Prog A
| Iter {I X A : Type} (body : I -> Prog (I + X)) (i : I) (k : X -> Prog A) : Prog A
| Crash {A : Type} (msg : string) : Prog A.

Fixpoint bind {A B : Type} (p : Prog A) : (A -> Prog B) -> Prog B :=
  match p in Prog T return (T -> Prog B) -> Prog B with
  | Ret a => fun f => f a
  | Do o k => fun f => Do o (fun r => bind (k r) f)
  | Iter body i k => fun f => Iter body i (fun x => bind (k x) f)
  | Crash msg => fun _ => Crash msg
  end.

Definition loop_next {I X A : Type} (body : I -> Prog (I + X))
           (k : X -> Prog A) (r : I + X) : Prog A :=
  match r with
  | inl i' => Iter body i' k
  | inr x => k x
  end.

Declare Scope prog_scope.
Delimit Scope prog_scope with prog.
Notation "x <- c ;; k" := (bind c (fun x => k))
  (at level 61, c at next level, right associativity) : prog_scope.
Notation "' pat <- c ;; k" := (bind c (fun x => match x with pat => k end))
  (at level 61, pat pattern, c at next level, right associativity) : prog_scope.
Local Open Scope prog_scope.

(** *** Interfaces [io.Reader], [io.Writer], [io.Closer]

    An object is passed by value and handed back by the call, so that a
    method can advance the object's own state.  [Read r cap] is
    [r.Read(buf)] with [len(buf) = cap] and returns the bytes [buf[:n]]. *)
Class Reader (R : Type) := Read : R -> nat -> Prog (R * bytes * option error).
Class Writer (W : Type) := Write : W -> bytes -> Prog (W * nat * option error).
Class Closer (C : Type) := Close : C -> Prog (option error).

(** The real connection handed to a transform. *)
Inductive NetConn : Type := RealConn.

#[export] Instance NetConn_Reader : Reader NetConn :=
  fun c cap => Do (ConnRead cap) (fun r => Ret (c, res_data r, res_err r)).
#[export] Instance NetConn_Writer : Writer NetConn :=
  fun c b => Do (ConnWrite b) (fun r => Ret (c, res_n r, res_err r)).
#[export] Instance NetConn_Closer : Closer NetConn :=
  fun c => Do ConnClose (fun r => Ret (res_err r)).

(** The two ends of a pipe. *)
Inductive PipeReader : Type := mkPipeReader (p : pipe_id).
Inductive PipeWriter : Type := mkPipeWriter (p : pipe_id).

Definition reader_id (r : PipeReader) : pipe_id := let 'mkPipeReader p := r in p.
Definition writer_id (w : PipeWriter) : pipe_id := let 'mkPipeWriter p := w in p.

#[export] Instance PipeReader_Reader : Reader PipeReader :=
  fun r cap => Do (PipeRead (reader_id r) cap) (fun x => Ret (r, res_data x, res_err x)).

(** [pipe.write]: a closed pipe fails at once; otherwise the loop
    [for once := true; once || len(b) > 0; once = false] hands the data
    over and returns the number of bytes taken. *)
#[export] Instance PipeWriter_Writer : Writer PipeWriter :=
  fun w b =>
    Do (PipeOffer (writer_id w) b) (fun x =>
      match res_err x with
      | Some e => Ret (w, 0, Some e)
      | None => Do (PipeAwait (writer_id w)) (fun y => Ret (w, res_n y, res_err y))
      end).

#[export] Instance PipeReader_Closer : Closer PipeReader :=
  fun r => Do (PipeCloseReader (reader_id r)) (fun x => Ret (res_err x)).
#[export] Instance PipeWriter_Closer : Closer PipeWriter :=
  fun w => Do (PipeCloseWriter (writer_id w)) (fun x => Ret (res_err x)).

(** *** [io.Copy]

    The generic loop of [io.copyBuffer] with its 32 KiB buffer (the
    [WriterTo]/[ReaderFrom] shortcuts of the standard connections fall
    back to this loop for the readers and writers used here). *)
Definition copy_buf_size : nat := 32 * 1024.

Definition copy_body {W R : Type} `{Writer W} `{Reader R}
           (st : W * R * nat) : Prog ((W * R * nat) + (nat * option error)) :=
  let '(dst, src, written) := st in
  '(src', data, er) <- Read src copy_buf_size ;;
  let nr := length data in
  if 0 <? nr then
    '(dst', nw, ew) <- Write dst data ;;
    let '(nw, ew) :=
      if nr <? nw
      then (0, match ew with None => Some errInvalidWrite | Some e => Some e end)
      else (nw, ew) in
    let written := written + nw in
    match ew with
    | Some e => Ret (inr (written, Some e))
    | None =>
        if negb (nr =? nw) then Ret (inr (written, Some ErrShortWrite))
        else
          match er with
          | Some e =>
              Ret (inr (written, if error_eqb e EOF then None else Some e))
          | None => Ret (inl (dst', src', written))
          end
    end
  else
    match er with
    | Some e => Ret (inr (written, if error_eqb e EOF then None else Some e))
    | None => Ret (inl (dst, src', written))
    end.

Definition Copy {W R : Type} `{Writer W} `{Reader R} (dst : W) (src : R)
  : Prog (nat * option error) :=
  Iter copy_body (dst, src, 0) (fun r => Ret r).

End IO.

(** ** Running programs *)

Module Runtime.

Import IO.

(** The answer of the world to an operation: it completes, it cannot
    complete yet (the goroutine stays blocked in the call), or it
    panics. *)
Inductive Res (A : Type) : Type :=
| Done (a : A)
| Blocked
| Panicked (msg : string).
Arguments Blocked {A}.
Arguments Panicked {A} msg.

Definition Handler (H : Type) : Type := Op -> H -> Res (OpRes * H).

(** One step of a goroutine. *)
Inductive StepRes (A H : Type) : Type :=
| Halt (a : A)
| Step (p : Prog A) (h : H)
| Wait
| Fault (msg : string).
Arguments Halt {A H} a.
Arguments Step {A H} p h.
Arguments Wait {A H}.
Arguments Fault {A H} msg.

Definition step1 {A H : Type} (hd : Handler H) (p : Prog A) (h : H) : StepRes A H :=
  match p with
  | Ret a => Halt a
  | Do o k =>
      match hd o h with
      | Done (r, h') => Step (k r) h'
      | Blocked => Wait
      | Panicked m => Fault m
      end
  | Iter body i k => Step (bind (body i) (loop_next body k)) h
  | Crash m => Fault m
  end.

(** Running one goroutine on its own for at most [fuel] steps. *)
Inductive RunRes (A H : Type) : Type :=
| Finished (a : A) (h : H)
| Stuck (p : Prog A) (h : H)
| Crashed (msg : string)
| OutOfFuel.
Arguments Finished {A H} a h.
Arguments Stuck {A H} p h.
Arguments Crashed {A H} msg.
Arguments OutOfFuel {A H}.

Fixpoint run {A H : Type} (fuel : nat) (hd : Handler H) (p : Prog A) (h : H)
  : RunRes A H :=
  match fuel with
  | O => OutOfFuel
  | S n =>
      match step1 hd p h with
      | Halt a => Finished a h
      | Step p' h' => run n hd p' h'
      | Wait => Stuck p h
      | Fault m => Crashed m
      end
  end.

(** [returns hd p h a h']: from [h] the program returns [a] and leaves
    [h'], whatever fuel is given beyond some bound. *)
Definition returns {A H : Type} (hd : Handler H) (p : Prog A) (h : H) (a : A) (h' : H) : Prop :=
  exists n, forall m, n <= m -> run m hd p h = Finished a h'.

(** Running [bind p f] is running [p] and then [f] on its result; the
    two directions, for runs of [n] steps. *)
Definition bind_forward {H : Type} (hd : Handler H) (n : nat) : Prop :=
  forall (A B : Type) (p : Prog A) (f : A -> Prog B) h a h1 b h2 m,
    run n hd p h = Finished a h1 ->
    run m hd (f a) h1 = Finished b h2 ->
    run (n + m - 1) hd (bind p f) h = Finished b h2.

Definition bind_backward {H : Type} (hd : Handler H) (n : nat) : Prop :=
  forall (A B : Type) (p : Prog A) (f : A -> Prog B) h b h2,
    run n hd (bind p f) h = Finished b h2 ->
    exists a h1 n1 n2,
      run n1 hd p h = Finished a h1 /\
      run n2 hd (f a) h1 = Finished b h2 /\
      n1 + n2 <= n + 1.

(** *** In-memory pipes ([io.Pipe])

    [pending = Some d]: a writer is inside [Write] and [d] is the part
    of its data that no reader has taken yet; [fresh] says that no reader
    has met this writer yet (a zero-length write still waits for one
    reader); [taken] counts the bytes handed over.  [rerr]/[werr] are
    set by closing the read end or the write end. *)
Record Pipe : Type := mkPipe {
  pending : option bytes;
  fresh : bool;
  taken : nat;
  rerr : option error;
  werr : option error
}.

Definition new_pipe : Pipe :=
  {| pending := None; fresh := false; taken := 0; rerr := None; werr := None |}.

Definition pipe_done (p : Pipe) : bool :=
  match rerr p, werr p with
  | None, None => false
  | _, _ => true
  end.

Definition readCloseError (p : Pipe) : error :=
  match rerr p, werr p with
  | None, Some e => e
  | _, _ => ErrClosedPipe
  end.

Definition writeCloseError (p : Pipe) : error :=
  match werr p, rerr p with
  | None, Some e => e
  | _, _ => ErrClosedPipe
  end.

Definition pipe_read (p : Pipe) (cap : nat) : Res (OpRes * Pipe) :=
  if pipe_done p then Done (mkRes [] 0 (Some (readCloseError p)), p)
  else
    match pending p with
    | Some d =>
        if fresh p || (0 <? length d) then
          let n := Nat.min cap (length d) in
          Done (mkRes (firstn n d) n None,
                {| pending := Some (skipn n d); fresh := false;
                   taken := taken p + n; rerr := rerr p; werr := werr p |})
        else Blocked
    | None => Blocked
    end.

Definition pipe_offer (p : Pipe) (b : bytes) : Res (OpRes * Pipe) :=
  if pipe_done p then Done (mkRes [] 0 (Some (writeCloseError p)), p)
  else
    match pending p with
    | None =>
        Done (mkRes [] 0 None,
              {| pending := Some b; fresh := true; taken := 0;
                 rerr := rerr p; werr := werr p |})
    | Some _ => Blocked
    end.

Definition pipe_release (p : Pipe) : Pipe :=
  {| pending := None; fresh := false; taken := 0; rerr := rerr p; werr := werr p |}.

Definition pipe_await (p : Pipe) : Res (OpRes * Pipe) :=
  if pipe_done p
  then Done (mkRes [] (taken p) (Some (writeCloseError p)), pipe_release p)
  else
    match pending p with
    | Some [] =>
        if fresh p then Blocked
        else Done (mkRes [] (taken p) None, pipe_release p)
    | _ => Blocked
    end.

Definition pipe_closeRead (p : Pipe) : Res (OpRes * Pipe) :=
  Done (mkRes [] 0 None,
        {| pending := pending p; fresh := fresh p; taken := taken p;
           rerr := Some ErrClosedPipe; werr := werr p |}).

Definition pipe_closeWrite (p : Pipe) : Res (OpRes * Pipe) :=
  Done (mkRes [] 0 None,
        {| pending := pending p; fresh := fresh p; taken := taken p;
           rerr := rerr p; werr := Some EOF |}).

(** *** The real connection

    [net.Conn] is an interface: the behaviour of the connection handed
    to a transform is a parameter. *)
Class ConnModel (C : Type) : Type := {
  conn_Read : C -> nat -> Res (OpRes * C);
  conn_Write : C -> bytes -> Res (OpRes * C);
  conn_Close : C -> Res (OpRes * C)
}.

Fixpoint upd {A : Type} (i : nat) (x : A) (l : list A) : list A :=
  match l, i with
  | [], _ => []
  | _ :: t, O => x :: t
  | y :: t, S j => y :: upd j x t
  end.

Section World.

Context {C : Type} {CM : ConnModel C}.

(** The world of one session: the real connection, the pipes made so
    far, the goroutines started so far, and the operations completed
    so far (oldest first). *)
Record World : Type := mkWorld {
  conn : C;
  pipes : list Pipe;
  tasks : list (Prog unit);
  log : list Op
}.

Definition on_conn (o : Op) (w : World) (r : Res (OpRes * C)) : Res (OpRes * World) :=
  match r with
  | Done (x, c') =>
      Done (x, {| conn := c'; pipes := pipes w; tasks := tasks w; log := log w ++ [o] |})
  | Blocked => Blocked
  | Panicked m => Panicked m
  end.

Definition on_pipe (o : Op) (w : World) (p : pipe_id)
           (f : Pipe -> Res (OpRes * Pipe)) : Res (OpRes * World) :=
  match nth_error (pipes w) p with
  | None => Panicked "invalid memory address or nil pointer dereference"
  | Some pi =>
      match f pi with
      | Done (x, pi') =>
          Done (x, {| conn := conn w; pipes := upd p pi' (pipes w);
                      tasks := tasks w; log := log w ++ [o] |})
      | Blocked => Blocked
      | Panicked m => Panicked m
      end
  end.

Definition exec : Handler World :=
  fun o w =>
    match o with
    | ConnRead cap => on_conn o w (conn_Read (conn w) cap)
    | ConnWrite b => on_conn o w (conn_Write (conn w) b)
    | ConnClose => on_conn o w (conn_Close (conn w))
    | PipeRead p cap => on_pipe o w p (fun pi => pipe_read pi cap)
    | PipeOffer p b => on_pipe o w p (fun pi => pipe_offer pi b)
    | PipeAwait p => on_pipe o w p pipe_await
    | PipeCloseReader p => on_pipe o w p pipe_closeRead
    | PipeCloseWriter p => on_pipe o w p pipe_closeWrite
    end.

(** [io.Pipe()] and the [go] statement. *)
Definition io_Pipe (w : World) : PipeReader * PipeWriter * World :=
  let id := length (pipes w) in
  (mkPipeReader id, mkPipeWriter id,
   {| conn := conn w; pipes := pipes w ++ [new_pipe]; tasks := tasks w; log := log w |}).

Definition go (f : Prog unit) (w : World) : World :=
  {| conn := conn w; pipes := pipes w; tasks := tasks w ++ [f]; log := log w |}.

Definition set_tasks (ts : list (Prog unit)) (w : World) : World :=
  {| conn := conn w; pipes := pipes w; tasks := ts; log := log w |}.

(** The scheduler lets goroutine [i] take one step.  A goroutine that
    is blocked, has returned, or does not exist leaves the world as it
    is; a panic stops the whole program. *)
Definition sched (i : nat) (w : World) : outcome World :=
  match nth_error (tasks w) i with
  | None => Returns w
  | Some p =>
      match step1 exec p w with
      | Halt _ => Returns w
      | Step p' w' => Returns (set_tasks (upd i p' (tasks w')) w')
      | Wait => Returns w
      | Fault m => Panics m
      end
  end.

Fixpoint schedule (l : list nat) (w : World) : outcome World :=
  match l with
  | [] => Returns w
  | i :: l' =>
      match sched i w with
      | Returns w' => schedule l' w'
      | Panics m => Panics m
      end
  end.

(** A goroutine is blocked when its next operation cannot complete. *)
Definition blocked (p : Prog unit) (w : World) : bool :=
  match step1 exec p w with
  | Wait => true
  | _ => false
  end.

Definition finished (p : Prog unit) : bool :=
  match p with
  | Ret _ => true
  | _ => false
  end.

(** Nothing can move any more. *)
Definition quiescent (w : World) : bool :=
  forallb (fun p => finished p || blocked p w) (tasks w).

End World.

Arguments World C : clear implicits.

(** *** A TCP-like connection

    Reads take the segments that have arrived, in order, and wait while
    there is none; a zero-length read or write returns at once; writes
    are appended to what the peer will receive; every call on a closed
    connection fails with the same error.  (A real socket also makes
    concurrent reads wait for each other; that is left out.) *)
Record Tcp : Type := mkTcp {
  closed : bool;
  inbound : list bytes;
  in_eof : bool;
  outbound : bytes
}.

Definition ErrNetClosing : error := ConnError "use of closed network connection".

Definition tcp_Read (c : Tcp) (cap : nat) : Res (OpRes * Tcp) :=
  if closed c then Done (mkRes [] 0 (Some ErrNetClosing), c)
  else if cap =? 0 then Done (mkRes [] 0 None, c)
  else
    match inbound c with
    | seg :: rest =>
        if length seg <=? cap
        then Done (mkRes seg (length seg) None,
                   {| closed := false; inbound := rest; in_eof := in_eof c; outbound := outbound c |})
        else Done (mkRes (firstn cap seg) cap None,
                   {| closed := false; inbound := skipn cap seg :: rest;
                      in_eof := in_eof c; outbound := outbound c |})
    | [] => if in_eof c then Done (mkRes [] 0 (Some EOF), c) else Blocked
    end.

Definition tcp_Write (c : Tcp) (b : bytes) : Res (OpRes * Tcp) :=
  if closed c then Done (mkRes [] 0 (Some ErrNetClosing), c)
  else Done (mkRes [] (length b) None,
             {| closed := false; inbound := inbound c; in_eof := in_eof c;
                outbound := outbound c ++ b |}).

Definition tcp_Close (c : Tcp) : Res (OpRes * Tcp) :=
  if closed c then Done (mkRes [] 0 (Some ErrNetClosing), c)
  else Done (mkRes [] 0 None,
             {| closed := true; inbound := inbound c; in_eof := in_eof c;
                outbound := outbound c |}).

#[export] Instance Tcp_ConnModel : ConnModel Tcp :=
  {| conn_Read := tcp_Read; conn_Write := tcp_Write; conn_Close := tcp_Close |}.

End Runtime.

(** ** Package crypto/cipher *)

Module Cipher.

Import IO.
Local Open Scope prog_scope.

(** [cipher.Block]: the stream modes only use [BlockSize] and
    [Encrypt]. *)
Record Block : Type := mkBlock {
  BlockSize : nat;
  Encrypt : bytes -> bytes
}.

(** [cipher.Stream]: an object with hidden state and one method. *)
Record Stream : Type := mkStream {
  stream_state : Type;
  stream_cur : stream_state;
  stream_xor : stream_state -> bytes -> bytes * stream_state
}.

Definition XORKeyStream (s : Stream) (src : bytes) : bytes * Stream :=
  let (dst, st) := stream_xor s (stream_cur s) src in
  (dst, {| stream_state := stream_state s; stream_cur := st; stream_xor := stream_xor s |}).

(** The type of [StreamEncrypter]/[StreamDecrypter]: a Go function that
    returns an interface value (which may be [nil]) or panics. *)
Definition StreamCtor : Type := Block -> bytes -> outcome (option Stream).

(** A stream that works byte by byte. *)
Fixpoint xor_fold {S : Type} (step : S -> byte -> byte * S) (s : S) (src : bytes)
  : bytes * S :=
  match src with
  | [] => ([], s)
  | b :: rest =>
      let (c, s1) := step s b in
      let (cs, s2) := xor_fold step s1 rest in
      (c :: cs, s2)
  end.

Definition bytewise {S : Type} (step : S -> byte -> byte * S) (s0 : S) : Stream :=
  {| stream_state := S; stream_cur := s0; stream_xor := xor_fold step |}.

(** *** CTR: the key stream is [E(iv)], [E(iv+1)], ... with the counter
    incremented as a big-endian number. *)
Fixpoint incr_be (c : bytes) : bytes * bool :=
  match c with
  | [] => ([], true)
  | x :: r =>
      let (r', carry) := incr_be r in
      if carry
      then if (x + 1 =? 256)%Z then (0%Z :: r', true) else ((x + 1)%Z :: r', false)
      else (x :: r', false)
  end.

Record ctr : Type := mkCtr {
  ctr_b : Block;
  ctr_ctr : bytes;
  ctr_out : bytes      (* key stream produced and not yet used *)
}.

Definition ctr_step (x : ctr) (b : byte) : byte * ctr :=
  match ctr_out x with
  | k :: out => (xor_byte b k, {| ctr_b := ctr_b x; ctr_ctr := ctr_ctr x; ctr_out := out |})
  | [] =>
      let ks := Encrypt (ctr_b x) (ctr_ctr x) in
      (xor_byte b (hd 0%Z ks),
       {| ctr_b := ctr_b x; ctr_ctr := fst (incr_be (ctr_ctr x)); ctr_out := tl ks |})
  end.

Definition NewCTR : StreamCtor :=
  fun block iv =>
    if negb (length iv =? BlockSize block)
    then Panics "cipher.NewCTR: IV length must equal block size"
    else Returns (Some (bytewise ctr_step {| ctr_b := block; ctr_ctr := iv; ctr_out := [] |})).

(** *** OFB: each key stream block is the encryption of the previous one. *)
Record ofb : Type := mkOfb {
  ofb_b : Block;
  ofb_cipher : bytes;
  ofb_out : bytes
}.

Definition ofb_step (x : ofb) (b : byte) : byte * ofb :=
  match ofb_out x with
  | k :: out => (xor_byte b k, {| ofb_b := ofb_b x; ofb_cipher := ofb_cipher x; ofb_out := out |})
  | [] =>
      let ks := Encrypt (ofb_b x) (ofb_cipher x) in
      (xor_byte b (hd 0%Z ks),
       {| ofb_b := ofb_b x; ofb_cipher := ks; ofb_out := tl ks |})
  end.

Definition NewOFB : StreamCtor :=
  fun block iv =>
    if negb (length iv =? BlockSize block)
    then Panics "cipher.NewOFB: invalid IV size"
    else Returns (Some (bytewise ofb_step {| ofb_b := block; ofb_cipher := iv; ofb_out := [] |})).

(** *** CFB: the key stream block is the encryption of the previous
    ciphertext block, which is collected in [next] as it goes by. *)
Record cfb : Type := mkCfb {
  cfb_b : Block;
  cfb_next : bytes;
  cfb_out : bytes;
  cfb_outUsed : nat;
  cfb_decrypt : bool
}.

Fixpoint set_nth (i : nat) (x : byte) (l : bytes) : bytes :=
  match l, i with
  | [], _ => []
  | _ :: t, O => x :: t
  | y :: t, S j => y :: set_nth j x t
  end.

Definition cfb_step (x : cfb) (b : byte) : byte * cfb :=
  let (out, used) :=
    if cfb_outUsed x =? length (cfb_out x)
    then (Encrypt (cfb_b x) (cfb_next x), 0)
    else (cfb_out x, cfb_outUsed x) in
  let d := xor_byte b (nth used out 0%Z) in
  (d, {| cfb_b := cfb_b x;
         cfb_next := set_nth used (if cfb_decrypt x then b else d) (cfb_next x);
         cfb_out := out;
         cfb_outUsed := S used;
         cfb_decrypt := cfb_decrypt x |}).

Definition newCFB (block : Block) (iv : bytes) (decrypt : bool) : outcome (option Stream) :=
  if negb (length iv =? BlockSize block)
  then Panics "cipher.newCFB: IV length must equal block size"
  else Returns (Some (bytewise cfb_step
                        {| cfb_b := block; cfb_next := iv;
                           cfb_out := repeat 0%Z (BlockSize block);
                           cfb_outUsed := BlockSize block;
                           cfb_decrypt := decrypt |})).

Definition NewCFBEncrypter : StreamCtor := fun block iv => newCFB block iv false.
Definition NewCFBDecrypter : StreamCtor := fun block iv => newCFB block iv true.

(** *** [cipher.StreamReader] and [cipher.StreamWriter]

    The [S] field is an interface value; calling [XORKeyStream] through
    a [nil] interface panics. *)
Record StreamReader (R : Type) : Type := mkStreamReader {
  SR_S : option Stream;
  SR_R : R
}.

Record StreamWriter (W : Type) : Type := mkStreamWriter {
  SW_S : option Stream;
  SW_W : W
}.

Definition nil_deref : string := "invalid memory address or nil pointer dereference".

#[export] Instance StreamReader_Reader {R : Type} `{Reader R} : Reader (StreamReader R) :=
  fun r cap =>
    '(src, data, err) <- Read (SR_R r) cap ;;
    match SR_S r with
    | None => Crash nil_deref
    | Some s =>
        let (dst, s') := XORKeyStream s data in
        Ret ({| SR_S := Some s'; SR_R := src |}, dst, err)
    end.

#[export] Instance StreamWriter_Writer {W : Type} `{Writer W} : Writer (StreamWriter W) :=
  fun w src =>
    match SW_S w with
    | None => Crash nil_deref
    | Some s =>
        let (c, s') := XORKeyStream s src in
        '(dst, n, err) <- Write (SW_W w) c ;;
        let err :=
          match err with
          | None => if negb (n =? length src) then Some ErrShortWrite else None
          | Some e => Some e
          end in
        Ret ({| SW_S := Some s'; SW_W := dst |}, n, err)
    end.

End Cipher.

(** ** Package crypto/aes (FIPS-197) *)

Module AES.

Local Open Scope Z_scope.

(** Multiplication by [x] in GF(2^8) modulo [x^8 + x^4 + x^3 + x + 1]. *)
Definition xtime (a : byte) : byte :=
  let d := 2 * a in
  if 256 <=? d then Z.lxor d 283 else d.

Fixpoint gmul_aux (n : nat) (a b acc : byte) : byte :=
  match n with
  | O => acc
  | S n' =>
      gmul_aux n' (xtime a) (Z.shiftr b 1)
               (if Z.testbit b 0 then Z.lxor acc a else acc)
  end.

Definition gmul (a b : byte) : byte := gmul_aux 8 a b 0.

(** The multiplicative inverse is [a^254] (and 0 for 0). *)
Definition ginv (a : byte) : byte :=
  let a2 := gmul a a in
  let a4 := gmul a2 a2 in
  let a8 := gmul a4 a4 in
  let a16 := gmul a8 a8 in
  let a32 := gmul a16 a16 in
  let a64 := gmul a32 a32 in
  let a128 := gmul a64 a64 in
  gmul a128 (gmul a64 (gmul a32 (gmul a16 (gmul a8 (gmul a4 a2))))).

Definition rotl8 (a : byte) (n : Z) : byte :=
  Z.land (Z.lor (Z.shiftl a n) (Z.shiftr a (8 - n))) 255.

Definition sbox_calc (a : byte) : byte :=
  let i := ginv a in
  Z.lxor i (Z.lxor (rotl8 i 1) (Z.lxor (rotl8 i 2)
    (Z.lxor (rotl8 i 3) (Z.lxor (rotl8 i 4) 99)))).

Definition sbox_table : list byte :=
  Eval vm_compute in map (fun n => sbox_calc (Z.of_nat n)) (seq 0 256).

Definition sbox (a : byte) : byte := nth (Z.to_nat a) sbox_table 0.

Definition xor_bytes (a b : bytes) : bytes := map (fun p => Z.lxor (fst p) (snd p)) (combine a b).

(** The state is the 16 input bytes in order: byte [r + 4c] is row [r]
    of column [c]. *)
Definition SubBytes (s : bytes) : bytes := map sbox s.

Definition ShiftRows (s : bytes) : bytes :=
  map (fun i => nth (i mod 4 + 4 * ((i / 4 + i mod 4) mod 4))%nat s 0) (seq 0 16).

Definition mix_column (a0 a1 a2 a3 : byte) : bytes :=
  [ Z.lxor (gmul 2 a0) (Z.lxor (gmul 3 a1) (Z.lxor a2 a3));
    Z.lxor a0 (Z.lxor (gmul 2 a1) (Z.lxor (gmul 3 a2) a3));
    Z.lxor a0 (Z.lxor a1 (Z.lxor (gmul 2 a2) (gmul 3 a3)));
    Z.lxor (gmul 3 a0) (Z.lxor a1 (Z.lxor a2 (gmul 2 a3))) ].

Fixpoint MixColumns (s : bytes) : bytes :=
  match s with
  | a0 :: a1 :: a2 :: a3 :: rest => mix_column a0 a1 a2 a3 ++ MixColumns rest
  | _ => []
  end.

(** Key expansion, on 4-byte words. *)
Definition word := bytes.

Fixpoint words_of (n : nat) (k : bytes) : list word :=
  match n with
  | O => []
  | S n' => firstn 4 k :: words_of n' (skipn 4 k)
  end.

Definition RotWord (w : word) : word := skipn 1 w ++ firstn 1 w.
Definition SubWord (w : word) : word := map sbox w.

Fixpoint rcon (i : nat) : byte :=
  match i with
  | O => 0
  | S O => 1
  | S i' => xtime (rcon i')
  end.

(** [expand Nk n ws]: append [n] further words to the schedule [ws]. *)
Fixpoint expand (Nk : nat) (n : nat) (ws : list word) : list word :=
  match n with
  | O => ws
  | S n' =>
      let i := length ws in
      let temp := nth (i - 1) ws [] in
      let temp' :=
        if (i mod Nk =? 0)%nat
        then xor_bytes (SubWord (RotWord temp)) [rcon (i / Nk); 0; 0; 0]
        else if ((6 <? Nk) && (i mod Nk =? 4))%nat
             then SubWord temp
             else temp in
      expand Nk n' (ws ++ [xor_bytes (nth (i - Nk) ws []) temp'])
  end.

Definition KeyExpansion (key : bytes) : list word :=
  let Nk := (length key / 4)%nat in
  let Nr := (Nk + 6)%nat in
  expand Nk (4 * (Nr + 1) - Nk) (words_of Nk key).

Definition round_key (ws : list word) (r : nat) : bytes :=
  concat (firstn 4 (skipn (4 * r) ws)).

Fixpoint rounds (ws : list word) (r n : nat) (s : bytes) : bytes :=
  match n with
  | O => s
  | S n' =>
      rounds ws (S r) n'
             (xor_bytes (MixColumns (ShiftRows (SubBytes s))) (round_key ws r))
  end.

Definition encrypt_block (key : bytes) (input : bytes) : bytes :=
  let ws := KeyExpansion key in
  let Nr := (length key / 4 + 6)%nat in
  let s := xor_bytes input (round_key ws 0) in
  let s := rounds ws 1 (Nr - 1) s in
  xor_bytes (ShiftRows (SubBytes s)) (round_key ws Nr).

Definition BlockSize : nat := 16.

(** [aes.NewCipher]: the key must be 16, 24 or 32 bytes long. *)
Definition NewCipher (key : bytes) : Cipher.Block + error :=
  let k := length key in
  if (k =? 16)%nat || (k =? 24)%nat || (k =? 32)%nat
  then inl {| Cipher.BlockSize := BlockSize; Cipher.Encrypt := encrypt_block key |}
  else inr (KeySizeError k).

End AES.

(** ** Package crypto: [src/common/crypto/crypto.go] *)

Module Crypto.

Import IO Runtime Cipher.
Local Open Scope prog_scope.
Local Open Scope string_scope.

(** [type readWriter struct { io.Reader; io.Writer }]: the methods of
    the embedded fields are promoted. *)
Record readWriter (R W : Type) : Type := mkReadWriter {
  rw_Reader : R;
  rw_Writer : W
}.

#[export] Instance readWriter_Reader {R W : Type} `{Reader R} : Reader (readWriter R W) :=
  fun rw cap =>
    '(r, data, err) <- Read (rw_Reader rw) cap ;;
    Ret ({| rw_Reader := r; rw_Writer := rw_Writer rw |}, data, err).

#[export] Instance readWriter_Writer {R W : Type} `{Writer W} : Writer (readWriter R W) :=
  fun rw b =>
    '(w, n, err) <- Write (rw_Writer rw) b ;;
    Ret ({| rw_Reader := rw_Reader rw; rw_Writer := w |}, n, err).

(** [StreamEncryptDecrypter]: slices and interface values may be [nil]. *)
Record StreamEncryptDecrypter : Type := mkSED {
  EncryptKey : slice;
  DecryptKey : slice;
  StreamEncrypter : option StreamCtor;
  StreamDecrypter : option StreamCtor;
  EncryptStream : option Stream;
  DecryptStream : option Stream;
  EncryptIV : slice;
  DecryptIV : slice
}.

Definition set_EncryptStream (s : option Stream) (ed : StreamEncryptDecrypter) :=
  {| EncryptKey := EncryptKey ed; DecryptKey := DecryptKey ed;
     StreamEncrypter := StreamEncrypter ed; StreamDecrypter := StreamDecrypter ed;
     EncryptStream := s; DecryptStream := DecryptStream ed;
     EncryptIV := EncryptIV ed; DecryptIV := DecryptIV ed |}.

Definition set_DecryptStream (s : option Stream) (ed : StreamEncryptDecrypter) :=
  {| EncryptKey := EncryptKey ed; DecryptKey := DecryptKey ed;
     StreamEncrypter := StreamEncrypter ed; StreamDecrypter := StreamDecrypter ed;
     EncryptStream := EncryptStream ed; DecryptStream := s;
     EncryptIV := EncryptIV ed; DecryptIV := DecryptIV ed |}.

Definition errors_New (s : string) : error := errorString s.

Definition ErrEncryptNotSet : error :=
  errors_New "at least one of EncryptStream OR EncryptKey and StreamEncrypter must be set".
Definition ErrEncryptIV : error := errors_New "encrypt IV must be set".
Definition ErrDecryptNotSet : error :=
  errors_New "at least one of DecryptStream OR DecryptKey and StreamDecrypter must be set".
Definition ErrDecryptIV : error := errors_New "decrypt IV must be set".

(** [initCipherStream], lines 33-47: the encrypt direction.  The result
    is the error to return ([None]: carry on) and the configuration as
    the block leaves it. *)
Definition initEncrypt (ed : StreamEncryptDecrypter)
  : outcome (option error * StreamEncryptDecrypter) :=
  match EncryptStream ed with
  | Some _ => Returns (None, ed)
  | None =>
      match StreamEncrypter ed, EncryptKey ed with
      | Some ctor, Some key =>
          match EncryptIV ed with
          | None => Returns (Some ErrEncryptIV, ed)
          | Some iv =>
              match AES.NewCipher key with
              | inr err => Returns (Some err, ed)
              | inl block =>
                  match ctor block iv with
                  | Panics m => Panics m
                  | Returns s => Returns (None, set_EncryptStream s ed)
                  end
              end
          end
      | _, _ => Returns (Some ErrEncryptNotSet, ed)
      end
  end.

(** Lines 49-63: the decrypt direction. *)
Definition initDecrypt (ed : StreamEncryptDecrypter)
  : outcome (option error * StreamEncryptDecrypter) :=
  match DecryptStream ed with
  | Some _ => Returns (None, ed)
  | None =>
      match StreamDecrypter ed, DecryptKey ed with
      | Some ctor, Some key =>
          match DecryptIV ed with
          | None => Returns (Some ErrDecryptIV, ed)
          | Some iv =>
              match AES.NewCipher key with
              | inr err => Returns (Some err, ed)
              | inl block =>
                  match ctor block iv with
                  | Panics m => Panics m
                  | Returns s => Returns (None, set_DecryptStream s ed)
                  end
              end
          end
      | _, _ => Returns (Some ErrDecryptNotSet, ed)
      end
  end.

Definition initCipherStream (ed : StreamEncryptDecrypter)
  : outcome (option error * StreamEncryptDecrypter) :=
  match initEncrypt ed with
  | Returns (None, ed1) => initDecrypt ed1
  | stop => stop
  end.

(** [type CipherConn struct { io.ReadWriter; net.Conn }].  [Read] and
    [Write] are defined below; [Close] is the promoted method of the
    embedded [net.Conn]. *)
Record CipherConn (RW NC : Type) : Type := mkCipherConn {
  ReadWriter : RW;
  Conn : NC
}.

Section Conn.

Context {RW NC : Type}.
Context {RW_Reader : Reader RW} {RW_Writer : Writer RW}.
Context {NC_Reader : Reader NC} {NC_Writer : Writer NC} {NC_Closer : Closer NC}.

#[export] Instance CipherConn_Reader : Reader (CipherConn RW NC) :=
  fun c cap =>
    '(nc, _, err) <- Read (Conn c) 0 ;;
    match err with
    | Some e => Ret ({| ReadWriter := ReadWriter c; Conn := nc |}, [], Some e)
    | None =>
        '(rw, data, err) <- Read (ReadWriter c) cap ;;
        Ret ({| ReadWriter := rw; Conn := nc |}, data, err)
    end.

#[export] Instance CipherConn_Writer : Writer (CipherConn RW NC) :=
  fun c b =>
    '(nc, _, err) <- Write (Conn c) [] ;;
    match err with
    | Some e => Ret ({| ReadWriter := ReadWriter c; Conn := nc |}, 0, Some e)
    | None =>
        '(rw, n, err) <- Write (ReadWriter c) b ;;
        Ret ({| ReadWriter := rw; Conn := nc |}, n, err)
    end.

#[export] Instance CipherConn_Closer : Closer (CipherConn RW NC) :=
  fun c => Close (Conn c).

End Conn.

Definition PipeConn (NC : Type) : Type :=
  CipherConn (readWriter PipeReader PipeWriter) NC.

Section Transforms.

Context {NC : Type}.
Context {NC_Reader : Reader NC} {NC_Writer : Writer NC} {NC_Closer : Closer NC}.
Context {C : Type} {CM : ConnModel C}.

(** What a transform hands back: the pair [(net.Conn, error)], the
    configuration behind the receiver [ed], and the world. *)
Definition TransformRes : Type :=
  (option (PipeConn NC) * option error) * StreamEncryptDecrypter * World C.

Definition Ciphertext (ed : StreamEncryptDecrypter) (plaintext : NC) (w : World C)
  : outcome TransformRes :=
  match initCipherStream ed with
  | Panics m => Panics m
  | Returns (Some err, ed) => Returns ((None, Some err), ed, w)
  | Returns (None, ed) =>
      let '(cipherRdIn, cipherWtOut, w) := io_Pipe w in
      let '(cipherRdOut, cipherWtIn, w) := io_Pipe w in
      let ciphertext : PipeConn NC :=
        {| ReadWriter := {| rw_Reader := cipherRdOut; rw_Writer := cipherWtOut |};
           Conn := plaintext |} in
      (* decrypt ciphertext to plaintext *)
      let w := go (let decrypter := {| SR_S := DecryptStream ed; SR_R := cipherRdIn |} in
                   _ <- Copy plaintext decrypter ;;
                   _ <- Close ciphertext ;;
                   Ret tt) w in
      (* encrypt plaintext to ciphertext *)
      let w := go (let encrypter := {| SW_S := EncryptStream ed; SW_W := cipherWtIn |} in
                   _ <- Copy encrypter plaintext ;;
                   _ <- Close ciphertext ;;
                   Ret tt) w in
      Returns ((Some ciphertext, None), ed, w)
  end.

Definition Plaintext (ed : StreamEncryptDecrypter) (ciphertext : NC) (w : World C)
  : outcome TransformRes :=
  match initCipherStream ed with
  | Panics m => Panics m
  | Returns (Some err, ed) => Returns ((None, Some err), ed, w)
  | Returns (None, ed) =>
      let '(plainRdIn, plainWtOut, w) := io_Pipe w in
      let '(plainRdOut, plainWtIn, w) := io_Pipe w in
      let plaintext : PipeConn NC :=
        {| ReadWriter := {| rw_Reader := plainRdOut; rw_Writer := plainWtOut |};
           Conn := ciphertext |} in
      (* encrypt plaintext to ciphertext *)
      let w := go (let encrypter := {| SW_S := EncryptStream ed; SW_W := ciphertext |} in
                   _ <- Copy encrypter plainRdIn ;;
                   _ <- Close plaintext ;;
                   Ret tt) w in
      (* decrypt ciphertext to plaintext *)
      let w := go (let decrypter := {| SR_S := DecryptStream ed; SR_R := ciphertext |} in
                   _ <- Copy plainWtIn decrypter ;;
                   _ <- Close plaintext ;;
                   Ret tt) w in
      Returns ((Some plaintext, None), ed, w)
  end.

End Transforms.

End Crypto.

(** ** Vocabulary of the properties *)

Module Props.

Import IO Runtime Cipher Crypto.

(** *** The error taxonomy

    A configuration error is one of the four errors that
    [initCipherStream] makes itself; a cipher construction error is the
    one that [aes.NewCipher] reports. *)
Definition is_ConfigurationError (e : error) : bool :=
  error_eqb e ErrEncryptNotSet || error_eqb e ErrEncryptIV
  || error_eqb e ErrDecryptNotSet || error_eqb e ErrDecryptIV.

Definition is_CipherConstructionError (e : error) : bool :=
  match e with
  | KeySizeError _ => true
  | _ => false
  end.

Definition valid_key_length (k : nat) : bool :=
  (k =? 16) || (k =? 24) || (k =? 32).

(** A constructor that hands back a stream object whenever it returns. *)
Definition yields_stream (c : StreamCtor) : Prop :=
  forall block iv s, c block iv = Returns s -> s <> None.

Definition ctor_ok (c : option StreamCtor) : Prop :=
  forall f, c = Some f -> yields_stream f.

(** Replacing the key, constructor and IV of one direction. *)
Definition with_encrypt_material (k : slice) (c : option StreamCtor) (iv : slice)
           (ed : StreamEncryptDecrypter) : StreamEncryptDecrypter :=
  {| EncryptKey := k; DecryptKey := DecryptKey ed;
     StreamEncrypter := c; StreamDecrypter := StreamDecrypter ed;
     EncryptStream := EncryptStream ed; DecryptStream := DecryptStream ed;
     EncryptIV := iv; DecryptIV := DecryptIV ed |}.

Definition with_decrypt_material (k : slice) (c : option StreamCtor) (iv : slice)
           (ed : StreamEncryptDecrypter) : StreamEncryptDecrypter :=
  {| EncryptKey := EncryptKey ed; DecryptKey := k;
     StreamEncrypter := StreamEncrypter ed; StreamDecrypter := c;
     EncryptStream := EncryptStream ed; DecryptStream := DecryptStream ed;
     EncryptIV := EncryptIV ed; DecryptIV := iv |}.

Definition map_config (f : StreamEncryptDecrypter -> StreamEncryptDecrypter)
           (r : outcome (option error * StreamEncryptDecrypter))
  : outcome (option error * StreamEncryptDecrypter) :=
  match r with
  | Returns (e, ed) => Returns (e, f ed)
  | Panics m => Panics m
  end.

(** The fields of one direction. *)
Definition decrypt_fields (ed : StreamEncryptDecrypter) :=
  (DecryptKey ed, StreamDecrypter ed, DecryptStream ed, DecryptIV ed).

Definition encrypt_fields (ed : StreamEncryptDecrypter) :=
  (EncryptKey ed, StreamEncrypter ed, EncryptStream ed, EncryptIV ed).

(** *** The two directions *)
Inductive direction : Type := Enc | Dec.

Definition other (d : direction) : direction :=
  match d with Enc => Dec | Dec => Enc end.

Definition stream_of (d : direction) (ed : StreamEncryptDecrypter) : option Stream :=
  match d with Enc => EncryptStream ed | Dec => DecryptStream ed end.
Definition key_of (d : direction) (ed : StreamEncryptDecrypter) : slice :=
  match d with Enc => EncryptKey ed | Dec => DecryptKey ed end.
Definition ctor_of (d : direction) (ed : StreamEncryptDecrypter) : option StreamCtor :=
  match d with Enc => StreamEncrypter ed | Dec => StreamDecrypter ed end.
Definition iv_of (d : direction) (ed : StreamEncryptDecrypter) : slice :=
  match d with Enc => EncryptIV ed | Dec => DecryptIV ed end.

Definition with_material (d : direction) :=
  match d with Enc => with_encrypt_material | Dec => with_decrypt_material end.

Definition ErrNotSet (d : direction) : error :=
  match d with Enc => ErrEncryptNotSet | Dec => ErrDecryptNotSet end.
Definition ErrIV (d : direction) : error :=
  match d with Enc => ErrEncryptIV | Dec => ErrDecryptIV end.

(** [reaches d ed ed1]: the builder called on [ed] gets as far as the
    block of direction [d], and [ed1] is the configuration at that
    point.  The encrypt block comes first. *)
Definition reaches (d : direction) (ed ed1 : StreamEncryptDecrypter) : Prop :=
  match d with
  | Enc => ed1 = ed
  | Dec => initEncrypt ed = Returns (None, ed1)
  end.

(** Direction [d] has no ready stream and lacks ([nil]) part of its
    triple; the error is the one that names what is lacking. *)
Inductive Missing (d : direction) (ed : StreamEncryptDecrypter) : error -> Prop :=
| missing_key_or_ctor :
    stream_of d ed = None ->
    ctor_of d ed = None \/ key_of d ed = None ->
    Missing d ed (ErrNotSet d)
| missing_iv :
    stream_of d ed = None ->
    ctor_of d ed <> None -> key_of d ed <> None ->
    iv_of d ed = None ->
    Missing d ed (ErrIV d).

(** Direction [d] is to be built from the key [key]. *)
Definition built_from (d : direction) (ed : StreamEncryptDecrypter) (key : bytes) : Prop :=
  stream_of d ed = None /\ ctor_of d ed <> None /\
  key_of d ed = Some key /\ iv_of d ed <> None.

(** *** Stream modes

    The modes of [crypto/cipher] with the constructor of each side. *)
Inductive mode : Type := CTR | OFB | CFB.

Definition encrypter (m : mode) : StreamCtor :=
  match m with
  | CTR => NewCTR
  | OFB => NewOFB
  | CFB => NewCFBEncrypter
  end.

Definition decrypter (m : mode) : StreamCtor :=
  match m with
  | CTR => NewCTR
  | OFB => NewOFB
  | CFB => NewCFBDecrypter
  end.

(** Both directions in mode [m] under the key [key] and the IV [iv]. *)
Definition ed_mode (m : mode) (key iv : bytes) : StreamEncryptDecrypter :=
  {| EncryptKey := Some key; DecryptKey := Some key;
     StreamEncrypter := Some (encrypter m); StreamDecrypter := Some (decrypter m);
     EncryptStream := None; DecryptStream := None;
     EncryptIV := Some iv; DecryptIV := Some iv |}.

(** Two byte-wise step functions undo each other from related states. *)
Definition inverse_steps {SE SD : Type}
           (stepE : SE -> byte -> byte * SE) (stepD : SD -> byte -> byte * SD)
           (R : SE -> SD -> Prop) : Prop :=
  forall se sd b,
    R se sd ->
    R (snd (stepE se b)) (snd (stepD sd (fst (stepE se b)))) /\
    fst (stepD sd (fst (stepE se b))) = b.

(** In CFB the two sides hold the same registers and differ in the
    [decrypt] flag only. *)
Definition cfb_related (se sd : cfb) : Prop :=
  cfb_b se = cfb_b sd /\ cfb_next se = cfb_next sd /\ cfb_out se = cfb_out sd /\
  cfb_outUsed se = cfb_outUsed sd /\ cfb_decrypt se = false /\ cfb_decrypt sd = true.

(** *** What one copying goroutine sees

    The rest of the system, seen from a goroutine that copies from a
    source to a destination: the source delivers the chunks of [feed] in
    order (a chunk longer than the buffer is delivered in pieces) and
    then reports end-of-stream; the destination accepts everything, and
    [sink] is all that it has accepted; [closes] counts the calls of
    [Close] on the real connection. *)
Record Wire : Type := mkWire {
  feed : list bytes;
  sink : bytes;
  offered : nat;
  closes : nat
}.

Definition wire_read (cap : nat) (w : Wire) : Res (OpRes * Wire) :=
  if cap =? 0 then Done (mkRes [] 0 None, w)
  else
    match feed w with
    | [] => Done (mkRes [] 0 (Some EOF), w)
    | d :: rest =>
        if length d <=? cap
        then Done (mkRes d (length d) None,
                   {| feed := rest; sink := sink w; offered := offered w; closes := closes w |})
        else Done (mkRes (firstn cap d) cap None,
                   {| feed := skipn cap d :: rest; sink := sink w;
                      offered := offered w; closes := closes w |})
    end.

Definition wire_write (b : bytes) (w : Wire) : Wire :=
  {| feed := feed w; sink := sink w ++ b; offered := length b; closes := closes w |}.

Definition wire : Handler Wire :=
  fun o w =>
    match o with
    | ConnRead cap => wire_read cap w
    | PipeRead _ cap => wire_read cap w
    | ConnWrite b => Done (mkRes [] (length b) None, wire_write b w)
    | PipeOffer _ b => Done (mkRes [] 0 None, wire_write b w)
    | PipeAwait _ => Done (mkRes [] (offered w) None, w)
    | ConnClose =>
        Done (mkRes [] 0 None,
              {| feed := feed w; sink := sink w; offered := offered w;
                 closes := S (closes w) |})
    | PipeCloseReader _ => Done (mkRes [] 0 None, w)
    | PipeCloseWriter _ => Done (mkRes [] 0 None, w)
    end.

Definition wire0 (chunks : list bytes) : Wire :=
  {| feed := chunks; sink := []; offered := 0; closes := 0 |}.

(** *** Closing

    [closing c] is how both goroutines of a transform end.  A
    connection closes stably with the error [e] when, from its present
    state on, every [Close] returns, with [nil] or with [e]. *)
Definition closing {NC : Type} {NCl : Closer NC} (c : PipeConn NC) : Prog unit :=
  (_ <- Close c ;; Ret tt)%prog.

Definition closes_stably {C : Type} {CM : ConnModel C} (c : C) (e : error) : Prop :=
  exists Inv : C -> Prop,
    Inv c /\
    forall c1, Inv c1 ->
               exists x c2, conn_Close c1 = Done (x, c2) /\
                            (res_err x = None \/ res_err x = Some e) /\ Inv c2.

(** A connection whose [Close] closes a Go channel: closing a closed
    channel panics. *)
Record ChanConn : Type := mkChanConn { chan_closed : bool }.

#[export] Instance ChanConn_ConnModel : ConnModel ChanConn :=
  {| conn_Read := fun c cap =>
       if chan_closed c then Done (mkRes [] 0 (Some EOF), c)
       else if cap =? 0 then Done (mkRes [] 0 None, c) else Blocked;
     conn_Write := fun c b =>
       if chan_closed c then Done (mkRes [] 0 (Some ErrClosedPipe), c)
       else Done (mkRes [] (length b) None, c);
     conn_Close := fun c =>
       if chan_closed c then Panicked "close of closed channel"
       else Done (mkRes [] 0 None, {| chan_closed := true |}) |}.

(** *** Pipe ends

    The operations that close a pipe end, and the programs that never
    perform one, whatever the world answers. *)
Definition is_pipe_close (o : Op) : bool :=
  match o with
  | PipeCloseReader _ | PipeCloseWriter _ => true
  | _ => false
  end.

Definition is_pipe_op (o : Op) : bool :=
  match o with
  | PipeRead _ _ | PipeOffer _ _ | PipeAwait _ => true
  | _ => false
  end.

Fixpoint NoPipeClose {A : Type} (p : Prog A) : Prop :=
  match p with
  | Ret _ => True
  | Do o k => is_pipe_close o = false /\ forall r, NoPipeClose (k r)
  | Iter body _ k => (forall j, NoPipeClose (body j)) /\ (forall x, NoPipeClose (k x))
  | Crash _ => True
  end.

Definition reader_keeps_pipes (R : Type) {RR : Reader R} : Prop :=
  forall r cap, NoPipeClose (Read r cap).
Definition writer_keeps_pipes (W : Type) {WW : Writer W} : Prop :=
  forall w b, NoPipeClose (Write w b).
Definition closer_keeps_pipes (K : Type) {KK : Closer K} : Prop :=
  forall c, NoPipeClose (Close c).
Arguments reader_keeps_pipes R {RR}.
Arguments writer_keeps_pipes W {WW}.
Arguments closer_keeps_pipes K {KK}.

(** Goroutines that are about to close the connection, or have done so. *)
Definition closers {C : Type} (c : PipeConn NetConn) (w : World C) : Prop :=
  Forall (fun t => t = closing c \/ t = Ret tt) (tasks w).

(** The size of what a source still has to deliver. *)
Definition weight (chunks : list bytes) : nat := length chunks + length (concat chunks).

(** Which ends of a pipe have been closed. *)
Definition closed_ends (p : Pipe) : option error * option error := (rerr p, werr p).

(** The connection that a transform makes on the real connection out of
    the pipes [rd] and [wr]. *)
Definition guarded (rd wr : pipe_id) : PipeConn NetConn :=
  {| ReadWriter := {| rw_Reader := mkPipeReader rd; rw_Writer := mkPipeWriter wr |};
     Conn := RealConn |}.

(** The world after a completed operation on the real connection. *)
Definition after_conn {C : Type} (o : Op) (c' : C) (w : World C) : World C :=
  {| conn := c'; pipes := pipes w; tasks := tasks w; log := log w ++ [o] |}.

(** *** Delegation

    [mirrors g p q]: the program [q] performs the operations of [p], the
    same ones in the same order whatever the world answers, blocks and
    panics where [p] does, and returns [g] of what [p] returns.
    [same_run] compares two runs accordingly: both return, with the same
    world; or both are blocked, in the same world, before what is left of
    the two programs; or both panic, with the same message; or both are
    out of fuel. *)
Inductive mirrors {A B : Type} (g : A -> B) : Prog A -> Prog B -> Prop :=
| mirrors_Ret : forall a, mirrors g (Ret a) (Ret (g a))
| mirrors_Do : forall o k k',
    (forall r, mirrors g (k r) (k' r)) -> mirrors g (Do o k) (Do o k')
| mirrors_Crash : forall m, mirrors g (Crash m) (Crash m).

Definition same_run {A B H : Type} (g : A -> B)
           (rp : RunRes A H) (rq : RunRes B H) : Prop :=
  match rp, rq with
  | Finished a h1, Finished b h2 => b = g a /\ h2 = h1
  | Stuck p h1, Stuck q h2 => mirrors g p q /\ h2 = h1
  | Crashed m1, Crashed m2 => m2 = m1
  | OutOfFuel, OutOfFuel => True
  | _, _ => False
  end.

(** What the guarded connection [c] makes of the result of a call on
    one of its pipe ends: the same data or count and the same error, with
    [c] itself in place of the pipe end. *)
Definition hand_back {E X : Type} (c : PipeConn NetConn) (r : E * X * option error)
  : PipeConn NetConn * X * option error :=
  let '(_, x, err) := r in (c, x, err).

(** *** Sample configurations *)
Definition key16 : bytes := map Z.of_nat (seq 0 16).
Definition key5 : bytes := [1; 2; 3; 4; 5]%Z.
Definition iv0 : bytes := repeat 0%Z 16.

Definition ed_empty : StreamEncryptDecrypter :=
  {| EncryptKey := None; DecryptKey := None;
     StreamEncrypter := None; StreamDecrypter := None;
     EncryptStream := None; DecryptStream := None;
     EncryptIV := None; DecryptIV := None |}.

(** Both directions AES-128 in CTR mode with key [00..0F] and a zero IV. *)
Definition ed_ctr : StreamEncryptDecrypter :=
  {| EncryptKey := Some key16; DecryptKey := Some key16;
     StreamEncrypter := Some NewCTR; StreamDecrypter := Some NewCTR;
     EncryptStream := None; DecryptStream := None;
     EncryptIV := Some iv0; DecryptIV := Some iv0 |}.

(** As [ed_ctr], but the encrypt key is the empty, non-nil slice. *)
Definition ed_empty_key : StreamEncryptDecrypter :=
  with_encrypt_material (Some []) (Some NewCTR) (Some iv0) ed_ctr.

(** As [ed_ctr], but the encrypt IV is the empty, non-nil slice. *)
Definition ed_empty_iv : StreamEncryptDecrypter :=
  with_encrypt_material (Some key16) (Some NewCTR) (Some []) ed_ctr.

(** As [ed_ctr], but the encrypt key has five bytes. *)
Definition ed_key5 : StreamEncryptDecrypter :=
  with_encrypt_material (Some key5) (Some NewCTR) (Some iv0) ed_ctr.

(** A complete encrypt direction and nothing for the decrypt direction. *)
Definition ed_enc_only : StreamEncryptDecrypter :=
  with_decrypt_material None None None ed_ctr.

(** Both streams supplied ready-made, nothing else. *)
Definition sample_stream : Stream :=
  bytewise ctr_step
           {| ctr_b := {| BlockSize := 16; Encrypt := AES.encrypt_block key16 |};
              ctr_ctr := iv0; ctr_out := [] |}.

Definition ed_ready : StreamEncryptDecrypter :=
  {| EncryptKey := None; DecryptKey := None;
     StreamEncrypter := None; StreamDecrypter := None;
     EncryptStream := Some sample_stream; DecryptStream := Some sample_stream;
     EncryptIV := None; DecryptIV := None |}.

Definition tcp_closed : Tcp :=
  {| closed := true; inbound := []; in_eof := false; outbound := [] |}.

Definition tcp_open : Tcp :=
  {| closed := false; inbound := []; in_eof := false; outbound := [] |}.

Definition world0 {C : Type} (c : C) : World C :=
  {| conn := c; pipes := []; tasks := []; log := [] |}.

End Props.

(** ** Vocabulary of the concrete vector *)

Module Vector.

Import IO Runtime Cipher Crypto Props.

(** *** AES-CTR as the standard defines it

    The key stream of CTR mode is the encryption of the successive
    counter blocks, starting from the IV. *)
Fixpoint ctr_blocks (b : Block) (counter : bytes) (k : nat) : bytes :=
  match k with
  | O => []
  | S k' => Encrypt b counter ++ ctr_blocks b (fst (incr_be counter)) k'
  end.

Definition ctr_keystream (b : Block) (iv : bytes) (n : nat) : bytes :=
  firstn n (ctr_blocks b iv (S (n / BlockSize b))).

Definition xor_with (data ks : bytes) : bytes :=
  map (fun p => xor_byte (fst p) (snd p)) (combine data ks).

Definition aes128 : Block :=
  {| BlockSize := AES.BlockSize; Encrypt := AES.encrypt_block key16 |}.

Definition cv_input : bytes := [1; 2; 3]%Z.

Definition cv_expected : bytes := xor_with cv_input (ctr_keystream aes128 iv0 3).

(** *** The scenario

    [Ciphertext] is called with the configuration [ed_ctr] on an open,
    idle connection; then a caller writes [cv_input] on the connection
    that [Ciphertext] returned.  Goroutine 0 is the decrypt goroutine,
    goroutine 1 the encrypt goroutine, goroutine 2 the caller. *)
Definition cv_world : World Tcp :=
  match Ciphertext ed_ctr RealConn (world0 tcp_open) with
  | Returns (_, _, w) => w
  | Panics _ => world0 tcp_open
  end.

Definition cv_conn : PipeConn NetConn := guarded 1 0.

Definition cv_caller : Prog unit := (_ <- Write cv_conn cv_input ;; Ret tt)%prog.

Definition cv_start : World Tcp := go cv_caller cv_world.

(** A schedule that lets everybody run as far as possible. *)
Definition cv_schedule : list nat := [2; 2; 0; 0; 0; 0; 2; 1].

Fixpoint bytes_eqb (a b : bytes) : bool :=
  match a, b with
  | [], [] => true
  | x :: a', y :: b' => Z.eqb x y && bytes_eqb a' b'
  | _, _ => false
  end.

(** What is to hold in every state: the real connection has received
    nothing yet, or exactly the expected bytes; and it has received them
    once nothing can move any more. *)
Definition cv_check (w : World Tcp) : bool :=
  let out := outbound (conn w) in
  (bytes_eqb out [] || bytes_eqb out cv_expected)
  && (negb (quiescent w) || bytes_eqb out cv_expected)
  && negb (closed (conn w)).

(** *** Exploring every schedule

    [explore P n w]: [P] holds in [w] and in every world that the
    goroutines of [w] can reach, no step panics, and no goroutine can
    take more than [n] steps in a row of steps.  A step of a blocked or
    finished goroutine leaves the world as it is. *)
Fixpoint explore {C : Type} {CM : ConnModel C} (P : World C -> bool)
         (n : nat) (w : World C) : bool :=
  P w &&
  match n with
  | O => quiescent w
  | S n' =>
      forallb
        (fun i =>
           match nth_error (tasks w) i with
           | None => true
           | Some p =>
               match step1 exec p w with
               | Step p' w' => explore P n' (set_tasks (upd i p' (tasks w')) w')
               | Fault _ => false
               | _ => true
               end
           end)
        (seq 0 (length (tasks w)))
  end.

End Vector.

(** ** Vocabulary of the further properties *)

Module Scenes.

Import IO Runtime Cipher Crypto Props.
Local Open Scope prog_scope.

(** The constructor that mode [m] supplies for direction [d]. *)
Definition mode_ctor (d : direction) (m : mode) : StreamCtor :=
  match d with Enc => encrypter m | Dec => decrypter m end.

(** A Go function of the constructor type that returns the [nil]
    interface value. *)
Definition nil_ctor : StreamCtor := fun _ _ => Returns None.

(** As [ed_ctr], with the constructor of one direction returning [nil]. *)
Definition ed_nil_encrypter : StreamEncryptDecrypter :=
  with_encrypt_material (Some key16) (Some nil_ctor) (Some iv0) ed_ctr.

Definition ed_nil_decrypter : StreamEncryptDecrypter :=
  with_decrypt_material (Some key16) (Some nil_ctor) (Some iv0) ed_ctr.

(** As [ed_ctr], with a decrypt IV of three bytes. *)
Definition ed_short_iv : StreamEncryptDecrypter :=
  with_decrypt_material (Some key16) (Some NewCTR) (Some [1; 2; 3]%Z) ed_ctr.

(** A stream whose [XORKeyStream] writes as many bytes as it is given,
    as the contract of [cipher.Stream] demands. *)
Definition keeps_length (s : Stream) : Prop :=
  forall st src, length (fst (stream_xor s st src)) = length src.

(** A caller that writes [b] on the connection [c] and goes on with what
    [Write] returned. *)
Definition write_then {NC : Type} {NW : Writer NC}
           (c : PipeConn NC) (b : bytes) (k : nat * option error -> Prog unit)
  : Prog unit :=
  '(_, n, err) <- Write c b ;; k (n, err).

(** A caller that reads up to [cap] bytes from the connection [c] and
    goes on with what [Read] returned. *)
Definition read_then {NC : Type} {NR : Reader NC}
           (c : PipeConn NC) (cap : nat) (k : bytes * option error -> Prog unit)
  : Prog unit :=
  '(_, data, err) <- Read c cap ;; k (data, err).

(** A caller that writes the messages [bs] one after the other and
    goes on with what the calls of [Write] returned. *)
Fixpoint write_all {NC : Type} {NW : Writer NC}
         (c : PipeConn NC) (bs : list bytes)
         (k : list (nat * option error) -> Prog unit) : Prog unit :=
  match bs with
  | [] => k []
  | b :: rest => write_then c b (fun r => write_all c rest (fun rs => k (r :: rs)))
  end.

(** A goroutine of a transform at the head of a turn of its copy loop,
    [written] bytes into the copy. *)
Definition goroutine_from {W R NC : Type} {WW : Writer W} {RR : Reader R} {NCl : Closer NC}
           (dst : W) (src : R) (written : nat) (c : PipeConn NC) : Prog unit :=
  _ <- Iter copy_body (dst, src, written) (fun r => Ret r) ;; _ <- Close c ;; Ret tt.

(** The two transforms, and for each the stream that works on what
    the caller writes ([outgoing]) and the one that works on what the
    real connection delivers ([incoming]). *)
Inductive side : Type := ToCiphertext | ToPlaintext.

Definition transform {C : Type} {CM : ConnModel C} (t : side)
  : StreamEncryptDecrypter -> NetConn -> World C -> outcome TransformRes :=
  match t with
  | ToCiphertext => Ciphertext
  | ToPlaintext => Plaintext
  end.

Definition outgoing (t : side) (ed : StreamEncryptDecrypter) : option Stream :=
  match t with
  | ToCiphertext => DecryptStream ed
  | ToPlaintext => EncryptStream ed
  end.

Definition incoming (t : side) (ed : StreamEncryptDecrypter) : option Stream :=
  match t with
  | ToCiphertext => EncryptStream ed
  | ToPlaintext => DecryptStream ed
  end.

(** The goroutine that carries what the caller writes from the pipe
    [p] to the real connection, with its stream in the state [s]. *)
Definition outgoing_task (t : side) (s : option Stream) (p : pipe_id) (written : nat)
           (c : PipeConn NetConn) : Prog unit :=
  match t with
  | ToCiphertext =>
      goroutine_from RealConn {| SR_S := s; SR_R := mkPipeReader p |} written c
  | ToPlaintext =>
      goroutine_from {| SW_S := s; SW_W := RealConn |} (mkPipeReader p) written c
  end.

(** The goroutine that carries what the real connection delivers to
    the pipe [p]. *)
Definition incoming_task (t : side) (s : option Stream) (p : pipe_id) (written : nat)
           (c : PipeConn NetConn) : Prog unit :=
  match t with
  | ToCiphertext =>
      goroutine_from {| SW_S := s; SW_W := mkPipeWriter p |} RealConn written c
  | ToPlaintext =>
      goroutine_from (mkPipeWriter p) {| SR_S := s; SR_R := RealConn |} written c
  end.

(** What a stream makes of a message, and the stream afterwards. *)
Definition through (s : Stream) (b : bytes) : bytes := fst (XORKeyStream s b).
Definition advanced (s : Stream) (b : bytes) : Stream := snd (XORKeyStream s b).

(** What successive calls of [XORKeyStream] make of the segments
    [segs], each with the [nil] error of a successful read. *)
Fixpoint pieces (s : Stream) (segs : list bytes) : list (bytes * option error) :=
  match segs with
  | [] => []
  | seg :: rest => (through s seg, None) :: pieces (advanced s seg) rest
  end.

(** A caller that reads [n] times, with a buffer of [cap] bytes, and goes
    on with what the calls of [Read] returned. *)
Fixpoint read_all {NC : Type} {NR : Reader NC}
         (c : PipeConn NC) (n cap : nat)
         (k : list (bytes * option error) -> Prog unit) : Prog unit :=
  match n with
  | O => k []
  | S n' => read_then c cap (fun r => read_all c n' cap (fun rs => k (r :: rs)))
  end.

(** The goroutines of a transform are goroutines 0 (outgoing) and 1
    (incoming); the caller is goroutine 2.  One [Write] of the caller:
    the caller probes and offers its data, the outgoing goroutine takes
    them and writes to the real connection, the caller returns.  One
    [Read] of the caller: the incoming goroutine reads the real
    connection and offers the data, the caller probes and takes them, the
    goroutine goes back to the head of its loop. *)
Definition write_turn : list nat := [2; 2; 0; 0; 0; 2].
Definition read_turn : list nat := [1; 1; 1; 2; 2; 1].


(** The caller inside [Write], waiting for its data to be taken; and the
    pipe that carries the data [d] not yet taken, [tk] bytes having been
    taken. *)
Definition waiting (k : nat * option error -> Prog unit) : Prog unit :=
  Do (PipeAwait 0) (fun r => k (res_n r, res_err r)).

Definition carrying (d : bytes) (fr : bool) (tk : nat) : Pipe :=
  {| pending := Some d; fresh := fr; taken := tk; rerr := None; werr := None |}.

(** The caller inside [Read], past the probe, waiting for data. *)
Definition listening (cap : nat) (k : bytes * option error -> Prog unit) : Prog unit :=
  Do (PipeRead 1 cap) (fun r => k (res_data r, res_err r)).

(** A message that one turn of the copy loop can carry. *)
Definition one_buffer (b : bytes) : Prop := b <> [] /\ length b <= copy_buf_size.

(** The TCP-like connection [c], open, after [b] more has been sent on
    it, and with [rest] left to arrive. *)
Definition tcp_sent (c : Tcp) (b : bytes) : Tcp :=
  {| closed := false; inbound := inbound c; in_eof := in_eof c;
     outbound := outbound c ++ b |}.

Definition tcp_received (c : Tcp) (rest : list bytes) : Tcp :=
  {| closed := false; inbound := rest; in_eof := in_eof c; outbound := outbound c |}.

(** A segment that one turn of the copy loop can carry and one [Read]
    with a buffer of [cap] bytes can take. *)
Definition one_read (cap : nat) (seg : bytes) : Prop :=
  one_buffer seg /\ length seg <= cap.

(** A closed connection with a writer waiting in the first pipe for
    its three bytes to be taken. *)
Definition world_offered : World Tcp :=
  {| conn := tcp_closed;
     pipes := [{| pending := Some [1; 2; 3]%Z; fresh := true; taken := 0;
                  rerr := None; werr := None |}; new_pipe];
     tasks := []; log := [] |}.

Definition world_taken : World Tcp :=
  {| conn := tcp_closed;
     pipes := [{| pending := Some []; fresh := false; taken := 3;
                  rerr := None; werr := None |}; new_pipe];
     tasks := []; log := [PipeRead 0 copy_buf_size] |}.

(** The world after the operations [ops] on a connection now in state
    [c']. *)
Definition moved {C : Type} (ops : list Op) (c' : C) (w : World C) : World C :=
  {| conn := c'; pipes := pipes w; tasks := tasks w; log := log w ++ ops |}.

(** A goroutine of a transform inside a turn of its copy loop, about
    to read. *)
Definition in_turn {W R NC : Type} {WW : Writer W} {RR : Reader R} {NCl : Closer NC}
           (dst : W) (src : R) (written : nat) (c : PipeConn NC) : Prog unit :=
  bind (copy_body (dst, src, written))
       (loop_next copy_body
          (fun x => bind (Ret x) (fun _ => bind (Close c) (fun _ => Ret tt)))).

Definition outgoing_turn (t : side) (s : option Stream) (p : pipe_id) (written : nat)
           (c : PipeConn NetConn) : Prog unit :=
  match t with
  | ToCiphertext => in_turn RealConn {| SR_S := s; SR_R := mkPipeReader p |} written c
  | ToPlaintext => in_turn {| SW_S := s; SW_W := RealConn |} (mkPipeReader p) written c
  end.

Definition incoming_turn (t : side) (s : option Stream) (p : pipe_id) (written : nat)
           (c : PipeConn NetConn) : Prog unit :=
  match t with
  | ToCiphertext => in_turn {| SW_S := s; SW_W := mkPipeWriter p |} RealConn written c
  | ToPlaintext => in_turn (mkPipeWriter p) {| SR_S := s; SR_R := RealConn |} written c
  end.

(** The TCP-like connection [c] once closed, and a connection on which
    the peer has ended its stream with nothing left to arrive. *)
Definition tcp_shut (c : Tcp) : Tcp :=
  {| closed := true; inbound := inbound c; in_eof := in_eof c; outbound := outbound c |}.

Definition tcp_ended : Tcp :=
  {| closed := false; inbound := []; in_eof := true; outbound := [] |}.

(** A session on a closed connection with idle pipes: the outgoing
    goroutine is at the head of its loop or inside its read of the pipe,
    the incoming goroutine is at the head of its loop, inside its read,
    about to close, or has returned. *)
Definition after_close (t : side) (sO : option Stream) (s : Stream) (w : World Tcp) : Prop :=
  closed (conn w) = true /\
  pipes w = [new_pipe; new_pipe] /\
  exists p q,
    tasks w = [p; q] /\
    (p = outgoing_task t sO 0 0 (guarded 1 0) \/ p = outgoing_turn t sO 0 0 (guarded 1 0)) /\
    (q = incoming_task t (Some s) 1 0 (guarded 1 0) \/
     q = incoming_turn t (Some s) 1 0 (guarded 1 0) \/
     q = closing (guarded 1 0) \/ q = Ret tt).

(** The incoming goroutine about to offer [d] to the second pipe, with
    the wait for a reader as its next operation; and inside that wait. *)
Definition offering (d : bytes) (q : Prog unit) : Prop :=
  exists k, q = Do (PipeOffer 1 d) k /\
            forall r, res_err r = None -> exists k', k r = Do (PipeAwait 1) k'.

Definition awaiting (q : Prog unit) : Prop := exists k, q = Do (PipeAwait 1) k.

(** A session whose caller has not called yet, on a connection [c0]
    that becomes [c1] when it has delivered its next data, of which the
    incoming stream makes [d]: the outgoing goroutine is at the head of
    its loop or inside its read of the pipe; the incoming goroutine has
    not read yet, or has read and is about to offer [d], or has offered
    [d] and waits for a reader. *)
Definition one_ahead {C : Type} (t : side) (sO : option Stream) (s : Stream)
           (c0 c1 : C) (d : bytes) (w : World C) : Prop :=
  exists p q,
    tasks w = [p; q] /\
    (p = outgoing_task t sO 0 0 (guarded 1 0) \/ p = outgoing_turn t sO 0 0 (guarded 1 0)) /\
    ((conn w = c0 /\ log w = [] /\ pipes w = [new_pipe; new_pipe] /\
      (q = incoming_task t (Some s) 1 0 (guarded 1 0) \/
       q = incoming_turn t (Some s) 1 0 (guarded 1 0))) \/
     (conn w = c1 /\ log w = [ConnRead copy_buf_size] /\
      pipes w = [new_pipe; new_pipe] /\ offering d q) \/
     (conn w = c1 /\ log w = [ConnRead copy_buf_size; PipeOffer 1 d] /\
      pipes w = [new_pipe; carrying d true 0] /\ awaiting q)).

(** A caller that writes [b], then closes the connection, and goes on
    with what the two calls returned.  The run in which the caller
    probes and offers, the outgoing goroutine takes the data, the caller
    returns from [Write] and closes, and the goroutine then writes and
    ends. *)
Definition write_close {NC : Type} {NW : Writer NC} {NCl : Closer NC}
           (c : PipeConn NC) (b : bytes)
           (k : nat * option error -> option error -> Prog unit) : Prog unit :=
  write_then c b (fun r => e <- Close c ;; k r e).

Definition write_close_turn : list nat := [2; 2; 0; 0; 2; 2; 0; 0].

(** An open, idle connection with the two pipes of a transform, idle,
    and the caller on its own. *)
Definition idle_session : World Tcp :=
  {| conn := tcp_open; pipes := [new_pipe; new_pipe]; tasks := []; log := [] |}.

End Scenes.

(** ** The block cipher against FIPS-197 *)

Module AESFacts.

Import Props.

(** Appendix C of FIPS-197: the plaintext [00 11 22 .. FF] under the
    keys [00 01 02 ..] of 16, 24 and 32 bytes. *)
Lemma aes128_vector :
  AES.encrypt_block (map Z.of_nat (seq 0 16)) (map (fun n => Z.of_nat (17 * n)) (seq 0 16))
  = [105; 196; 224; 216; 106; 123; 4; 48; 216; 205; 183; 128; 112; 180; 197; 90]%Z.
Proof. vm_compute. reflexivity. Qed.

Lemma aes192_vector :
  AES.encrypt_block (map Z.of_nat (seq 0 24)) (map (fun n => Z.of_nat (17 * n)) (seq 0 16))
  = [221; 169; 124; 164; 134; 76; 223; 224; 110; 175; 112; 160; 236; 13; 113; 145]%Z.
Proof. vm_compute. reflexivity. Qed.

Lemma aes256_vector :
  AES.encrypt_block (map Z.of_nat (seq 0 32)) (map (fun n => Z.of_nat (17 * n)) (seq 0 16))
  = [142; 162; 183; 202; 81; 103; 69; 191; 234; 252; 73; 144; 75; 73; 96; 137]%Z.
Proof. vm_compute. reflexivity. Qed.

(** The S-box table is the one computed from the field inverse and the
    affine map. *)
Lemma sbox_table_computed :
  AES.sbox_table = map (fun n => AES.sbox_calc (Z.of_nat n)) (seq 0 256).
Proof. vm_compute. reflexivity. Qed.

Lemma NewCipher_lengths (key : bytes) :
  (exists block, AES.NewCipher key = inl block) <-> valid_key_length (length key) = true.
Proof.
  unfold AES.NewCipher, valid_key_length.
  destruct (_ || _); split; intros H; try discriminate; eauto.
  destruct H; discriminate.
Qed.

End AESFacts.

(** ** The cipher builder *)

Module Builder.

Import IO Runtime Cipher Crypto Props Scenes.

Lemma initEncrypt_ready ed s :
  EncryptStream ed = Some s -> initEncrypt ed = Returns (None, ed).
Proof. intros H. unfold initEncrypt. now rewrite H. Qed.

Lemma initDecrypt_ready ed s :
  DecryptStream ed = Some s -> initDecrypt ed = Returns (None, ed).
Proof. intros H. unfold initDecrypt. now rewrite H. Qed.

(** What the encrypt block can do to the configuration: nothing, or
    store the stream it has just built in an empty [EncryptStream]. *)
Lemma initEncrypt_inv ed e ed' :
  initEncrypt ed = Returns (e, ed') ->
  ed' = ed \/
  (e = None /\ EncryptStream ed = None /\
   exists ctor key iv block,
     StreamEncrypter ed = Some ctor /\ EncryptKey ed = Some key /\
     EncryptIV ed = Some iv /\ AES.NewCipher key = inl block /\
     exists s, ctor block iv = Returns s /\ ed' = set_EncryptStream s ed).
Proof.
  unfold initEncrypt.
  destruct (EncryptStream ed) eqn:Hs.
  - intros [= <- <-]. now left.
  - destruct (StreamEncrypter ed) as [ctor|] eqn:Hc;
      [destruct (EncryptKey ed) as [key|] eqn:Hk|];
      try (intros [= <- <-]; now left).
    destruct (EncryptIV ed) as [iv|] eqn:Hi; try (intros [= <- <-]; now left).
    destruct (AES.NewCipher key) as [block|err] eqn:Hb; try (intros [= <- <-]; now left).
    destruct (ctor block iv) as [s|m] eqn:Hr; try discriminate.
    intros [= <- <-]. right. repeat split; trivial.
    exists ctor, key, iv, block. repeat split; trivial. now exists s.
Qed.

Lemma initDecrypt_inv ed e ed' :
  initDecrypt ed = Returns (e, ed') ->
  ed' = ed \/
  (e = None /\ DecryptStream ed = None /\
   exists ctor key iv block,
     StreamDecrypter ed = Some ctor /\ DecryptKey ed = Some key /\
     DecryptIV ed = Some iv /\ AES.NewCipher key = inl block /\
     exists s, ctor block iv = Returns s /\ ed' = set_DecryptStream s ed).
Proof.
  unfold initDecrypt.
  destruct (DecryptStream ed) eqn:Hs.
  - intros [= <- <-]. now left.
  - destruct (StreamDecrypter ed) as [ctor|] eqn:Hc;
      [destruct (DecryptKey ed) as [key|] eqn:Hk|];
      try (intros [= <- <-]; now left).
    destruct (DecryptIV ed) as [iv|] eqn:Hi; try (intros [= <- <-]; now left).
    destruct (AES.NewCipher key) as [block|err] eqn:Hb; try (intros [= <- <-]; now left).
    destruct (ctor block iv) as [s|m] eqn:Hr; try discriminate.
    intros [= <- <-]. right. repeat split; trivial.
    exists ctor, key, iv, block. repeat split; trivial. now exists s.
Qed.

(** The errors of each block. *)
Lemma initEncrypt_error ed e ed' :
  initEncrypt ed = Returns (Some e, ed') ->
  ed' = ed /\ (e = ErrEncryptNotSet \/ e = ErrEncryptIV \/ exists k, e = KeySizeError k).
Proof.
  intros H. split.
  - destruct (initEncrypt_inv _ H) as [->|(? & _)]; [reflexivity|discriminate].
  - revert H. unfold initEncrypt.
    destruct (EncryptStream ed); [discriminate|].
    destruct (StreamEncrypter ed) as [ctor|];
      [destruct (EncryptKey ed) as [key|]|]; try (intros [= <- <-]; now left).
    destruct (EncryptIV ed) as [iv|]; try (intros [= <- <-]; right; now left).
    unfold AES.NewCipher.
    destruct (_ || _); [destruct (ctor _ iv); discriminate|].
    intros [= <- <-]. right; right. eauto.
Qed.

Lemma initDecrypt_error ed e ed' :
  initDecrypt ed = Returns (Some e, ed') ->
  ed' = ed /\ (e = ErrDecryptNotSet \/ e = ErrDecryptIV \/ exists k, e = KeySizeError k).
Proof.
  intros H. split.
  - destruct (initDecrypt_inv _ H) as [->|(? & _)]; [reflexivity|discriminate].
  - revert H. unfold initDecrypt.
    destruct (DecryptStream ed); [discriminate|].
    destruct (StreamDecrypter ed) as [ctor|];
      [destruct (DecryptKey ed) as [key|]|]; try (intros [= <- <-]; now left).
    destruct (DecryptIV ed) as [iv|]; try (intros [= <- <-]; right; now left).
    unfold AES.NewCipher.
    destruct (_ || _); [destruct (ctor _ iv); discriminate|].
    intros [= <- <-]. right; right. eauto.
Qed.

(** The builder as a whole: either the encrypt block stops it, or the
    decrypt block decides. *)
Lemma initCipherStream_inv ed e ed' :
  initCipherStream ed = Returns (e, ed') ->
  (exists x, e = Some x /\ initEncrypt ed = Returns (Some x, ed')) \/
  (exists ed1, initEncrypt ed = Returns (None, ed1) /\ initDecrypt ed1 = Returns (e, ed')).
Proof.
  unfold initCipherStream.
  destruct (initEncrypt ed) as [[[x|] ed1]|m]; try discriminate.
  - intros [= <- <-]. left. eauto.
  - intros H. right. eauto.
Qed.

Lemma initEncrypt_decrypt_fields ed e ed' :
  initEncrypt ed = Returns (e, ed') -> decrypt_fields ed' = decrypt_fields ed.
Proof.
  intros H. destruct (initEncrypt_inv _ H) as [->|(_ & _ & _ & _ & _ & _ & _ & _ & _ & _ & s & _ & ->)];
    reflexivity.
Qed.

Lemma initDecrypt_encrypt_fields ed e ed' :
  initDecrypt ed = Returns (e, ed') -> encrypt_fields ed' = encrypt_fields ed.
Proof.
  intros H. destruct (initDecrypt_inv _ H) as [->|(_ & _ & _ & _ & _ & _ & _ & _ & _ & _ & s & _ & ->)];
    reflexivity.
Qed.

(** A failing builder stops the transform before anything is made. *)
Lemma transforms_fail
      {NC : Type} {NR : Reader NC} {NW : Writer NC} {NCl : Closer NC}
      {C : Type} {CM : ConnModel C}
      ed e ed' (nc : NC) (w : World C) :
  initCipherStream ed = Returns (Some e, ed') ->
  Ciphertext ed nc w = Returns ((None, Some e), ed', w) /\
  Plaintext ed nc w = Returns ((None, Some e), ed', w).
Proof.
  intros H. unfold Ciphertext, Plaintext. now rewrite H.
Qed.


(** C3 fails as stated: an empty but non-nil key is not reported as a
    configuration error (it reaches [aes.NewCipher], which rejects the
    length 0), and an empty but non-nil IV is not rejected by the builder
    at all (it is handed to the constructor; [cipher.NewCTR] panics). *)
Lemma empty_key_is_not_a_configuration_error :
  EncryptStream ed_empty_key = None /\
  EncryptKey ed_empty_key = Some [] /\
  initCipherStream ed_empty_key = Returns (Some (KeySizeError 0), ed_empty_key) /\
  is_ConfigurationError (KeySizeError 0) = false /\
  EncryptStream ed_empty_iv = None /\
  EncryptIV ed_empty_iv = Some [] /\
  initCipherStream ed_empty_iv = Panics "cipher.NewCTR: IV length must equal block size".
Proof. repeat split. Qed.

(** C3, amended: for a direction with no ready stream, a [nil] key, a
    [nil] constructor or a [nil] IV makes the builder, once it gets to
    that direction, fail with the configuration error that names what
    is lacking; the configuration is as it was when that direction
    started, and a transform returns the error without making a pipe,
    starting a goroutine or performing an operation. *)
Theorem missing_material_is_configuration_error :
  forall d ed ed1 e,
    reaches d ed ed1 ->
    Missing d ed1 e ->
    initCipherStream ed = Returns (Some e, ed1) /\
    is_ConfigurationError e = true /\
    (e = ErrNotSet d \/ e = ErrIV d) /\
    forall (NC : Type) (NR : Reader NC) (NW : Writer NC) (NCl : Closer NC)
           (C : Type) (CM : ConnModel C) (nc : NC) (w : World C),
      Ciphertext ed nc w = Returns ((None, Some e), ed1, w) /\
      Plaintext ed nc w = Returns ((None, Some e), ed1, w).
Proof.
  intros d ed ed1 e Hr Hm.
  assert (Hi : initCipherStream ed = Returns (Some e, ed1)).
  { destruct d; simpl in Hr.
    - subst ed1. unfold initCipherStream, initEncrypt.
      destruct Hm as [Hs Hck | Hs Hc Hk Hiv]; simpl in *; rewrite Hs.
      + destruct Hck as [-> | ->]; [reflexivity|].
        now destruct (StreamEncrypter ed).
      + destruct (StreamEncrypter ed); [|congruence].
        destruct (EncryptKey ed); [|congruence].
        now rewrite Hiv.
    - unfold initCipherStream. rewrite Hr. unfold initDecrypt.
      destruct Hm as [Hs Hck | Hs Hc Hk Hiv]; simpl in *; rewrite Hs.
      + destruct Hck as [-> | ->]; [reflexivity|].
        now destruct (StreamDecrypter ed1).
      + destruct (StreamDecrypter ed1); [|congruence].
        destruct (DecryptKey ed1); [|congruence].
        now rewrite Hiv. }
  split; [exact Hi|]. split; [|split].
  - destruct Hm, d; reflexivity.
  - destruct Hm; [now left|now right].
  - intros NC NR NW NCl C CM nc w. now apply transforms_fail.
Qed.

Lemma missing_material_witness :
  reaches Enc ed_empty ed_empty /\
  Missing Enc ed_empty ErrEncryptNotSet /\
  initCipherStream ed_empty = Returns (Some ErrEncryptNotSet, ed_empty) /\
  is_ConfigurationError ErrEncryptNotSet = true.
Proof.
  assert (Hr : reaches Enc ed_empty ed_empty) by reflexivity.
  assert (Hm : Missing Enc ed_empty ErrEncryptNotSet)
    by (apply (missing_key_or_ctor Enc ed_empty); [reflexivity | left; reflexivity]).
  split; [exact Hr|]. split; [exact Hm|].
  destruct (@missing_material_is_configuration_error Enc ed_empty ed_empty _ Hr Hm) as (H1 & H2 & _).
  split; [exact H1 | exact H2].
Defined.

(** C4: a key whose length [aes.NewCipher] rejects, in a direction that
    is to be built from its key, makes the builder fail with
    [KeySizeError]; both transforms return that error and no connection,
    and leave the world (pipes, goroutines, operations) as it was. *)
Theorem invalid_key_length_is_construction_error :
  forall d ed ed1 key,
    reaches d ed ed1 ->
    built_from d ed1 key ->
    valid_key_length (length key) = false ->
    initCipherStream ed = Returns (Some (KeySizeError (length key)), ed1) /\
    is_CipherConstructionError (KeySizeError (length key)) = true /\
    forall (NC : Type) (NR : Reader NC) (NW : Writer NC) (NCl : Closer NC)
           (C : Type) (CM : ConnModel C) (nc : NC) (w : World C),
      Ciphertext ed nc w = Returns ((None, Some (KeySizeError (length key))), ed1, w) /\
      Plaintext ed nc w = Returns ((None, Some (KeySizeError (length key))), ed1, w).
Proof.
  intros d ed ed1 key Hr (Hs & Hc & Hk & Hiv) Hlen.
  assert (Hi : initCipherStream ed = Returns (Some (KeySizeError (length key)), ed1)).
  { unfold valid_key_length in Hlen.
    destruct d; simpl in *.
    - subst ed1. unfold initCipherStream, initEncrypt. rewrite Hs, Hk.
      destruct (StreamEncrypter ed); [|congruence].
      destruct (EncryptIV ed); [|congruence].
      unfold AES.NewCipher. now rewrite Hlen.
    - unfold initCipherStream. rewrite Hr. unfold initDecrypt. rewrite Hs, Hk.
      destruct (StreamDecrypter ed1); [|congruence].
      destruct (DecryptIV ed1); [|congruence].
      unfold AES.NewCipher. now rewrite Hlen. }
  split; [exact Hi|]. split; [reflexivity|].
  intros NC NR NW NCl C CM nc w. now apply transforms_fail.
Qed.

Lemma invalid_key_length_witness :
  reaches Enc ed_key5 ed_key5 /\
  built_from Enc ed_key5 key5 /\
  valid_key_length (length key5) = false /\
  initCipherStream ed_key5 = Returns (Some (KeySizeError 5), ed_key5) /\
  Ciphertext ed_key5 RealConn (world0 tcp_open)
  = Returns ((None, Some (KeySizeError 5)), ed_key5, world0 tcp_open).
Proof.
  assert (Hr : reaches Enc ed_key5 ed_key5) by reflexivity.
  assert (Hb : built_from Enc ed_key5 key5)
    by (repeat split; simpl; discriminate).
  assert (Hl : valid_key_length (length key5) = false) by reflexivity.
  split; [exact Hr|]. split; [exact Hb|]. split; [exact Hl|].
  destruct (@invalid_key_length_is_construction_error Enc ed_key5 ed_key5 key5 Hr Hb Hl) as (H1 & _ & H3).
  split; [exact H1|]. exact (proj1 (H3 NetConn _ _ _ Tcp _ RealConn (world0 tcp_open))).
Defined.


(** The decrypt block does not look at the encrypt material, and the
    encrypt block does not look at the decrypt material. *)
Lemma initDecrypt_ignores_encrypt_material k c iv ed :
  initDecrypt (with_encrypt_material k c iv ed)
  = map_config (with_encrypt_material k c iv) (initDecrypt ed).
Proof.
  unfold initDecrypt; simpl.
  destruct (DecryptStream ed); [reflexivity|].
  destruct (StreamDecrypter ed) as [ctor|]; [|reflexivity].
  destruct (DecryptKey ed) as [key|]; [|reflexivity].
  destruct (DecryptIV ed) as [i|]; [|reflexivity].
  destruct (AES.NewCipher key) as [block|err]; [|reflexivity].
  now destruct (ctor block i).
Qed.

Lemma initEncrypt_ignores_decrypt_material k c iv ed :
  initEncrypt (with_decrypt_material k c iv ed)
  = map_config (with_decrypt_material k c iv) (initEncrypt ed).
Proof.
  unfold initEncrypt; simpl.
  destruct (EncryptStream ed); [reflexivity|].
  destruct (StreamEncrypter ed) as [ctor|]; [|reflexivity].
  destruct (EncryptKey ed) as [key|]; [|reflexivity].
  destruct (EncryptIV ed) as [i|]; [|reflexivity].
  destruct (AES.NewCipher key) as [block|err]; [|reflexivity].
  now destruct (ctor block i).
Qed.

Lemma initCipherStream_keeps_ready d ed s e ed' :
  stream_of d ed = Some s ->
  initCipherStream ed = Returns (e, ed') ->
  stream_of d ed' = Some s.
Proof.
  intros Hs H.
  destruct (initCipherStream_inv _ H) as [(x & -> & He) | (ed1 & He & Hd)].
  - apply initEncrypt_error in He as [-> _]. exact Hs.
  - destruct d; simpl in *.
    + rewrite (initEncrypt_ready _ Hs) in He. injection He as <-.
      pose proof (initDecrypt_encrypt_fields _ Hd) as F.
      unfold encrypt_fields in F. injection F as _ _ F _. congruence.
    + pose proof (initEncrypt_decrypt_fields _ He) as F.
      unfold decrypt_fields in F. injection F as _ _ F _.
      rewrite <- F in Hs. rewrite (initDecrypt_ready _ Hs) in Hd.
      injection Hd as _ <-. exact Hs.
Qed.

Lemma initCipherStream_both_ready ed s s' :
  EncryptStream ed = Some s -> DecryptStream ed = Some s' ->
  initCipherStream ed = Returns (None, ed).
Proof.
  intros He Hd. unfold initCipherStream.
  rewrite (initEncrypt_ready _ He). now apply initDecrypt_ready with s'.
Qed.

(** A block that lets the builder carry on leaves a stream in its
    direction, provided the constructor hands back a stream object. *)
Lemma initEncrypt_success ed ed' :
  ctor_ok (StreamEncrypter ed) ->
  initEncrypt ed = Returns (None, ed') ->
  EncryptStream ed' <> None.
Proof.
  intros Hok. unfold initEncrypt.
  destruct (EncryptStream ed) eqn:Hs.
  - intros [= <-]. congruence.
  - destruct (StreamEncrypter ed) as [ctor|]; [|discriminate].
    destruct (EncryptKey ed) as [key|]; [|discriminate].
    destruct (EncryptIV ed) as [iv|]; [|discriminate].
    destruct (AES.NewCipher key) as [block|]; [|discriminate].
    destruct (ctor block iv) eqn:Hr; [|discriminate].
    intros [= <-]. simpl. exact (Hok ctor eq_refl _ _ _ Hr).
Qed.

Lemma initDecrypt_success ed ed' :
  ctor_ok (StreamDecrypter ed) ->
  initDecrypt ed = Returns (None, ed') ->
  DecryptStream ed' <> None.
Proof.
  intros Hok. unfold initDecrypt.
  destruct (DecryptStream ed) eqn:Hs.
  - intros [= <-]. congruence.
  - destruct (StreamDecrypter ed) as [ctor|]; [|discriminate].
    destruct (DecryptKey ed) as [key|]; [|discriminate].
    destruct (DecryptIV ed) as [iv|]; [|discriminate].
    destruct (AES.NewCipher key) as [block|]; [|discriminate].
    destruct (ctor block iv) eqn:Hr; [|discriminate].
    intros [= <-]. simpl. exact (Hok ctor eq_refl _ _ _ Hr).
Qed.

Lemma initCipherStream_success ed ed' :
  ctor_ok (StreamEncrypter ed) -> ctor_ok (StreamDecrypter ed) ->
  initCipherStream ed = Returns (None, ed') ->
  EncryptStream ed' <> None /\ DecryptStream ed' <> None.
Proof.
  intros Ce Cd H.
  destruct (initCipherStream_inv _ H) as [(x & ? & _) | (ed1 & He & Hd)]; [discriminate|].
  pose proof (@initEncrypt_success _ _ Ce He) as E1.
  pose proof (initEncrypt_decrypt_fields _ He) as F.
  unfold decrypt_fields in F. injection F as _ Fc _ _.
  rewrite <- Fc in Cd.
  pose proof (@initDecrypt_success _ _ Cd Hd) as D1.
  pose proof (initDecrypt_encrypt_fields _ Hd) as G.
  unfold encrypt_fields in G. injection G as _ _ G _.
  split; congruence.
Qed.

Lemma initCipherStream_ctors ed e ed' :
  initCipherStream ed = Returns (e, ed') ->
  StreamEncrypter ed' = StreamEncrypter ed /\ StreamDecrypter ed' = StreamDecrypter ed.
Proof.
  intros H.
  destruct (initCipherStream_inv _ H) as [(x & -> & He) | (ed1 & He & Hd)].
  - apply initEncrypt_error in He as [-> _]. now split.
  - pose proof (initEncrypt_decrypt_fields _ He) as F.
    pose proof (initDecrypt_encrypt_fields _ Hd) as G.
    unfold encrypt_fields, decrypt_fields in *.
    injection F as _ F _ _. injection G as _ G _ _.
    destruct (initEncrypt_inv _ He) as [-> | (_ & _ & _ & _ & _ & _ & _ & _ & _ & _ & s & _ & ->)];
      destruct (initDecrypt_inv _ Hd) as [-> | (_ & _ & _ & _ & _ & _ & _ & _ & _ & _ & s' & _ & ->)];
      now split.
Qed.

(** C5: a direction whose stream is ready is left alone.  The stream is
    still there after the call; the call does not depend on the key, the
    constructor or the IV of that direction (whatever they are, even a
    constructor that would panic, the outcome is the same); with both
    streams ready the call returns [nil] and changes nothing; hence a
    second call after a successful one is a no-op. *)
Theorem ready_stream_is_left_untouched :
  forall d ed s,
    stream_of d ed = Some s ->
    (forall e ed', initCipherStream ed = Returns (e, ed') -> stream_of d ed' = Some s) /\
    (forall k c iv,
        initCipherStream (with_material d k c iv ed)
        = map_config (with_material d k c iv) (initCipherStream ed)) /\
    (forall s', stream_of (other d) ed = Some s' ->
                initCipherStream ed = Returns (None, ed)) /\
    (forall ed0,
        ctor_ok (StreamEncrypter ed0) -> ctor_ok (StreamDecrypter ed0) ->
        initCipherStream ed0 = Returns (None, ed) ->
        initCipherStream ed = Returns (None, ed)).
Proof.
  intros d ed s Hs. split; [|split; [|split]].
  - intros e ed' H. eapply initCipherStream_keeps_ready; eauto.
  - intros k c iv. destruct d; simpl in *.
    + unfold initCipherStream.
      rewrite (@initEncrypt_ready (with_encrypt_material k c iv ed) s Hs).
      rewrite (initEncrypt_ready _ Hs).
      apply initDecrypt_ignores_encrypt_material.
    + unfold initCipherStream.
      rewrite initEncrypt_ignores_decrypt_material.
      destruct (initEncrypt ed) as [[[x|] ed1]|m] eqn:He; try reflexivity.
      simpl.
      pose proof (initEncrypt_decrypt_fields _ He) as F.
      unfold decrypt_fields in F. injection F as _ _ F _.
      rewrite <- F in Hs.
      rewrite (@initDecrypt_ready (with_decrypt_material k c iv ed1) s Hs).
      now rewrite (initDecrypt_ready _ Hs).
  - intros s' Hs'. destruct d; simpl in *; eapply initCipherStream_both_ready; eauto.
  - intros ed0 Ce Cd H0.
    destruct (@initCipherStream_success _ _ Ce Cd H0) as [He Hd].
    destruct (EncryptStream ed) eqn:E1; [|congruence].
    destruct (DecryptStream ed) eqn:E2; [|congruence].
    eapply initCipherStream_both_ready; eauto.
Qed.


Lemma ready_stream_witness :
  stream_of Enc ed_ready = Some sample_stream /\
  stream_of Enc ed_ready = Some sample_stream /\
  initCipherStream ed_ready = Returns (None, ed_ready).
Proof.
  assert (Hs : stream_of Enc ed_ready = Some sample_stream) by reflexivity.
  split; [exact Hs|]. split; [exact Hs|].
  destruct (@ready_stream_is_left_untouched Enc ed_ready sample_stream Hs) as (_ & _ & H & _).
  exact (H sample_stream eq_refl).
Defined.

(** C6 fails as stated: when the decrypt direction fails with a
    configuration error, the encrypt direction has already been dealt
    with, and the stream built for it by this same call stays in the
    configuration. *)
Lemma decrypt_failure_keeps_the_new_encrypt_stream :
  exists ed',
    initCipherStream ed_enc_only = Returns (Some ErrDecryptNotSet, ed') /\
    is_ConfigurationError ErrDecryptNotSet = true /\
    EncryptStream ed_enc_only = None /\
    EncryptStream ed' <> None /\
    encrypt_fields ed' <> encrypt_fields ed_enc_only.
Proof.
  eexists. split; [reflexivity|]. repeat split; simpl; discriminate.
Qed.

(** C6, amended: a configuration error of the encrypt direction leaves
    the whole configuration unchanged; a configuration error of the
    decrypt direction leaves the decrypt fields and the encrypt key,
    constructor and IV unchanged, and leaves the encrypt stream unchanged
    if there was one; if there was none, the configuration is the old one
    with the encrypt stream that this call has built. *)
Theorem configuration_error_frame :
  forall d ed e ed',
    initCipherStream ed = Returns (Some e, ed') ->
    e = ErrNotSet d \/ e = ErrIV d ->
    is_ConfigurationError e = true /\
    match d with
    | Enc => ed' = ed
    | Dec =>
        decrypt_fields ed' = decrypt_fields ed /\
        EncryptKey ed' = EncryptKey ed /\
        StreamEncrypter ed' = StreamEncrypter ed /\
        EncryptIV ed' = EncryptIV ed /\
        (EncryptStream ed <> None -> ed' = ed) /\
        (EncryptStream ed = None ->
         exists ctor key iv block s,
           StreamEncrypter ed = Some ctor /\ EncryptKey ed = Some key /\
           EncryptIV ed = Some iv /\ AES.NewCipher key = inl block /\
           ctor block iv = Returns s /\ ed' = set_EncryptStream s ed)
    end.
Proof.
  intros d ed e ed' H He. split.
  { destruct d, He as [-> | ->]; reflexivity. }
  destruct (initCipherStream_inv _ H) as [(x & [= <-] & Hx) | (ed1 & H1 & H2)].
  - apply initEncrypt_error in Hx as [-> Hx].
    destruct d; [reflexivity|].
    exfalso. simpl in He.
    destruct He as [-> | ->], Hx as [Hx | [Hx | [k Hx]]]; discriminate Hx.
  - apply initDecrypt_error in H2 as [-> H2].
    destruct d.
    + exfalso. simpl in He.
      destruct He as [-> | ->], H2 as [Hx | [Hx | [k Hx]]]; discriminate Hx.
    + destruct (initEncrypt_inv _ H1)
        as [-> | (_ & Hs & ctor & key & iv & block & Hc & Hk & Hi & Hb & s & Hr & ->)].
      * repeat split; trivial.
        intros Hs. revert H1. unfold initEncrypt. rewrite Hs.
        destruct (StreamEncrypter ed) as [ctor|]; [|discriminate].
        destruct (EncryptKey ed) as [key|]; [|discriminate].
        destruct (EncryptIV ed) as [iv|]; [|discriminate].
        destruct (AES.NewCipher key) as [block|] eqn:Hb; [|discriminate].
        destruct (ctor block iv) as [s|] eqn:Hr; [|discriminate].
        intros [= E]. exists ctor, key, iv, block, s. repeat split; trivial.
        now symmetry.
      * repeat split; trivial; [congruence|].
        intros _. exists ctor, key, iv, block, s. repeat split; trivial.
Qed.

Lemma configuration_error_frame_witness :
  initCipherStream ed_empty = Returns (Some ErrEncryptNotSet, ed_empty) /\
  (ErrEncryptNotSet = ErrNotSet Enc \/ ErrEncryptNotSet = ErrIV Enc) /\
  is_ConfigurationError ErrEncryptNotSet = true.
Proof.
  assert (H : initCipherStream ed_empty = Returns (Some ErrEncryptNotSet, ed_empty))
    by reflexivity.
  assert (He : ErrEncryptNotSet = ErrNotSet Enc \/ ErrEncryptNotSet = ErrIV Enc)
    by (left; reflexivity).
  split; [exact H|]. split; [exact He|].
  exact (proj1 (@configuration_error_frame Enc ed_empty ErrEncryptNotSet ed_empty H He)).
Defined.

Lemma NewCTR_yields_stream : yields_stream NewCTR.
Proof.
  intros block iv s. unfold NewCTR.
  destruct (negb _); [discriminate|]. intros [= <-]. discriminate.
Qed.

Lemma ed_ctr_ctors_ok :
  ctor_ok (StreamEncrypter ed_ctr) /\ ctor_ok (StreamDecrypter ed_ctr).
Proof.
  split; intros f [= <-]; exact NewCTR_yields_stream.
Qed.

(** Where the stream of a direction comes from when that direction
    succeeds: it is the ready one, or it is what the constructor
    returned. *)
Lemma initEncrypt_origin ed ed' :
  initEncrypt ed = Returns (None, ed') ->
  (exists s, EncryptStream ed = Some s /\ ed' = ed) \/
  (EncryptStream ed = None /\
   exists ctor key iv block,
     StreamEncrypter ed = Some ctor /\ EncryptKey ed = Some key /\
     EncryptIV ed = Some iv /\ AES.NewCipher key = inl block /\
     ctor block iv = Returns (EncryptStream ed') /\
     ed' = set_EncryptStream (EncryptStream ed') ed).
Proof.
  unfold initEncrypt.
  destruct (EncryptStream ed) as [s0|] eqn:Hs.
  - intros [= <-]. left. now exists s0.
  - destruct (StreamEncrypter ed) as [ctor|] eqn:Hc; [|discriminate].
    destruct (EncryptKey ed) as [key|] eqn:Hk; [|discriminate].
    destruct (EncryptIV ed) as [iv|] eqn:Hi; [|discriminate].
    destruct (AES.NewCipher key) as [block|err] eqn:Hb; [|discriminate].
    destruct (ctor block iv) as [s|m] eqn:Hr; [|discriminate].
    intros [= <-]. right. split; [reflexivity|].
    exists ctor, key, iv, block. repeat split; trivial.
Qed.

Lemma initDecrypt_origin ed ed' :
  initDecrypt ed = Returns (None, ed') ->
  (exists s, DecryptStream ed = Some s /\ ed' = ed) \/
  (DecryptStream ed = None /\
   exists ctor key iv block,
     StreamDecrypter ed = Some ctor /\ DecryptKey ed = Some key /\
     DecryptIV ed = Some iv /\ AES.NewCipher key = inl block /\
     ctor block iv = Returns (DecryptStream ed') /\
     ed' = set_DecryptStream (DecryptStream ed') ed).
Proof.
  unfold initDecrypt.
  destruct (DecryptStream ed) as [s0|] eqn:Hs.
  - intros [= <-]. left. now exists s0.
  - destruct (StreamDecrypter ed) as [ctor|] eqn:Hc; [|discriminate].
    destruct (DecryptKey ed) as [key|] eqn:Hk; [|discriminate].
    destruct (DecryptIV ed) as [iv|] eqn:Hi; [|discriminate].
    destruct (AES.NewCipher key) as [block|err] eqn:Hb; [|discriminate].
    destruct (ctor block iv) as [s|m] eqn:Hr; [|discriminate].
    intros [= <-]. right. split; [reflexivity|].
    exists ctor, key, iv, block. repeat split; trivial.
Qed.

Lemma initCipherStream_origin ed ed' :
  initCipherStream ed = Returns (None, ed') ->
  ((exists s, EncryptStream ed = Some s /\ EncryptStream ed' = Some s) \/
   (EncryptStream ed = None /\
    exists ctor key iv block,
      StreamEncrypter ed = Some ctor /\ EncryptKey ed = Some key /\
      EncryptIV ed = Some iv /\ AES.NewCipher key = inl block /\
      ctor block iv = Returns (EncryptStream ed'))) /\
  ((exists s, DecryptStream ed = Some s /\ DecryptStream ed' = Some s) \/
   (DecryptStream ed = None /\
    exists ctor key iv block,
      StreamDecrypter ed = Some ctor /\ DecryptKey ed = Some key /\
      DecryptIV ed = Some iv /\ AES.NewCipher key = inl block /\
      ctor block iv = Returns (DecryptStream ed'))).
Proof.
  intros H.
  destruct (initCipherStream_inv _ H) as [(x & ? & _) | (ed1 & He & Hd)]; [discriminate|].
  pose proof (initEncrypt_decrypt_fields _ He) as F.
  pose proof (initDecrypt_encrypt_fields _ Hd) as G.
  unfold encrypt_fields, decrypt_fields in *.
  injection F as Fk Fc Fs Fi. injection G as Gk Gc Gs Gi.
  split.
  - destruct (initEncrypt_origin _ He) as [(s & Hs & ->) | (Hs & ctor & key & iv & block & Hc & Hk & Hi & Hb & Hr & _)].
    + left. exists s. split; [exact Hs | congruence].
    + right. split; [exact Hs|]. exists ctor, key, iv, block.
      repeat split; trivial. congruence.
  - destruct (initDecrypt_origin _ Hd) as [(s & Hs & ->) | (Hs & ctor & key & iv & block & Hc & Hk & Hi & Hb & Hr & _)].
    + left. exists s. split; congruence.
    + right. split; [congruence|]. exists ctor, key, iv, block.
      repeat split; congruence.
Qed.

Lemma initCipherStream_set ed ed' :
  initCipherStream ed = Returns (None, ed') ->
  (ctor_ok (StreamEncrypter ed) -> EncryptStream ed' <> None) /\
  (ctor_ok (StreamDecrypter ed) -> DecryptStream ed' <> None).
Proof.
  intros H.
  destruct (initCipherStream_origin _ H) as [HE HD]. split.
  - intros Ce. destruct HE as [(s & _ & ->) | (_ & ctor & key & iv & block & Hc & _ & _ & _ & Hr)];
      [discriminate|]. exact (Ce ctor Hc _ _ _ Hr).
  - intros Cd. destruct HD as [(s & _ & ->) | (_ & ctor & key & iv & block & Hc & _ & _ & _ & Hr)];
      [discriminate|]. exact (Cd ctor Hc _ _ _ Hr).
Qed.

(** C7 fails as stated: the builder does not test what a constructor
    returns.  With an encrypt constructor that returns the [nil] stream
    the builder returns [nil] and [EncryptStream] is still [nil]; and
    [Ciphertext] goes on: it returns a connection and makes its two pipes
    and its two goroutines. *)
Lemma success_with_a_nil_stream :
  exists ed' c (w' : World Tcp),
    initCipherStream ed_nil_encrypter = Returns (None, ed') /\
    EncryptStream ed' = None /\
    DecryptStream ed' <> None /\
    Ciphertext ed_nil_encrypter RealConn (world0 tcp_open)
    = Returns ((Some c, None), ed', w') /\
    length (pipes w') = 2 /\
    length (tasks w') = 2.
Proof.
  do 3 eexists. split; [reflexivity|]. split; [reflexivity|].
  split; [discriminate|]. split; [reflexivity|]. split; reflexivity.
Qed.

(** C7, amended: when the builder returns [nil], the stream of each
    direction is the ready one that was there before the call, or else
    exactly what the constructor of that direction returned for the
    block cipher of the key and the IV; so it is set whenever the
    constructor is a function that hands back stream objects, as those of
    the library are, and only then.  A transform either stops at a failed
    builder, with the builder's error, no connection, no pipe and no
    goroutine, or goes on after a builder that returned [nil], and in
    that case only are the two pipes and the two goroutines made and a
    connection returned. *)
Theorem both_streams_before_any_data :
  forall ed,
    (forall ed',
        initCipherStream ed = Returns (None, ed') ->
        ((exists s, EncryptStream ed = Some s /\ EncryptStream ed' = Some s) \/
         (EncryptStream ed = None /\
          exists ctor key iv block,
            StreamEncrypter ed = Some ctor /\ EncryptKey ed = Some key /\
            EncryptIV ed = Some iv /\ AES.NewCipher key = inl block /\
            ctor block iv = Returns (EncryptStream ed'))) /\
        ((exists s, DecryptStream ed = Some s /\ DecryptStream ed' = Some s) \/
         (DecryptStream ed = None /\
          exists ctor key iv block,
            StreamDecrypter ed = Some ctor /\ DecryptKey ed = Some key /\
            DecryptIV ed = Some iv /\ AES.NewCipher key = inl block /\
            ctor block iv = Returns (DecryptStream ed'))) /\
        (ctor_ok (StreamEncrypter ed) -> EncryptStream ed' <> None) /\
        (ctor_ok (StreamDecrypter ed) -> DecryptStream ed' <> None)) /\
    (forall (NC : Type) (NR : Reader NC) (NW : Writer NC) (NCl : Closer NC)
            (C : Type) (CM : ConnModel C) (nc : NC) (w : World C) r ed' w',
        Ciphertext ed nc w = Returns (r, ed', w') \/
        Plaintext ed nc w = Returns (r, ed', w') ->
        (initCipherStream ed = Returns (None, ed') /\
         (ctor_ok (StreamEncrypter ed) -> EncryptStream ed' <> None) /\
         (ctor_ok (StreamDecrypter ed) -> DecryptStream ed' <> None) /\
         fst r <> None /\ snd r = None /\
         length (pipes w') = length (pipes w) + 2 /\
         length (tasks w') = length (tasks w) + 2)
        \/
        (exists e, initCipherStream ed = Returns (Some e, ed') /\
                   r = (None, Some e) /\ w' = w)).
Proof.
  intros ed. split.
  - intros ed' H.
    destruct (initCipherStream_origin _ H) as [HE HD].
    destruct (initCipherStream_set _ H) as [SE SD].
    repeat split; assumption.
  - intros NC NR NW NCl C CM nc w r ed' w' H.
    unfold Ciphertext, Plaintext in H.
    destruct (initCipherStream ed) as [[[e|] ed1]|m] eqn:Hi.
    + right. exists e.
      destruct H as [H | H]; injection H as <- <- <-; auto.
    + left.
      destruct (initCipherStream_set _ Hi) as [SE SD].
      destruct H as [H | H]; injection H as <- <- <-; simpl;
        rewrite ?length_app; simpl; repeat split; trivial; try discriminate; lia.
    + destruct H; discriminate.
Qed.

Lemma both_streams_witness :
  exists ed' r (w' : World Tcp),
    initCipherStream ed_ctr = Returns (None, ed') /\
    ctor_ok (StreamEncrypter ed_ctr) /\ ctor_ok (StreamDecrypter ed_ctr) /\
    EncryptStream ed' <> None /\ DecryptStream ed' <> None /\
    Plaintext ed_ctr RealConn (world0 tcp_open) = Returns (r, ed', w') /\
    fst r <> None /\
    length (pipes w') = 2 /\
    length (tasks w') = 2.
Proof.
  destruct (both_streams_before_any_data ed_ctr) as [H1 H2].
  do 3 eexists.
  assert (Hi : initCipherStream ed_ctr = Returns (None, _)) by reflexivity.
  assert (HP : Plaintext ed_ctr RealConn (world0 tcp_open) = Returns (_, _, _))
    by reflexivity.
  destruct (H1 _ Hi) as (_ & _ & SE & SD).
  destruct (H2 _ _ _ _ _ _ RealConn (world0 tcp_open) _ _ _ (or_intror HP))
    as [(_ & _ & _ & Hr & _ & Hp & Ht) | (e & He & _)].
  - split; [exact Hi|].
    split; [exact (proj1 ed_ctr_ctors_ok)|]. split; [exact (proj2 ed_ctr_ctors_ok)|].
    split; [exact (SE (proj1 ed_ctr_ctors_ok))|].
    split; [exact (SD (proj2 ed_ctr_ctors_ok))|].
    split; [exact HP|]. split; [exact Hr|]. split; [exact Hp | exact Ht].
  - rewrite Hi in He. discriminate.
Defined.

End Builder.

(** ** Facts about running programs *)

Module RunFacts.

Import IO Runtime.

Section Handler.

Context {H : Type} (hd : Handler H).

Lemma run_more {A : Type} (n : nat) :
  forall (p : Prog A) (h : H) a h',
    run n hd p h = Finished a h' ->
    forall m, n <= m -> run m hd p h = Finished a h'.
Proof.
  induction n as [|n IH]; intros p h a h' Hr m Hm; [discriminate|].
  destruct m as [|m]; [lia|]. simpl in *.
  destruct (step1 hd p h) as [x|p' h1| |msg]; try discriminate; trivial.
  apply IH; [exact Hr | lia].
Qed.

Lemma returns_intro {A : Type} (n : nat) (p : Prog A) h a h' :
  run n hd p h = Finished a h' -> returns hd p h a h'.
Proof. intros Hr. exists n. intros m Hm. now apply run_more with n. Qed.

Lemma returns_unique {A : Type} (p : Prog A) h a h' b h'' :
  returns hd p h a h' -> returns hd p h b h'' -> a = b /\ h' = h''.
Proof.
  intros [n Hn] [m Hm].
  specialize (Hn (n + m) ltac:(lia)). specialize (Hm (n + m) ltac:(lia)).
  rewrite Hn in Hm. now injection Hm.
Qed.

Lemma returns_Ret {A : Type} (a : A) h : returns hd (Ret a) h a h.
Proof. now apply returns_intro with 1. Qed.

Lemma returns_step {A : Type} (p p' : Prog A) h h1 a h' :
  step1 hd p h = Step p' h1 ->
  returns hd p' h1 a h' -> returns hd p h a h'.
Proof.
  intros Hs [n Hn]. exists (S n). intros [|m] Hm; [lia|].
  simpl. rewrite Hs. apply Hn. lia.
Qed.

Lemma returns_Do {A : Type} (o : Op) (k : OpRes -> Prog A) h r h1 a h' :
  hd o h = Done (r, h1) ->
  returns hd (k r) h1 a h' -> returns hd (Do o k) h a h'.
Proof.
  intros Ho. apply returns_step. simpl. now rewrite Ho.
Qed.

Lemma run_positive {A : Type} (n : nat) (p : Prog A) h a h' :
  run n hd p h = Finished a h' -> 1 <= n.
Proof. destruct n; [discriminate|lia]. Qed.

Lemma bind_both (n : nat) : bind_forward hd n /\ bind_backward hd n.
Proof.
  induction n as [n IH] using lt_wf_ind.
  assert (IHf : forall m, m < n -> bind_forward hd m) by (intros m Hm; apply IH, Hm).
  assert (IHb : forall m, m < n -> bind_backward hd m) by (intros m Hm; apply IH, Hm).
  clear IH. split.
  - intros A B p f h a h1 b h2 m Hr Hf.
    pose proof (run_positive _ _ _ Hf) as Hm.
    destruct n as [|n]; [discriminate|]. simpl in Hr.
    destruct p as [A a0|A o k|I X A body i k|A msg]; simpl in Hr.
    + injection Hr as -> ->. simpl bind.
      apply run_more with m; [exact Hf | lia].
    + destruct (hd o h) as [[r h']| |msg] eqn:Ho; try discriminate.
      pose proof (run_positive _ _ _ Hr) as Hn.
      replace (S n + m - 1) with (S (n + m - 1)) by lia.
      simpl. rewrite Ho.
      eapply (IHf n); [lia | exact Hr | exact Hf].
    + destruct (IHb n ltac:(lia) _ _ _ _ _ _ _ Hr)
        as (y & h' & n1 & n2 & Hy & Hk & Hle).
      pose proof (run_positive _ _ _ Hy) as Hn1.
      pose proof (run_positive _ _ _ Hk) as Hn2.
      assert (Hk' : run (n2 + m - 1) hd
                        (loop_next body (fun x => bind (k x) f) y) h' = Finished b h2).
      { destruct y as [i'|x]; simpl in Hk |- *.
        - change (Iter body i' (fun x => bind (k x) f)) with (bind (Iter body i' k) f).
          eapply (IHf n2); [lia | exact Hk | exact Hf].
        - eapply (IHf n2); [lia | exact Hk | exact Hf]. }
      pose proof (IHf n1 ltac:(lia) _ _ _ _ _ _ _ _ _ _ Hy Hk') as Hb.
      apply run_more with (S (n1 + (n2 + m - 1) - 1)); [|lia].
      simpl. exact Hb.
    + discriminate.
  - intros A B p f h b h2 Hr.
    destruct n as [|n]; [discriminate|].
    destruct p as [A a0|A o k|I X A body i k|A msg].
    + simpl bind in Hr. exists a0, h, 1, (S n).
      repeat split; trivial; lia.
    + simpl in Hr.
      destruct (hd o h) as [[r h']| |msg] eqn:Ho; try discriminate.
      destruct (IHb n ltac:(lia) _ _ _ _ _ _ _ Hr)
        as (a & h1 & n1 & n2 & Ha & Hk & Hle).
      exists a, h1, (S n1), n2. repeat split; trivial; try lia.
      simpl. now rewrite Ho.
    + simpl in Hr.
      destruct (IHb n ltac:(lia) _ _ _ _ _ _ _ Hr)
        as (y & h' & n1 & n2 & Hy & Hk & Hle).
      pose proof (run_positive _ _ _ Hy) as Hn1.
      pose proof (run_positive _ _ _ Hk) as Hn2.
      assert (exists a h1 n3 n4,
                 run n3 hd (loop_next body k y) h' = Finished a h1 /\
                 run n4 hd (f a) h1 = Finished b h2 /\ n3 + n4 <= n2 + 1)
        as (a & h1 & n3 & n4 & Ha & Hfa & Hle').
      { destruct y as [i'|x]; simpl in Hk |- *.
        - change (Iter body i' (fun x => bind (k x) f)) with (bind (Iter body i' k) f) in Hk.
          exact (IHb n2 ltac:(lia) _ _ _ _ _ _ _ Hk).
        - exact (IHb n2 ltac:(lia) _ _ _ _ _ _ _ Hk). }
      pose proof (run_positive _ _ _ Ha) as Hn3.
      pose proof (run_positive _ _ _ Hfa) as Hn4.
      pose proof (IHf n1 ltac:(lia) _ _ _ _ _ _ _ _ _ _ Hy Ha) as Hb.
      exists a, h1, (S (n1 + n3 - 1)), n4. repeat split; trivial; lia.
    + simpl in Hr. discriminate.
Qed.

Lemma returns_bind {A B : Type} (p : Prog A) (f : A -> Prog B) h a h1 b h2 :
  returns hd p h a h1 ->
  returns hd (f a) h1 b h2 ->
  returns hd (bind p f) h b h2.
Proof.
  intros [n Hn] [m Hm].
  apply returns_intro with (n + m - 1).
  eapply (proj1 (bind_both n)); [apply Hn | apply Hm]; lia.
Qed.

(** One turn of a loop. *)
Lemma returns_Iter_again {I X A : Type} (body : I -> Prog (I + X)) (k : X -> Prog A)
      i i' h h1 a h' :
  returns hd (body i) h (inl i') h1 ->
  returns hd (Iter body i' k) h1 a h' ->
  returns hd (Iter body i k) h a h'.
Proof.
  intros Hb Hl. eapply returns_step; [reflexivity|].
  eapply returns_bind; [exact Hb | exact Hl].
Qed.

Lemma returns_Iter_exit {I X A : Type} (body : I -> Prog (I + X)) (k : X -> Prog A)
      i x h h1 a h' :
  returns hd (body i) h (inr x) h1 ->
  returns hd (k x) h1 a h' ->
  returns hd (Iter body i k) h a h'.
Proof.
  intros Hb Hl. eapply returns_step; [reflexivity|].
  eapply returns_bind; [exact Hb | exact Hl].
Qed.

(** A loop followed by the rest of the program. *)
Lemma returns_Iter_then {I X A : Type} (body : I -> Prog (I + X)) (k : X -> Prog A)
      i h x h1 a h' :
  returns hd (Iter body i (fun r => Ret r)) h x h1 ->
  returns hd (k x) h1 a h' ->
  returns hd (Iter body i k) h a h'.
Proof.
  intros Hl Hk. exact (@returns_bind _ _ (Iter body i (fun r => Ret r)) k _ _ _ _ _ Hl Hk).
Qed.

End Handler.

End RunFacts.

(** ** Streams and the copying goroutines *)

Module StreamFacts.

Import IO Runtime Cipher Crypto Props RunFacts.

Lemma xor_byte_cancel (a k : byte) : xor_byte (xor_byte a k) k = a.
Proof.
  unfold xor_byte. now rewrite Z.lxor_assoc, Z.lxor_nilpotent, Z.lxor_0_r.
Qed.

Section Bytewise.

Context {S : Type} (step : S -> byte -> byte * S).

Lemma xor_fold_length (src : bytes) :
  forall s, length (fst (xor_fold step s src)) = length src.
Proof.
  induction src as [|b rest IH]; intros s; simpl; [reflexivity|].
  destruct (step s b) as [c s1]. specialize (IH s1).
  destruct (xor_fold step s1 rest) as [cs s2]. simpl in *. now rewrite IH.
Qed.

(** Cutting the input into pieces does not change the output. *)
Lemma xor_fold_app (a b : bytes) :
  forall s,
    xor_fold step s (a ++ b)
    = (fst (xor_fold step s a) ++ fst (xor_fold step (snd (xor_fold step s a)) b),
       snd (xor_fold step (snd (xor_fold step s a)) b)).
Proof.
  induction a as [|x a IH]; intros s; simpl.
  - now destruct (xor_fold step s b).
  - destruct (step s x) as [c s1]. rewrite (IH s1).
    destruct (xor_fold step s1 a) as [ca s2]. simpl.
    now destruct (xor_fold step s2 b).
Qed.

Lemma XORKeyStream_bytewise (s : S) (src : bytes) :
  XORKeyStream (bytewise step s) src
  = (fst (xor_fold step s src), bytewise step (snd (xor_fold step s src))).
Proof.
  unfold XORKeyStream, bytewise. simpl. now destruct (xor_fold step s src).
Qed.

End Bytewise.

Lemma xor_fold_inverse {SE SD : Type}
      (stepE : SE -> byte -> byte * SE) (stepD : SD -> byte -> byte * SD)
      (R : SE -> SD -> Prop) :
  inverse_steps stepE stepD R ->
  forall src se sd,
    R se sd ->
    fst (xor_fold stepD sd (fst (xor_fold stepE se src))) = src.
Proof.
  intros Hinv. induction src as [|b rest IH]; intros se sd HR; simpl; [reflexivity|].
  destruct (Hinv se sd b HR) as [HR' Hb].
  destruct (stepE se b) as [c se1]. simpl in *.
  specialize (IH se1).
  destruct (xor_fold stepE se1 rest) as [cs se2]. simpl in *.
  destruct (stepD sd c) as [p sd1]. simpl in *.
  specialize (IH sd1 HR').
  destruct (xor_fold stepD sd1 cs) as [ps sd2]. simpl in *.
  now subst.
Qed.

(** The three modes. *)
Lemma ctr_inverse : inverse_steps ctr_step ctr_step eq.
Proof.
  intros se sd b <-. unfold ctr_step.
  destruct (ctr_out se); simpl; split; trivial; apply xor_byte_cancel.
Qed.

Lemma ofb_inverse : inverse_steps ofb_step ofb_step eq.
Proof.
  intros se sd b <-. unfold ofb_step.
  destruct (ofb_out se); simpl; split; trivial; apply xor_byte_cancel.
Qed.

Lemma cfb_inverse : inverse_steps cfb_step cfb_step cfb_related.
Proof.
  intros se sd b (Hb & Hn & Ho & Hu & He & Hd). unfold cfb_step.
  rewrite <- Hb, <- Hn, <- Ho, <- Hu, He, Hd.
  destruct (cfb_outUsed se =? length (cfb_out se)); simpl;
    rewrite xor_byte_cancel; repeat split; trivial.
Qed.

End StreamFacts.

Module Roundtrip.

Import IO Runtime Cipher Crypto Props RunFacts StreamFacts.

Lemma wire_read_chunk cap chunks snk off cl :
  0 < cap -> chunks <> [] ->
  exists x rest,
    wire_read cap (mkWire chunks snk off cl)
    = Done (mkRes x (length x) None, mkWire rest snk off cl) /\
    x ++ concat rest = concat chunks /\
    weight rest < weight chunks.
Proof.
  intros Hcap Hne. destruct chunks as [|d rest]; [congruence|].
  unfold wire_read. simpl feed.
  destruct (Nat.eqb_spec cap 0) as [->|_]; [lia|].
  destruct (Nat.leb_spec (length d) cap) as [Hle|Hgt].
  - exists d, rest. repeat split. unfold weight. simpl. rewrite length_app. lia.
  - exists (firstn cap d), (skipn cap d :: rest).
    assert (Hl : length (firstn cap d) = cap) by (rewrite length_firstn; lia).
    rewrite Hl. repeat split.
    + simpl. now rewrite app_assoc, firstn_skipn.
    + unfold weight. simpl. rewrite !length_app, length_skipn. lia.
Qed.

Lemma copy_buf_size_pos : 0 < copy_buf_size.
Proof. unfold copy_buf_size. lia. Qed.

Local Opaque copy_buf_size.

(** The loop of [io.Copy] on the wire, for a source and a destination
    that depend on the state [st] of a byte-wise stream: if one turn of
    the loop takes a chunk from the feed and adds its transform to the
    sink, the loop takes all the chunks, in order, and returns at the
    end of the feed. *)
Section Loop.

Context {W R St : Type} {WW : Writer W} {RR : Reader R}.
Variables (dstOf : St -> W) (srcOf : St -> R).
Variable step : St -> byte -> byte * St.

Hypothesis turn :
  forall st written w x rest,
    wire_read copy_buf_size w
    = Done (mkRes x (length x) None, mkWire rest (sink w) (offered w) (closes w)) ->
    exists off',
      returns wire (copy_body (dstOf st, srcOf st, written)) w
              (inl (dstOf (snd (xor_fold step st x)), srcOf (snd (xor_fold step st x)),
                    written + length x))
              (mkWire rest (sink w ++ fst (xor_fold step st x)) off' (closes w)).

Hypothesis eof :
  forall st written snk off cl,
    returns wire (copy_body (dstOf st, srcOf st, written))
            (mkWire [] snk off cl) (inr (written, None)) (mkWire [] snk off cl).

Lemma copy_on_wire :
  forall n chunks, weight chunks <= n ->
  forall st written snk off cl,
  exists written' off',
    returns wire
            (Iter copy_body (dstOf st, srcOf st, written) (fun r => Ret r))
            (mkWire chunks snk off cl)
            (written', None)
            (mkWire [] (snk ++ fst (xor_fold step st (concat chunks))) off' cl).
Proof.
  induction n as [|n IH]; intros chunks Hw st written snk off cl.
  - destruct chunks; [|unfold weight in Hw; simpl in Hw; lia].
    exists written, off. simpl. rewrite app_nil_r.
    eapply returns_Iter_exit; [apply eof | apply returns_Ret].
  - destruct chunks as [|d chunks'].
    + exists written, off. simpl. rewrite app_nil_r.
      eapply returns_Iter_exit; [apply eof | apply returns_Ret].
    + destruct (@wire_read_chunk copy_buf_size (d :: chunks') snk off cl
                                 copy_buf_size_pos ltac:(discriminate))
        as (x & rest & Hread & Hcat & Hlt).
      destruct (@turn st written (mkWire (d :: chunks') snk off cl) x rest Hread)
        as (off1 & Hbody).
      destruct (IH rest ltac:(lia) (snd (xor_fold step st x)) (written + length x)
                   (snk ++ fst (xor_fold step st x)) off1 cl)
        as (written' & off' & Hloop).
      exists written', off'.
      rewrite <- Hcat, xor_fold_app. simpl fst. rewrite app_assoc.
      eapply returns_Iter_again; [exact Hbody | exact Hloop].
Qed.

End Loop.

Lemma wire_read_eof snk off cl :
  wire_read copy_buf_size (mkWire [] snk off cl)
  = Done (mkRes [] 0 (Some EOF), mkWire [] snk off cl).
Proof.
  unfold wire_read.
  destruct (Nat.eqb_spec copy_buf_size 0) as [E|_];
    [pose proof copy_buf_size_pos; lia | reflexivity].
Qed.

Lemma ltb_self_unfolded (n : nat) :
  match n with 0 => false | S m' => n <=? m' end = false.
Proof. destruct n; [reflexivity | apply Nat.leb_gt; lia]. Qed.

(** The four copying goroutines, one turn each. *)
Section Turns.

Context {St : Type} (step : St -> byte -> byte * St).

(** After a non-empty chunk has been read and transformed into [c]. *)
Ltac written_all Hc :=
  cbn; rewrite ?Hc; cbn; rewrite ?ltb_self_unfolded, ?Nat.eqb_refl; cbn;
  unfold wire_write; cbn; rewrite ?Hc; apply returns_Ret.

(** [Ciphertext], encrypt: from the real connection into a pipe. *)
Lemma turn_encrypt_conn_pipe (pw : PipeWriter) st written w x rest :
  wire_read copy_buf_size w
  = Done (mkRes x (length x) None, mkWire rest (sink w) (offered w) (closes w)) ->
  exists off',
    returns wire
            (copy_body (W := StreamWriter PipeWriter) (R := NetConn)
                       ({| SW_S := Some (bytewise step st); SW_W := pw |}, RealConn, written))
            w
            (inl ({| SW_S := Some (bytewise step (snd (xor_fold step st x))); SW_W := pw |},
                  RealConn, written + length x))
            (mkWire rest (sink w ++ fst (xor_fold step st x)) off' (closes w)).
Proof.
  intros Hread. unfold copy_body. cbn.
  destruct x as [|b x].
  - exists (offered w).
    eapply returns_Do; [exact Hread|]. cbn.
    rewrite app_nil_r, Nat.add_0_r. apply returns_Ret.
  - exists (length (b :: x)).
    eapply returns_Do; [exact Hread|].
    cbn [res_data res_err length].
    rewrite XORKeyStream_bytewise.
    set (c := fst (xor_fold step st (b :: x))).
    set (st' := snd (xor_fold step st (b :: x))).
    assert (Hc : length c = Datatypes.S (length x))
      by (unfold c; now rewrite xor_fold_length).
    cbn.
    eapply returns_Do; [reflexivity|]. cbn.
    eapply returns_Do; [reflexivity|].
    written_all Hc.
Qed.

Lemma eof_encrypt_conn_pipe (pw : PipeWriter) st written snk off cl :
  returns wire
          (copy_body (W := StreamWriter PipeWriter) (R := NetConn)
                     ({| SW_S := Some (bytewise step st); SW_W := pw |}, RealConn, written))
          (mkWire [] snk off cl) (inr (written, None)) (mkWire [] snk off cl).
Proof.
  unfold copy_body. cbn.
  eapply returns_Do; [apply wire_read_eof|]. cbn. apply returns_Ret.
Qed.

(** [Plaintext], decrypt: from the real connection into a pipe. *)
Lemma turn_decrypt_conn_pipe (pw : PipeWriter) st written w x rest :
  wire_read copy_buf_size w
  = Done (mkRes x (length x) None, mkWire rest (sink w) (offered w) (closes w)) ->
  exists off',
    returns wire
            (copy_body (W := PipeWriter) (R := StreamReader NetConn)
                       (pw, {| SR_S := Some (bytewise step st); SR_R := RealConn |}, written))
            w
            (inl (pw, {| SR_S := Some (bytewise step (snd (xor_fold step st x)));
                         SR_R := RealConn |},
                  written + length x))
            (mkWire rest (sink w ++ fst (xor_fold step st x)) off' (closes w)).
Proof.
  intros Hread. unfold copy_body. cbn.
  destruct x as [|b x].
  - exists (offered w).
    eapply returns_Do; [exact Hread|]. cbn.
    rewrite app_nil_r, Nat.add_0_r. apply returns_Ret.
  - exists (length (b :: x)).
    eapply returns_Do; [exact Hread|].
    cbn [res_data res_err length bind].
    rewrite XORKeyStream_bytewise.
    set (c := fst (xor_fold step st (b :: x))).
    set (st' := snd (xor_fold step st (b :: x))).
    assert (Hc : length c = Datatypes.S (length x))
      by (unfold c; now rewrite xor_fold_length).
    cbn. rewrite Hc. cbn.
    eapply returns_Do; [reflexivity|]. cbn.
    eapply returns_Do; [reflexivity|].
    written_all Hc.
Qed.

Lemma eof_decrypt_conn_pipe (pw : PipeWriter) st written snk off cl :
  returns wire
          (copy_body (W := PipeWriter) (R := StreamReader NetConn)
                     (pw, {| SR_S := Some (bytewise step st); SR_R := RealConn |}, written))
          (mkWire [] snk off cl) (inr (written, None)) (mkWire [] snk off cl).
Proof.
  unfold copy_body. cbn.
  eapply returns_Do; [apply wire_read_eof|]. cbn. apply returns_Ret.
Qed.

(** [Plaintext], encrypt: from a pipe onto the real connection. *)
Lemma turn_encrypt_pipe_conn (pr : PipeReader) st written w x rest :
  wire_read copy_buf_size w
  = Done (mkRes x (length x) None, mkWire rest (sink w) (offered w) (closes w)) ->
  exists off',
    returns wire
            (copy_body (W := StreamWriter NetConn) (R := PipeReader)
                       ({| SW_S := Some (bytewise step st); SW_W := RealConn |}, pr, written))
            w
            (inl ({| SW_S := Some (bytewise step (snd (xor_fold step st x)));
                     SW_W := RealConn |},
                  pr, written + length x))
            (mkWire rest (sink w ++ fst (xor_fold step st x)) off' (closes w)).
Proof.
  intros Hread. unfold copy_body. cbn.
  destruct x as [|b x].
  - exists (offered w).
    eapply returns_Do; [exact Hread|]. cbn.
    rewrite app_nil_r, Nat.add_0_r. apply returns_Ret.
  - exists (length (b :: x)).
    eapply returns_Do; [exact Hread|].
    cbn [res_data res_err length].
    rewrite XORKeyStream_bytewise.
    set (c := fst (xor_fold step st (b :: x))).
    set (st' := snd (xor_fold step st (b :: x))).
    assert (Hc : length c = Datatypes.S (length x))
      by (unfold c; now rewrite xor_fold_length).
    cbn.
    eapply returns_Do; [reflexivity|].
    written_all Hc.
Qed.

Lemma eof_encrypt_pipe_conn (pr : PipeReader) st written snk off cl :
  returns wire
          (copy_body (W := StreamWriter NetConn) (R := PipeReader)
                     ({| SW_S := Some (bytewise step st); SW_W := RealConn |}, pr, written))
          (mkWire [] snk off cl) (inr (written, None)) (mkWire [] snk off cl).
Proof.
  unfold copy_body. cbn.
  eapply returns_Do; [apply wire_read_eof|]. cbn. apply returns_Ret.
Qed.

(** [Ciphertext], decrypt: from a pipe onto the real connection. *)
Lemma turn_decrypt_pipe_conn (pr : PipeReader) st written w x rest :
  wire_read copy_buf_size w
  = Done (mkRes x (length x) None, mkWire rest (sink w) (offered w) (closes w)) ->
  exists off',
    returns wire
            (copy_body (W := NetConn) (R := StreamReader PipeReader)
                       (RealConn, {| SR_S := Some (bytewise step st); SR_R := pr |}, written))
            w
            (inl (RealConn, {| SR_S := Some (bytewise step (snd (xor_fold step st x)));
                               SR_R := pr |},
                  written + length x))
            (mkWire rest (sink w ++ fst (xor_fold step st x)) off' (closes w)).
Proof.
  intros Hread. unfold copy_body. cbn.
  destruct x as [|b x].
  - exists (offered w).
    eapply returns_Do; [exact Hread|]. cbn.
    rewrite app_nil_r, Nat.add_0_r. apply returns_Ret.
  - exists (length (b :: x)).
    eapply returns_Do; [exact Hread|].
    cbn [res_data res_err length bind].
    rewrite XORKeyStream_bytewise.
    set (c := fst (xor_fold step st (b :: x))).
    set (st' := snd (xor_fold step st (b :: x))).
    assert (Hc : length c = Datatypes.S (length x))
      by (unfold c; now rewrite xor_fold_length).
    cbn. rewrite Hc. cbn.
    eapply returns_Do; [reflexivity|].
    written_all Hc.
Qed.

Lemma eof_decrypt_pipe_conn (pr : PipeReader) st written snk off cl :
  returns wire
          (copy_body (W := NetConn) (R := StreamReader PipeReader)
                     (RealConn, {| SR_S := Some (bytewise step st); SR_R := pr |}, written))
          (mkWire [] snk off cl) (inr (written, None)) (mkWire [] snk off cl).
Proof.
  unfold copy_body. cbn.
  eapply returns_Do; [apply wire_read_eof|]. cbn. apply returns_Ret.
Qed.

End Turns.

Lemma NewCipher_valid (key : bytes) :
  valid_key_length (length key) = true ->
  AES.NewCipher key = inl {| BlockSize := AES.BlockSize; Encrypt := AES.encrypt_block key |}.
Proof.
  intros Hk. unfold AES.NewCipher. unfold valid_key_length in Hk. now rewrite Hk.
Qed.

Lemma NewCTR_ok (block : Block) (iv : bytes) :
  length iv = BlockSize block ->
  NewCTR block iv
  = Returns (Some (bytewise ctr_step {| ctr_b := block; ctr_ctr := iv; ctr_out := [] |})).
Proof. intros H. unfold NewCTR. now rewrite H, Nat.eqb_refl. Qed.

Lemma NewOFB_ok (block : Block) (iv : bytes) :
  length iv = BlockSize block ->
  NewOFB block iv
  = Returns (Some (bytewise ofb_step {| ofb_b := block; ofb_cipher := iv; ofb_out := [] |})).
Proof. intros H. unfold NewOFB. now rewrite H, Nat.eqb_refl. Qed.

Lemma newCFB_ok (block : Block) (iv : bytes) (decrypt : bool) :
  length iv = BlockSize block ->
  newCFB block iv decrypt
  = Returns (Some (bytewise cfb_step
                     {| cfb_b := block; cfb_next := iv;
                        cfb_out := repeat 0%Z (BlockSize block);
                        cfb_outUsed := BlockSize block;
                        cfb_decrypt := decrypt |})).
Proof. intros H. unfold newCFB. now rewrite H, Nat.eqb_refl. Qed.

(** The builder on a complete configuration in mode [m]: both streams
    are byte-wise, and the decrypt one undoes the encrypt one. *)
Lemma initCipherStream_mode (m : mode) (key iv : bytes) :
  valid_key_length (length key) = true ->
  length iv = AES.BlockSize ->
  exists (SE SD : Type) (stepE : SE -> byte -> byte * SE) (stepD : SD -> byte -> byte * SD)
         (se : SE) (sd : SD) (R : SE -> SD -> Prop),
    inverse_steps stepE stepD R /\ R se sd /\
    initCipherStream (ed_mode m key iv)
    = Returns (None,
               set_DecryptStream (Some (bytewise stepD sd))
                 (set_EncryptStream (Some (bytewise stepE se)) (ed_mode m key iv))).
Proof.
  intros Hk Hiv.
  unfold initCipherStream, initEncrypt, initDecrypt. simpl.
  rewrite (NewCipher_valid _ Hk).
  destruct m; simpl; unfold NewCFBEncrypter, NewCFBDecrypter;
    rewrite ?NewCTR_ok, ?NewOFB_ok, ?newCFB_ok by exact Hiv; simpl;
    rewrite (NewCipher_valid _ Hk); unfold NewCFBEncrypter, NewCFBDecrypter;
    rewrite ?NewCTR_ok, ?NewOFB_ok, ?newCFB_ok by exact Hiv;
    do 7 eexists.
  - split; [exact ctr_inverse|]. split; reflexivity.
  - split; [exact ofb_inverse|]. split; reflexivity.
  - split; [exact cfb_inverse|]. split; [|reflexivity]. repeat split.
Qed.

(** A goroutine of a transform: the copy, then [Close]. *)
Lemma goroutine_on_wire {W R : Type} {WW : Writer W} {RR : Reader R}
      (st0 : W * R * nat) (chunks : list bytes) (out : bytes) :
  (exists written off,
      returns wire (Iter copy_body st0 (fun r => Ret r))
              (wire0 chunks) (written, None) (mkWire [] ([] ++ out) off 0)) ->
  exists off,
    returns wire
            (Iter copy_body st0 (fun _ => Do ConnClose (fun _ => Ret tt)))
            (wire0 chunks) tt (mkWire [] out off 1).
Proof.
  intros (written & off & Hcopy). exists off. rewrite app_nil_l in Hcopy.
  eapply returns_Iter_then; [exact Hcopy|].
  eapply returns_Do; [reflexivity|]. apply returns_Ret.
Qed.

(** C1: under one key and IV and a stream mode, what a decrypt
    goroutine makes of the output of an encrypt goroutine is the input
    itself.  The plaintext reaches the encrypt goroutine (of [Ciphertext]
    or of [Plaintext]) in any chunks; the goroutine returns, having
    written a ciphertext of the same length; that ciphertext reaches the
    decrypt goroutine (of [Plaintext] or of [Ciphertext]) in any other
    chunks; the goroutine returns, having written the plaintext, byte
    for byte. *)
Theorem round_trip :
  forall (m : mode) (key iv : bytes) (chunks : list bytes)
         (C : Type) (CM : ConnModel C) (c0 : C),
    valid_key_length (length key) = true ->
    length iv = AES.BlockSize ->
    exists connA edA wA decA encA connB edB wB encB decB ciphertext,
      Ciphertext (ed_mode m key iv) RealConn (world0 c0)
      = Returns ((Some connA, None), edA, wA) /\
      tasks wA = [decA; encA] /\
      Plaintext (ed_mode m key iv) RealConn (world0 c0)
      = Returns ((Some connB, None), edB, wB) /\
      tasks wB = [encB; decB] /\
      length ciphertext = length (concat chunks) /\
      (exists off, returns wire encA (wire0 chunks) tt (mkWire [] ciphertext off 1)) /\
      (exists off, returns wire encB (wire0 chunks) tt (mkWire [] ciphertext off 1)) /\
      forall chunks',
        concat chunks' = ciphertext ->
        (exists off, returns wire decB (wire0 chunks') tt (mkWire [] (concat chunks) off 1)) /\
        (exists off, returns wire decA (wire0 chunks') tt (mkWire [] (concat chunks) off 1)).
Proof.
  intros m key iv chunks C CM c0 Hk Hiv.
  destruct (initCipherStream_mode m key iv Hk Hiv)
    as (SE & SD & stepE & stepD & se & sd & R & Hinv & HR & Hinit).
  unfold Ciphertext, Plaintext. rewrite Hinit. cbn.
  do 10 eexists. exists (fst (xor_fold stepE se (concat chunks))).
  split; [reflexivity|]. split; [reflexivity|].
  split; [reflexivity|]. split; [reflexivity|].
  split; [apply xor_fold_length|]. split; [|split].
  - apply goroutine_on_wire.
    exact (@copy_on_wire _ _ _ _ _
             (fun st => {| SW_S := Some (bytewise stepE st); SW_W := mkPipeWriter 1 |})
             (fun _ => RealConn) stepE
             (turn_encrypt_conn_pipe stepE (mkPipeWriter 1))
             (eof_encrypt_conn_pipe stepE (mkPipeWriter 1))
             (weight chunks) chunks (le_n _) se 0 [] 0 0).
  - apply goroutine_on_wire.
    exact (@copy_on_wire _ _ _ _ _
             (fun st => {| SW_S := Some (bytewise stepE st); SW_W := RealConn |})
             (fun _ => mkPipeReader 0) stepE
             (turn_encrypt_pipe_conn stepE (mkPipeReader 0))
             (eof_encrypt_pipe_conn stepE (mkPipeReader 0))
             (weight chunks) chunks (le_n _) se 0 [] 0 0).
  - intros chunks' Hcat.
    rewrite <- (@xor_fold_inverse _ _ _ _ _ Hinv (concat chunks) _ _ HR), <- Hcat.
    split.
    + apply goroutine_on_wire.
      exact (@copy_on_wire _ _ _ _ _
               (fun _ => mkPipeWriter 1)
               (fun st => {| SR_S := Some (bytewise stepD st); SR_R := RealConn |}) stepD
               (turn_decrypt_conn_pipe stepD (mkPipeWriter 1))
               (eof_decrypt_conn_pipe stepD (mkPipeWriter 1))
               (weight chunks') chunks' (le_n _) sd 0 [] 0 0).
    + apply goroutine_on_wire.
      exact (@copy_on_wire _ _ _ _ _
               (fun _ => RealConn)
               (fun st => {| SR_S := Some (bytewise stepD st); SR_R := mkPipeReader 0 |}) stepD
               (turn_decrypt_pipe_conn stepD (mkPipeReader 0))
               (eof_decrypt_pipe_conn stepD (mkPipeReader 0))
               (weight chunks') chunks' (le_n _) sd 0 [] 0 0).
Qed.

Lemma round_trip_witness :
  valid_key_length (length key16) = true /\
  length iv0 = AES.BlockSize /\
  exists connB edB wB encB decB ciphertext,
    Plaintext (ed_mode CTR key16 iv0) RealConn (world0 tcp_open)
    = Returns ((Some connB, None), edB, wB) /\
    tasks wB = [encB; decB] /\
    length ciphertext = 3 /\
    forall chunks',
      concat chunks' = ciphertext ->
      exists off,
        returns wire decB (wire0 chunks') tt (mkWire [] [1; 2; 3]%Z off 1).
Proof.
  assert (Hk : valid_key_length (length key16) = true) by reflexivity.
  assert (Hiv : length iv0 = AES.BlockSize) by reflexivity.
  split; [exact Hk|]. split; [exact Hiv|].
  destruct (@round_trip CTR key16 iv0 [[1]; []; [2; 3]]%Z Tcp _ tcp_open Hk Hiv)
    as (connA & edA & wA & decA & encA & connB & edB & wB & encB & decB & ciphertext
        & _ & _ & HB & HtB & Hlen & _ & _ & Hback).
  exists connB, edB, wB, encB, decB, ciphertext.
  split; [exact HB|]. split; [exact HtB|]. split; [exact Hlen|].
  intros chunks' Hc. exact (proj1 (Hback chunks' Hc)).
Defined.

End Roundtrip.

(** ** The guarded connection *)

Module Guarded.

Import IO Runtime Cipher Crypto Props Scenes RunFacts.

Section Any.

Context {C : Type} {CM : ConnModel C}.

Lemma exec_conn (o : Op) (w : World C) (r : Res (OpRes * C)) x c' :
  r = Done (x, c') -> on_conn o w r = Done (x, after_conn o c' w).
Proof. now intros ->. Qed.

(** A program that mirrors another runs as it does, in every world
    and for every number of steps. *)
Lemma mirrors_run {A B H : Type} (hd : Handler H) (g : A -> B) (n : nat) :
  forall (p : Prog A) (q : Prog B) (h : H),
    mirrors g p q -> same_run g (run n hd p h) (run n hd q h).
Proof.
  induction n as [|n IH]; intros p q h Hm; [exact I|].
  destruct Hm as [a | o k k' Hk | m]; cbn [run step1].
  - now split.
  - destruct (hd o h) as [[r h']| |m].
    + apply IH, Hk.
    + split; [now constructor | reflexivity].
    + reflexivity.
  - reflexivity.
Qed.

(** C2: [Read] probes the real connection with a zero-length read.
    If the probe reports an error, [Read] returns 0 bytes and that error,
    and the probe is the only operation performed: the pipes are as
    they were.  If the probe succeeds, what is left of the call is the
    read of the pipe: it performs the operations of the pipe's read and
    no other, in every world and for every number of steps; it returns
    the data and the error that the pipe's read returns, waits where
    the pipe makes it wait and, when the wait ends, returns what the
    read of the pipe returns then.  [Write] does the same with a
    zero-length write and the write of the pipe: when the pipe refuses
    the data the call returns 0 and the pipe's error; when the pipe
    accepts them the call waits until they have been taken, and then
    returns the count and the error of that wait. *)
Theorem guarded_read_write :
  forall (w : World C) (rd wr : pipe_id) (cap : nat) (b : bytes),
    (forall x c',
        conn_Read (conn w) 0 = Done (x, c') ->
        let w1 := after_conn (ConnRead 0) c' w in
        match res_err x with
        | Some e => returns exec (Read (guarded rd wr) cap) w (guarded rd wr, [], Some e) w1
        | None =>
            exists q,
              step1 exec (Read (guarded rd wr) cap) w = Step q w1 /\
              mirrors (hand_back (guarded rd wr)) (Read (mkPipeReader rd) cap) q /\
              (forall h n,
                  same_run (hand_back (guarded rd wr))
                           (run n exec (Read (mkPipeReader rd) cap) h) (run n exec q h)) /\
              (forall y w2,
                  exec (PipeRead rd cap) w1 = Done (y, w2) ->
                  returns exec (Read (guarded rd wr) cap) w
                          (guarded rd wr, res_data y, res_err y) w2) /\
              (exec (PipeRead rd cap) w1 = Blocked ->
               forall n, 2 <= n ->
                         run n exec (Read (guarded rd wr) cap) w = Stuck q w1) /\
              (forall h y h',
                  exec (PipeRead rd cap) h = Done (y, h') ->
                  returns exec q h (guarded rd wr, res_data y, res_err y) h')
        end) /\
    (forall x c',
        conn_Write (conn w) [] = Done (x, c') ->
        let w1 := after_conn (ConnWrite []) c' w in
        match res_err x with
        | Some e => returns exec (Write (guarded rd wr) b) w (guarded rd wr, 0, Some e) w1
        | None =>
            exists q,
              step1 exec (Write (guarded rd wr) b) w = Step q w1 /\
              mirrors (hand_back (guarded rd wr)) (Write (mkPipeWriter wr) b) q /\
              (forall h n,
                  same_run (hand_back (guarded rd wr))
                           (run n exec (Write (mkPipeWriter wr) b) h) (run n exec q h)) /\
              (forall n err w2,
                  returns exec (Write (mkPipeWriter wr) b) w1 (mkPipeWriter wr, n, err) w2 ->
                  returns exec (Write (guarded rd wr) b) w (guarded rd wr, n, err) w2) /\
              (forall y w2 e,
                  exec (PipeOffer wr b) w1 = Done (y, w2) -> res_err y = Some e ->
                  returns exec (Write (guarded rd wr) b) w (guarded rd wr, 0, Some e) w2) /\
              (forall y w2,
                  exec (PipeOffer wr b) w1 = Done (y, w2) -> res_err y = None ->
                  exists q2,
                    step1 exec q w1 = Step q2 w2 /\
                    (exec (PipeAwait wr) w2 = Blocked ->
                     forall n, 3 <= n ->
                               run n exec (Write (guarded rd wr) b) w = Stuck q2 w2) /\
                    (forall h, exec (PipeAwait wr) h = Blocked -> step1 exec q2 h = Wait) /\
                    (forall h z h',
                        exec (PipeAwait wr) h = Done (z, h') ->
                        returns exec q2 h (guarded rd wr, res_n z, res_err z) h'))
        end).
Proof.
  intros w rd wr cap b. split.
  - intros x c' Hp w1.
    assert (Hx : exec (ConnRead 0) w = Done (x, w1)) by (simpl; now apply exec_conn).
    destruct (res_err x) as [e|] eqn:He.
    + eapply returns_Do; [exact Hx|]. cbn. rewrite He. apply returns_Ret.
    + eexists.
      split; [cbn -[exec]; rewrite Hx, He; cbn -[exec]; reflexivity|].
      assert (Hm : mirrors (hand_back (guarded rd wr)) (Read (mkPipeReader rd) cap)
                           (Do (PipeRead rd cap)
                               (fun r => Ret (guarded rd wr, res_data r, res_err r)))).
      { apply mirrors_Do. intros r.
        exact (mirrors_Ret (hand_back (guarded rd wr))
                           (mkPipeReader rd, res_data r, res_err r)). }
      split; [exact Hm|].
      split; [intros h n; apply mirrors_run, Hm|].
      split; [|split].
      * intros y w2 Hy.
        eapply returns_Do; [exact Hx|]. cbn -[exec]. rewrite He. cbn -[exec].
        eapply returns_Do; [exact Hy|]. apply returns_Ret.
      * intros Hy n Hn.
        destruct n as [|[|n]]; try lia.
        cbn -[exec]. rewrite Hx. cbn -[exec]. rewrite He. cbn -[exec].
        rewrite Hy. reflexivity.
      * intros h y h' Hy. eapply returns_Do; [exact Hy | apply returns_Ret].
  - intros x c' Hp w1.
    assert (Hx : exec (ConnWrite []) w = Done (x, w1)) by (simpl; now apply exec_conn).
    destruct (res_err x) as [e|] eqn:He.
    + eapply returns_Do; [exact Hx|]. cbn. rewrite He. apply returns_Ret.
    + eexists.
      split; [cbn -[exec]; rewrite Hx, He; cbn -[exec]; reflexivity|].
      match goal with
      | |- mirrors _ _ ?q /\ _ =>
          assert (Hm : mirrors (hand_back (guarded rd wr)) (Write (mkPipeWriter wr) b) q)
      end.
      { apply mirrors_Do. intros r. cbn. destruct (res_err r) as [e|].
        - exact (mirrors_Ret (hand_back (guarded rd wr)) (mkPipeWriter wr, 0, Some e)).
        - apply mirrors_Do. intros y.
          exact (mirrors_Ret (hand_back (guarded rd wr))
                             (mkPipeWriter wr, res_n y, res_err y)). }
      split; [exact Hm|].
      split; [intros h n; apply mirrors_run, Hm|].
      split; [|split].
      * intros n err w2 Hw.
        unfold Write at 1, CipherConn_Writer.
        eapply returns_bind.
        { eapply returns_Do; [exact Hx|]. apply returns_Ret. }
        cbv beta iota. rewrite He.
        eapply returns_bind.
        { unfold Write at 1, readWriter_Writer.
          eapply returns_bind; [exact Hw|]. apply returns_Ret. }
        apply returns_Ret.
      * intros y w2 e Hy Hye.
        eapply returns_Do; [exact Hx|]. cbn -[exec]. rewrite He. cbn -[exec].
        eapply returns_Do; [exact Hy|]. cbn -[exec]. rewrite Hye. apply returns_Ret.
      * intros y w2 Hy Hye.
        exists (Do (PipeAwait wr) (fun z => Ret (guarded rd wr, res_n z, res_err z))).
        split; [cbn -[exec]; rewrite Hy, Hye; reflexivity|].
        split; [|split].
        -- intros Ha n Hn.
           destruct n as [|[|[|n]]]; try lia.
           cbn -[exec]. rewrite Hx. cbn -[exec]. rewrite He. cbn -[exec].
           rewrite Hy. cbn -[exec]. rewrite Hye. cbn -[exec]. rewrite Ha. reflexivity.
        -- intros h Ha. cbn -[exec]. now rewrite Ha.
        -- intros h z h' Ha. eapply returns_Do; [exact Ha | apply returns_Ret].
Qed.

Lemma close_returns (w : World C) (rd wr : pipe_id) x c1 :
  conn_Close (conn w) = Done (x, c1) ->
  returns exec (Close (guarded rd wr)) w (res_err x) (after_conn ConnClose c1 w).
Proof.
  intros Hc.
  change (Close (guarded rd wr)) with (Do ConnClose (fun r => Ret (res_err r))).
  eapply returns_Do; [|apply returns_Ret].
  simpl. apply exec_conn. exact Hc.
Qed.

Lemma close_panics (w : World C) (rd wr : pipe_id) m :
  conn_Close (conn w) = Panicked m ->
  forall n, 0 < n -> run n exec (Close (guarded rd wr)) w = Crashed m.
Proof.
  intros Hc [|n] Hn; [lia|]. cbn. now rewrite Hc.
Qed.

Lemma Forall_upd {A : Type} (P : A -> Prop) (l : list A) :
  forall i x, Forall P l -> P x -> Forall P (upd i x l).
Proof.
  induction l as [|y l IH]; intros [|i] x Hl Hx; simpl; try constructor;
    inversion Hl; subst; auto.
Qed.

Lemma racing_closes (c : PipeConn NetConn) (e : error) (Inv : C -> Prop) :
  (forall c1, Inv c1 ->
              exists x c2, conn_Close c1 = Done (x, c2) /\
                           (res_err x = None \/ res_err x = Some e) /\ Inv c2) ->
  forall l w,
    Inv (conn w) -> closers c w ->
    exists w', schedule l w = Returns w' /\ Inv (conn w') /\ closers c w'.
Proof.
  intros Hinv. induction l as [|i l IH]; intros w Hw Hc; simpl.
  - now exists w.
  - unfold sched.
    destruct (nth_error (tasks w) i) as [p|] eqn:Hp; [|now apply IH].
    assert (Hpc : p = closing c \/ p = Ret tt).
    { unfold closers in Hc. rewrite Forall_forall in Hc.
      apply Hc. eapply nth_error_In; eauto. }
    destruct Hpc as [-> | ->]; [|now apply IH].
    destruct (Hinv _ Hw) as (x & c2 & Hx & _ & Hc2).
    cbn. rewrite Hx. cbn.
    apply IH; [exact Hc2|].
    unfold closers. cbn. apply Forall_upd; [exact Hc | now right].
Qed.

(** C8, amended: [Close] on the guarded connection is [Close] on the
    real connection: it performs that one operation and returns its
    result, and it panics where the real connection panics.  It has no
    guard of its own; a second call is as safe as a second [Close] of
    the real connection.  If that one closes stably (every [Close]
    returns, with [nil] or one fixed error), then a second call on the
    guarded connection returns [nil] or that error, and the two
    goroutines closing in any order never panic. *)
Theorem close_is_the_real_close :
  forall (w : World C) (rd wr : pipe_id),
    (forall x c1,
        conn_Close (conn w) = Done (x, c1) ->
        returns exec (Close (guarded rd wr)) w (res_err x) (after_conn ConnClose c1 w)) /\
    (forall m,
        conn_Close (conn w) = Panicked m ->
        forall n, 0 < n -> run n exec (Close (guarded rd wr)) w = Crashed m) /\
    (forall e,
        closes_stably (conn w) e ->
        (exists r1 w1 r2 w2,
            returns exec (Close (guarded rd wr)) w r1 w1 /\
            returns exec (Close (guarded rd wr)) w1 r2 w2 /\
            (r2 = None \/ r2 = Some e) /\
            log w2 = log w ++ [ConnClose; ConnClose] /\
            pipes w2 = pipes w) /\
        (forall l,
            tasks w = [closing (guarded rd wr); closing (guarded rd wr)] ->
            exists w', schedule l w = Returns w' /\ closes_stably (conn w') e)).
Proof.
  intros w rd wr. split; [|split].
  - intros x c1. apply close_returns.
  - intros m. apply close_panics.
  - intros e (Inv & H0 & Hinv). split.
    + destruct (Hinv _ H0) as (x1 & c1 & Hx1 & _ & H1).
      destruct (Hinv _ H1) as (x2 & c2 & Hx2 & He2 & H2).
      exists (res_err x1), (after_conn ConnClose c1 w),
             (res_err x2), (after_conn ConnClose c2 (after_conn ConnClose c1 w)).
      split; [now apply close_returns|].
      split; [now apply close_returns|].
      split; [exact He2|].
      split; [simpl; now rewrite <- app_assoc | reflexivity].
    + intros l Ht.
      destruct (@racing_closes (guarded rd wr) e Inv Hinv l w H0) as (w' & Hs & Hi & _).
      { unfold closers. rewrite Ht. repeat constructor. }
      exists w'. split; [exact Hs|]. exists Inv. split; [exact Hi | exact Hinv].
Qed.

End Any.

(** The TCP-like connection closes stably. *)
Lemma tcp_closes_stably (c : Tcp) : closes_stably c ErrNetClosing.
Proof.
  exists (fun _ => True). split; [exact I|].
  intros c1 _. unfold conn_Close; simpl. unfold tcp_Close.
  destruct (closed c1); eexists; eexists; (split; [reflexivity|]); simpl; auto.
Qed.

Lemma close_witness :
  closes_stably (conn (world0 tcp_open)) ErrNetClosing /\
  exists r1 w1 r2 w2,
    returns exec (Close (guarded 0 1)) (world0 tcp_open) r1 w1 /\
    returns exec (Close (guarded 0 1)) w1 r2 w2 /\
    (r2 = None \/ r2 = Some ErrNetClosing) /\
    log w2 = log (world0 tcp_open) ++ [ConnClose; ConnClose] /\
    pipes w2 = pipes (world0 tcp_open).
Proof.
  split; [exact (tcp_closes_stably tcp_open)|].
  destruct (@close_is_the_real_close Tcp _ (world0 tcp_open) 0 1) as (_ & _ & H).
  exact (proj1 (H ErrNetClosing (tcp_closes_stably tcp_open))).
Defined.

(** C8 fails as stated for a connection whose own [Close] is not safe
    to repeat: the second [Close] on the guarded connection panics, and so
    do the two goroutines when both reach their [Close]. *)
Lemma second_close_can_panic :
  exists w1,
    returns exec (Close (guarded 0 1)) (world0 (mkChanConn false)) None w1 /\
    run 1 exec (Close (guarded 0 1)) w1 = Crashed "close of closed channel" /\
    schedule [0; 1] (set_tasks [closing (guarded 0 1); closing (guarded 0 1)]
                               (world0 (mkChanConn false)))
    = Panics "close of closed channel".
Proof.
  eexists. split; [|split].
  - apply returns_intro with 2. reflexivity.
  - reflexivity.
  - reflexivity.
Qed.

Lemma guarded_read_write_witness :
  (returns exec (Read (guarded 1 0) 8) (world0 tcp_closed)
           (guarded 1 0, [], Some ErrNetClosing)
           (after_conn (ConnRead 0) tcp_closed (world0 tcp_closed)) /\
   pipes (after_conn (ConnRead 0) tcp_closed (world0 tcp_closed))
   = pipes (world0 tcp_closed)) /\
  (exists q2 w2 h',
      (forall n, 3 <= n ->
                 run n exec (Write (guarded 1 0) [1; 2; 3]%Z) idle_session = Stuck q2 w2) /\
      pipes w2 = [carrying [1; 2; 3]%Z true 0; new_pipe] /\
      log w2 = [ConnWrite []; PipeOffer 0 [1; 2; 3]%Z] /\
      returns exec q2 world_taken (guarded 1 0, 3, None) h' /\
      pipes h' = [new_pipe; new_pipe]).
Proof.
  split.
  - split; [|reflexivity].
    exact (proj1 (@guarded_read_write Tcp _ (world0 tcp_closed) 1 0 8 [])
                 (mkRes [] 0 (Some ErrNetClosing)) tcp_closed eq_refl).
  - assert (Hp : conn_Write (conn idle_session) [] = Done (mkRes [] 0 None, tcp_open))
      by reflexivity.
    destruct (proj2 (@guarded_read_write Tcp _ idle_session 1 0 8 [1; 2; 3]%Z)
                    (mkRes [] 0 None) tcp_open Hp)
      as (q & _ & _ & _ & _ & _ & Hopen).
    destruct (Hopen (mkRes [] 0 None)
                    {| conn := tcp_open; pipes := [carrying [1; 2; 3]%Z true 0; new_pipe];
                       tasks := []; log := [ConnWrite []; PipeOffer 0 [1; 2; 3]%Z] |}
                    eq_refl eq_refl)
      as (q2 & _ & Hstuck & _ & Hresume).
    exists q2. do 2 eexists.
    split; [exact (Hstuck eq_refl)|].
    split; [reflexivity|]. split; [reflexivity|].
    split; [exact (Hresume world_taken (mkRes [] 3 None) _ eq_refl) | reflexivity].
Defined.

End Guarded.

(** ** The pipe ends *)

Module PipeEnds.

Import IO Runtime Cipher Crypto Props RunFacts.

Lemma NoPipeClose_bind {A B : Type} (p : Prog A) (f : A -> Prog B) :
  NoPipeClose p -> (forall a, NoPipeClose (f a)) -> NoPipeClose (bind p f).
Proof.
  intros Hp Hf. induction p as [A a|A o k IH|I X A body IHb i k IHk|A msg]; simpl in *.
  - apply Hf.
  - destruct Hp as [Ho Hk]. split; [exact Ho|]. intros r. apply IH; auto.
  - destruct Hp as [Hb Hk]. split; [exact Hb|]. intros x. apply IHk; auto.
  - exact I.
Qed.

(** The objects of the program. *)
Lemma NetConn_keeps_pipes :
  reader_keeps_pipes NetConn /\ writer_keeps_pipes NetConn /\ closer_keeps_pipes NetConn.
Proof. repeat split. Qed.

Lemma PipeReader_keeps_pipes : reader_keeps_pipes PipeReader.
Proof. repeat split. Qed.

Lemma PipeWriter_keeps_pipes : writer_keeps_pipes PipeWriter.
Proof.
  intros w b. simpl. split; [reflexivity|]. intros r.
  destruct (res_err r); simpl; auto.
Qed.

Lemma StreamReader_keeps_pipes (R : Type) {RR : Reader R} :
  reader_keeps_pipes R -> reader_keeps_pipes (StreamReader R).
Proof.
  intros H r cap. unfold Read at 1, StreamReader_Reader.
  apply NoPipeClose_bind; [apply H|].
  intros [[src data] err]. destruct (SR_S r); simpl; [|exact I].
  now destruct (XORKeyStream s data).
Qed.

Lemma StreamWriter_keeps_pipes (W : Type) {WW : Writer W} :
  writer_keeps_pipes W -> writer_keeps_pipes (StreamWriter W).
Proof.
  intros H w src. unfold Write at 1, StreamWriter_Writer.
  destruct (SW_S w); simpl; [|exact I].
  destruct (XORKeyStream s src).
  apply NoPipeClose_bind; [apply H|].
  intros [[dst n] err]. exact I.
Qed.

Lemma readWriter_keeps_pipes (R W : Type) {RR : Reader R} {WW : Writer W} :
  reader_keeps_pipes R -> writer_keeps_pipes W ->
  reader_keeps_pipes (readWriter R W) /\ writer_keeps_pipes (readWriter R W).
Proof.
  intros HR HW. split.
  - intros rw cap. unfold Read at 1, readWriter_Reader.
    apply NoPipeClose_bind; [apply HR|]. now intros [[r d] e].
  - intros rw b. unfold Write at 1, readWriter_Writer.
    apply NoPipeClose_bind; [apply HW|]. now intros [[w n] e].
Qed.

Lemma CipherConn_keeps_pipes (RW NC : Type)
      {RR : Reader RW} {RW' : Writer RW}
      {NR : Reader NC} {NW : Writer NC} {NK : Closer NC} :
  reader_keeps_pipes RW -> writer_keeps_pipes RW ->
  reader_keeps_pipes NC -> writer_keeps_pipes NC -> closer_keeps_pipes NC ->
  reader_keeps_pipes (CipherConn RW NC) /\
  writer_keeps_pipes (CipherConn RW NC) /\
  closer_keeps_pipes (CipherConn RW NC).
Proof.
  intros H1 H2 H3 H4 H5. repeat split.
  - intros c cap. unfold Read at 1, CipherConn_Reader.
    apply NoPipeClose_bind; [apply H3|].
    intros [[nc d] [e|]]; [exact I|].
    apply NoPipeClose_bind; [apply H1|]. now intros [[rw d'] e'].
  - intros c b. unfold Write at 1, CipherConn_Writer.
    apply NoPipeClose_bind; [apply H4|].
    intros [[nc d] [e|]]; [exact I|].
    apply NoPipeClose_bind; [apply H2|]. now intros [[rw d'] e'].
  - intros c. apply H5.
Qed.

(** [io.Copy] closes neither its source nor its destination. *)
Lemma Copy_keeps_pipes (W R : Type) {WW : Writer W} {RR : Reader R} :
  writer_keeps_pipes W -> reader_keeps_pipes R ->
  forall (dst : W) (src : R), NoPipeClose (Copy dst src).
Proof.
  intros HW HR dst src. unfold Copy. simpl. split; [|intros x; exact I].
  intros [[d s] written]. unfold copy_body.
  apply NoPipeClose_bind; [apply HR|].
  intros [[src' data] er].
  destruct (0 <? length data).
  - apply NoPipeClose_bind; [apply HW|].
    intros [[dst' nw] ew].
    destruct (length data <? nw); destruct ew; simpl; auto;
      try (destruct (negb _); simpl; auto; destruct er; simpl; auto).
  - destruct er; simpl; auto.
Qed.


(** The operations on a pipe other than closing leave its ends alone. *)
Lemma pipe_read_ends pi cap x pi' :
  pipe_read pi cap = Done (x, pi') -> closed_ends pi' = closed_ends pi.
Proof.
  unfold pipe_read. destruct (pipe_done pi); [now intros [= _ <-]|].
  destruct (pending pi); [|discriminate].
  destruct (fresh pi || _); [|discriminate]. now intros [= _ <-].
Qed.

Lemma pipe_offer_ends pi b x pi' :
  pipe_offer pi b = Done (x, pi') -> closed_ends pi' = closed_ends pi.
Proof.
  unfold pipe_offer. destruct (pipe_done pi); [now intros [= _ <-]|].
  destruct (pending pi); [discriminate|]. now intros [= _ <-].
Qed.

Lemma pipe_await_ends pi x pi' :
  pipe_await pi = Done (x, pi') -> closed_ends pi' = closed_ends pi.
Proof.
  unfold pipe_await. destruct (pipe_done pi); [now intros [= _ <-]|].
  destruct (pending pi) as [[|? ?]|]; try discriminate.
  destruct (fresh pi); [discriminate|]. now intros [= _ <-].
Qed.

Lemma map_upd {A B : Type} (f : A -> B) (l : list A) :
  forall i x y, nth_error l i = Some x -> f y = f x -> map f (upd i y l) = map f l.
Proof.
  induction l as [|z l IH]; intros [|i] x y Hn Hf; simpl in *; try discriminate.
  - injection Hn as ->. now rewrite Hf.
  - f_equal. eapply IH; eauto.
Qed.

Section Any.

Context {C : Type} {CM : ConnModel C}.

Lemma on_conn_frame (o : Op) (w : World C) r x w' :
  on_conn o w r = Done (x, w') -> pipes w' = pipes w /\ tasks w' = tasks w.
Proof.
  unfold on_conn. destruct r as [[y c']| |m]; try discriminate.
  now intros [= _ <-].
Qed.

Lemma on_pipe_frame (o : Op) (w : World C) p f x w' :
  (forall pi y pi', f pi = Done (y, pi') -> closed_ends pi' = closed_ends pi) ->
  on_pipe o w p f = Done (x, w') ->
  map closed_ends (pipes w') = map closed_ends (pipes w) /\ tasks w' = tasks w.
Proof.
  intros Hf. unfold on_pipe.
  destruct (nth_error (pipes w) p) as [pi|] eqn:Hp; [|discriminate].
  destruct (f pi) as [[y pi']| |m] eqn:Hy; try discriminate.
  intros [= _ <-]. simpl. split; [|reflexivity].
  eapply map_upd; eauto.
Qed.

Lemma exec_keeps_ends (o : Op) (w : World C) x w' :
  is_pipe_close o = false ->
  exec o w = Done (x, w') ->
  map closed_ends (pipes w') = map closed_ends (pipes w) /\ tasks w' = tasks w.
Proof.
  intros Ho He. destruct o; simpl in Ho, He; try discriminate;
    try (apply on_conn_frame in He as [-> ->]; now split).
  - eapply on_pipe_frame; [|exact He]. intros pi y pi'. apply pipe_read_ends.
  - eapply on_pipe_frame; [|exact He]. intros pi y pi'. apply pipe_offer_ends.
  - eapply on_pipe_frame; [|exact He]. intros pi y pi'. apply pipe_await_ends.
Qed.

Lemma step_keeps_ends (p p' : Prog unit) (w w' : World C) :
  NoPipeClose p ->
  step1 exec p w = Step p' w' ->
  NoPipeClose p' /\
  map closed_ends (pipes w') = map closed_ends (pipes w) /\ tasks w' = tasks w.
Proof.
  intros Hp Hs. destruct p as [A a|A o k|I X A body i k|A msg]; simpl in *; try discriminate.
  - destruct Hp as [Ho Hk].
    destruct (exec o w) as [[r w1]| |m] eqn:He; try discriminate.
    injection Hs as <- <-. split; [apply Hk|]. eapply exec_keeps_ends; eauto.
  - destruct Hp as [Hb Hk]. injection Hs as <- <-. split; [|now split].
    apply NoPipeClose_bind; [apply Hb|].
    intros [j|x]; simpl; [now split | apply Hk].
Qed.

Lemma Forall_upd_tasks (P : Prog unit -> Prop) (l : list (Prog unit)) :
  forall i x, Forall P l -> P x -> Forall P (upd i x l).
Proof.
  induction l as [|y l IH]; intros [|i] x Hl Hx; simpl; try constructor;
    inversion Hl; subst; auto.
Qed.

(** Whatever the schedule, goroutines that never close a pipe end
    leave every pipe end as it is. *)
Lemma schedule_keeps_ends (l : list nat) :
  forall (w w' : World C),
    Forall (@NoPipeClose unit) (tasks w) ->
    schedule l w = Returns w' ->
    Forall (@NoPipeClose unit) (tasks w') /\
    map closed_ends (pipes w') = map closed_ends (pipes w).
Proof.
  induction l as [|i l IH]; intros w w' Ht Hs; simpl in Hs.
  - injection Hs as <-. now split.
  - unfold sched in Hs.
    destruct (nth_error (tasks w) i) as [p|] eqn:Hp; [|now apply IH].
    assert (Hnp : NoPipeClose p).
    { rewrite Forall_forall in Ht. apply Ht. eapply nth_error_In; eauto. }
    destruct (step1 exec p w) as [a|p1 w1| |m] eqn:H1; try discriminate;
      try now apply IH.
    destruct (step_keeps_ends _ _ Hnp H1) as (Hp1 & Hends & Htasks).
    destruct (IH (set_tasks (upd i p1 (tasks w1)) w1) w') as [Hf He]; trivial.
    + simpl. rewrite Htasks. now apply Forall_upd_tasks.
    + split; [exact Hf|]. simpl in He. congruence.
Qed.

(** [Close] leaves the pipes as they are, so an operation on a pipe
    that could not complete before still cannot. *)
Lemma close_keeps_blocked (w w' : World C) x :
  exec ConnClose w = Done (x, w') ->
  pipes w' = pipes w /\
  forall o, is_pipe_op o = true -> exec o w = Blocked -> exec o w' = Blocked.
Proof.
  intros Hc. simpl in Hc. apply on_conn_frame in Hc as [Hp _].
  split; [exact Hp|].
  intros o Ho Hb. destruct o; simpl in Ho; try discriminate;
    simpl in *; unfold on_pipe in *; rewrite Hp;
    (destruct (nth_error (pipes w) p) as [pi|]; [|discriminate]);
    match goal with
    | |- context [match ?f with _ => _ end] =>
        destruct f as [[y pi']| |m]; try discriminate; reflexivity
    end.
Qed.

(** What a transform adds to the world. *)
Lemma transform_tasks ed (w : World C) r ed' w' :
  Ciphertext ed RealConn w = Returns (r, ed', w') \/
  Plaintext ed RealConn w = Returns (r, ed', w') ->
  Forall (@NoPipeClose unit) (tasks w) ->
  Forall (@NoPipeClose unit) (tasks w') /\
  match fst r with
  | Some c =>
      pipes w' = pipes w ++ [new_pipe; new_pipe] /\
      c = guarded (S (length (pipes w))) (length (pipes w))
  | None => w' = w
  end.
Proof.
  intros H Ht. unfold Ciphertext, Plaintext in H.
  destruct (initCipherStream ed) as [[[e|] ed1]|m].
  - destruct H as [H|H]; injection H as <- <- <-; now split.
  - pose proof NetConn_keeps_pipes as (NR & NW & NK).
    pose proof PipeReader_keeps_pipes as PR.
    pose proof PipeWriter_keeps_pipes as PW.
    assert (HK : forall rd wr, NoPipeClose (Close (guarded rd wr))) by (intros; apply NK).
    assert (HT : forall (W R : Type) (WW : Writer W) (RR : Reader R)
                        (dst : W) (src : R) rd wr,
               writer_keeps_pipes W -> reader_keeps_pipes R ->
               NoPipeClose (_ <- Copy dst src ;; _ <- Close (guarded rd wr) ;; Ret tt)%prog).
    { intros W R WW RR dst src rd wr HW HR.
      apply NoPipeClose_bind; [now apply Copy_keeps_pipes|].
      intros _. apply NoPipeClose_bind; [apply HK | intros; exact I]. }
    unfold guarded in HT.
    destruct H as [H|H]; injection H as <- <- <-; simpl.
    + split; [|split; [now rewrite <- app_assoc | now rewrite length_app, Nat.add_comm]].
      rewrite <- app_assoc. apply Forall_app. split; [exact Ht|].
      constructor; [|constructor; [|constructor]].
      * refine (HT _ _ _ _ _ _ 0 0 _ _); [exact NW | now apply StreamReader_keeps_pipes].
      * refine (HT _ _ _ _ _ _ 0 0 _ _); [now apply StreamWriter_keeps_pipes | exact NR].
    + split; [|split; [now rewrite <- app_assoc | now rewrite length_app, Nat.add_comm]].
      rewrite <- app_assoc. apply Forall_app. split; [exact Ht|].
      constructor; [|constructor; [|constructor]].
      * refine (HT _ _ _ _ _ _ 0 0 _ _); [now apply StreamWriter_keeps_pipes | exact PR].
      * refine (HT _ _ _ _ _ _ 0 0 _ _); [exact PW | now apply StreamReader_keeps_pipes].
  - destruct H; discriminate.
Qed.

End Any.


(** C10: nothing in the program closes an end of the pipes that a
    transform makes.  The goroutines that a transform starts and the
    methods of the connection it returns never perform a closing
    operation on a pipe, whatever the world answers; [Close] on that
    connection is the single operation [Close] of the real connection.
    So, whatever the schedule and whatever callers use the connection
    alongside, every pipe end stays as it is; and a completed [Close]
    leaves the pipes untouched, so that whoever was blocked in a read or
    a write of a pipe is still blocked. *)
Theorem pipe_ends_are_never_closed :
  forall (C : Type) (CM : ConnModel C) ed (w : World C) r ed' w',
    Ciphertext ed RealConn w = Returns (r, ed', w') \/
    Plaintext ed RealConn w = Returns (r, ed', w') ->
    Forall (@NoPipeClose unit) (tasks w) ->
    Forall (@NoPipeClose unit) (tasks w') /\
    (forall c, fst r = Some c ->
               pipes w' = pipes w ++ [new_pipe; new_pipe] /\
               (forall cap, NoPipeClose (Read c cap)) /\
               (forall b, NoPipeClose (Write c b)) /\
               Close c = Do ConnClose (fun x => Ret (res_err x))) /\
    (forall callers l w'',
        Forall (@NoPipeClose unit) callers ->
        schedule l (set_tasks (tasks w' ++ callers) w') = Returns w'' ->
        map closed_ends (pipes w'') = map closed_ends (pipes w')) /\
    (forall (w1 : World C) x w2,
        exec ConnClose w1 = Done (x, w2) ->
        pipes w2 = pipes w1 /\
        forall o, is_pipe_op o = true -> exec o w1 = Blocked -> exec o w2 = Blocked).
Proof.
  intros C CM ed w r ed' w' H Ht.
  destruct (transform_tasks _ _ H Ht) as [Ht' Hr].
  split; [exact Ht'|]. split; [|split].
  - intros c Hc. rewrite Hc in Hr. destruct Hr as [Hp ->].
    split; [exact Hp|].
    pose proof NetConn_keeps_pipes as (NR & NW & NK).
    destruct (readWriter_keeps_pipes PipeReader_keeps_pipes PipeWriter_keeps_pipes)
      as [RWR RWW].
    destruct (CipherConn_keeps_pipes RWR RWW NR NW NK) as (GR & GW & _).
    split; [intros cap; apply GR|]. split; [intros b; apply GW | reflexivity].
  - intros callers l w'' Hcs Hs.
    apply schedule_keeps_ends in Hs as [_ He]; [exact He|].
    simpl. apply Forall_app. now split.
  - intros w1 x w2. apply close_keeps_blocked.
Qed.

Lemma pipe_ends_witness :
  exists r ed' w',
    Ciphertext ed_ctr RealConn (world0 tcp_open) = Returns (r, ed', w') /\
    Forall (@NoPipeClose unit) (tasks (world0 tcp_open)) /\
    Forall (@NoPipeClose unit) (tasks w') /\
    map closed_ends (pipes w') = [(None, None); (None, None)].
Proof.
  do 3 eexists.
  assert (Ht : Forall (@NoPipeClose unit) (tasks (world0 tcp_open))) by constructor.
  split; [reflexivity|]. split; [exact Ht|]. split; [|reflexivity].
  exact (proj1 (@pipe_ends_are_never_closed Tcp _ ed_ctr (world0 tcp_open) _ _ _
                                            (or_introl eq_refl) Ht)).
Defined.

End PipeEnds.

(** ** The concrete vector *)

Module VectorFacts.

Import IO Runtime Cipher Crypto Props Vector.

Lemma bytes_eqb_eq (a : bytes) : forall b, bytes_eqb a b = true -> a = b.
Proof.
  induction a as [|x a IH]; intros [|y b]; simpl; try discriminate; trivial.
  intros H. apply andb_prop in H as [Hx Hb].
  apply Z.eqb_eq in Hx. subst. f_equal. now apply IH.
Qed.

Lemma returned_halts {A H : Type} (hd : Handler H) (p : Prog A) (h : H) :
  match p with Ret _ => true | _ => false end = true ->
  exists a, step1 hd p h = Halt a.
Proof. destruct p; try discriminate. intros _. now eexists. Qed.

(** A goroutine that takes a step, or panics, is neither finished nor
    blocked. *)
Lemma moving_not_quiescent {C : Type} {CM : ConnModel C} (w : World C) i p :
  nth_error (tasks w) i = Some p ->
  (forall a, step1 exec p w <> Halt a) ->
  step1 exec p w <> Wait ->
  quiescent w = false.
Proof.
  intros Hp Hh Hw. apply not_true_is_false. intros Hq.
  unfold quiescent in Hq. rewrite forallb_forall in Hq.
  specialize (Hq p (nth_error_In _ _ Hp)).
  apply orb_prop in Hq as [Hf | Hb].
  - destruct (@returned_halts _ _ exec p w Hf) as [a Ha]. now apply (Hh a).
  - unfold blocked in Hb. destruct (step1 exec p w); try discriminate. now apply Hw.
Qed.

Section Explore.

Context {C : Type} {CM : ConnModel C} (P : World C -> bool).

Lemma explore_here n (w : World C) : explore P n w = true -> P w = true.
Proof. destruct n; simpl; intros H; now apply andb_prop in H. Qed.

(** A step of a goroutine from an explored world: the world is
    unchanged, or the new world is explored with one step less. *)
Lemma explore_sched n (w : World C) i :
  explore P n w = true ->
  exists w', sched i w = Returns w' /\
             (w' = w \/ exists n', n = S n' /\ explore P n' w' = true).
Proof.
  intros He. unfold sched.
  destruct (nth_error (tasks w) i) as [p|] eqn:Hp; [|exists w; auto].
  destruct (step1 exec p w) as [a|p' w'| |m] eqn:Hs;
    try (exists w; now auto).
  - (* a step *)
    destruct n as [|n']; simpl in He; apply andb_prop in He as [_ He].
    + exfalso.
      rewrite (@moving_not_quiescent _ _ w i p Hp) in He; [discriminate| |];
        rewrite Hs; intros; discriminate.
    + rewrite forallb_forall in He.
      assert (Hi : In i (seq 0 (length (tasks w)))).
      { apply in_seq. split; [lia|]. simpl. apply nth_error_Some. congruence. }
      specialize (He i Hi). rewrite Hp, Hs in He.
      eexists. split; [reflexivity|]. right. eauto.
  - (* a panic *)
    exfalso.
    destruct n as [|n']; simpl in He; apply andb_prop in He as [_ He].
    + rewrite (@moving_not_quiescent _ _ w i p Hp) in He; [discriminate| |];
        rewrite Hs; intros; discriminate.
    + rewrite forallb_forall in He.
      assert (Hi : In i (seq 0 (length (tasks w)))).
      { apply in_seq. split; [lia|]. simpl. apply nth_error_Some. congruence. }
      specialize (He i Hi). rewrite Hp, Hs in He. discriminate.
Qed.

(** Exploration covers every schedule. *)
Lemma explore_sound (l : list nat) :
  forall n (w : World C),
    explore P n w = true ->
    exists w', schedule l w = Returns w' /\ P w' = true.
Proof.
  induction l as [|i l IH]; intros n w He; simpl.
  - exists w. split; [reflexivity | now apply explore_here with n].
  - destruct (@explore_sched n w i He) as (w' & Hs & [-> | (n' & -> & He')]);
      rewrite Hs; eauto.
Qed.

(** Once nothing can move, nothing changes. *)
Lemma quiescent_stays (w : World C) :
  quiescent w = true -> forall l, schedule l w = Returns w.
Proof.
  intros Hq. induction l as [|i l IH]; simpl; [reflexivity|].
  unfold sched.
  destruct (nth_error (tasks w) i) as [p|] eqn:Hp; [|exact IH].
  destruct (step1 exec p w) eqn:Hs; try exact IH;
    rewrite (@moving_not_quiescent _ _ w i p Hp) in Hq; try discriminate;
    rewrite Hs; intros; discriminate.
Qed.

Lemma schedule_app (l1 l2 : list nat) :
  forall (w0 w1 : World C),
    schedule l1 w0 = Returns w1 -> schedule (l1 ++ l2) w0 = schedule l2 w1.
Proof.
  induction l1 as [|i l1 IH]; intros w0 w1 H; simpl in *.
  - now injection H as ->.
  - destruct (sched i w0); [|discriminate]. now apply IH.
Qed.

End Explore.

Lemma cv_explored : explore cv_check 8 cv_start = true.
Proof. vm_compute. reflexivity. Qed.

Lemma cv_expected_value : cv_expected = [199; 163; 56]%Z.
Proof. vm_compute. reflexivity. Qed.

Lemma cv_schedule_runs :
  match schedule cv_schedule cv_start with
  | Returns w => quiescent w
  | Panics _ => false
  end = true.
Proof. vm_compute. reflexivity. Qed.

(** C9: with the key [00..0F], a zero IV and CTR mode, the bytes
    [01 02 03] written on the connection that [Ciphertext] returns reach
    the real connection as their exclusive-or with the first three key
    stream bytes of AES-CTR, that is [C7 A3 38].  Under every schedule of
    the two goroutines and the caller nothing panics, the real connection
    stays open and has received either nothing yet or exactly these
    bytes; it has received them as soon as nothing can move any more; and
    the schedule [cv_schedule] gets there. *)
Theorem concrete_vector :
  (exists ed',
      Ciphertext ed_ctr RealConn (world0 tcp_open)
      = Returns ((Some cv_conn, None), ed', cv_world)) /\
  cv_expected = xor_with [1; 2; 3]%Z (ctr_keystream aes128 iv0 3) /\
  cv_expected = [199; 163; 56]%Z /\
  (forall l,
      exists w,
        schedule l cv_start = Returns w /\
        closed (conn w) = false /\
        (outbound (conn w) = [] \/ outbound (conn w) = cv_expected) /\
        (quiescent w = true -> outbound (conn w) = cv_expected)) /\
  (exists w,
      schedule cv_schedule cv_start = Returns w /\
      quiescent w = true /\
      outbound (conn w) = cv_expected /\
      forall l, schedule (cv_schedule ++ l) cv_start = Returns w).
Proof.
  assert (Hall : forall l,
             exists w,
               schedule l cv_start = Returns w /\
               closed (conn w) = false /\
               (outbound (conn w) = [] \/ outbound (conn w) = cv_expected) /\
               (quiescent w = true -> outbound (conn w) = cv_expected)).
  { intros l.
    destruct (@explore_sound Tcp _ cv_check l 8 cv_start cv_explored) as (w & Hs & Hc).
    exists w. split; [exact Hs|].
    unfold cv_check in Hc.
    apply andb_prop in Hc as [Hc Hopen]. apply andb_prop in Hc as [H1 H2].
    split; [now apply negb_true_iff in Hopen|]. split.
    - apply orb_prop in H1 as [H1 | H1]; apply bytes_eqb_eq in H1; auto.
    - intros Hq. apply orb_prop in H2 as [H2 | H2].
      + rewrite Hq in H2. discriminate H2.
      + now apply bytes_eqb_eq. }
  split; [eexists; reflexivity|]. split; [reflexivity|].
  split; [exact cv_expected_value|]. split; [exact Hall|].
  destruct (Hall cv_schedule) as (w & Hs & _ & _ & Hq).
  pose proof cv_schedule_runs as Hr. rewrite Hs in Hr.
  exists w. split; [exact Hs|]. split; [exact Hr|]. split; [exact (Hq Hr)|].
  intros l. rewrite (@schedule_app Tcp _ cv_schedule l cv_start w Hs).
  now apply quiescent_stays.
Qed.

End VectorFacts.

(** ** The cipher builder: what else it does *)

Module BuilderMore.

Import IO Runtime Cipher Crypto Props Scenes Builder.

Lemma initEncrypt_again ed e ed' :
  initEncrypt ed = Returns (e, ed') -> initEncrypt ed' = Returns (e, ed').
Proof.
  intros H.
  destruct (initEncrypt_inv _ H)
    as [-> | (-> & Hs & ctor & key & iv & block & Hc & Hk & Hi & Hb & s & Hr & ->)];
    [exact H|].
  unfold initEncrypt; simpl. destruct s; [reflexivity|].
  now rewrite Hc, Hk, Hi, Hb, Hr.
Qed.

Lemma initDecrypt_again ed e ed' :
  initDecrypt ed = Returns (e, ed') -> initDecrypt ed' = Returns (e, ed').
Proof.
  intros H.
  destruct (initDecrypt_inv _ H)
    as [-> | (-> & Hs & ctor & key & iv & block & Hc & Hk & Hi & Hb & s & Hr & ->)];
    [exact H|].
  unfold initDecrypt; simpl. destruct s; [reflexivity|].
  now rewrite Hc, Hk, Hi, Hb, Hr.
Qed.

(** The encrypt block does not look at the decrypt stream. *)
Lemma initEncrypt_set_DecryptStream s ed :
  initEncrypt (set_DecryptStream s ed)
  = map_config (set_DecryptStream s) (initEncrypt ed).
Proof.
  unfold initEncrypt; simpl.
  destruct (EncryptStream ed); [reflexivity|].
  destruct (StreamEncrypter ed) as [ctor|]; [|reflexivity].
  destruct (EncryptKey ed) as [key|]; [|reflexivity].
  destruct (EncryptIV ed) as [iv|]; [|reflexivity].
  destruct (AES.NewCipher key) as [block|]; [|reflexivity].
  destruct (ctor block iv); reflexivity.
Qed.

(** X1: the builder is idempotent.  Called again on the configuration
    that a first call has left, it returns the same error (or [nil]
    again) and leaves the configuration as it is: a failed call fails
    the same way when repeated, and a stream that is in place is never
    built a second time. *)
Theorem initCipherStream_is_idempotent :
  forall ed e ed',
    initCipherStream ed = Returns (e, ed') ->
    initCipherStream ed' = Returns (e, ed').
Proof.
  intros ed e ed' H.
  destruct (initCipherStream_inv _ H) as [(x & -> & He) | (ed1 & He & Hd)].
  - unfold initCipherStream. now rewrite (initEncrypt_again _ He).
  - pose proof (initEncrypt_again _ He) as He1.
    pose proof (initDecrypt_again _ Hd) as Hd1.
    assert (He' : initEncrypt ed' = Returns (None, ed')).
    { destruct (initDecrypt_inv _ Hd)
        as [-> | (_ & _ & _ & _ & _ & _ & _ & _ & _ & _ & s & _ & ->)]; [exact He1|].
      now rewrite initEncrypt_set_DecryptStream, He1. }
    unfold initCipherStream. now rewrite He'.
Qed.

Lemma initCipherStream_is_idempotent_witness :
  exists ed',
    initCipherStream ed_enc_only = Returns (Some ErrDecryptNotSet, ed') /\
    initCipherStream ed' = Returns (Some ErrDecryptNotSet, ed').
Proof.
  eexists. split; [reflexivity|].
  apply (@initCipherStream_is_idempotent ed_enc_only). reflexivity.
Defined.

(** X2: every error that the builder returns arises in one of two
    ways, in the direction that the builder had got to: part of the
    material of that direction is [nil] (and the error is the
    configuration error that names it), or the key of that direction has
    a length that [aes.NewCipher] rejects (and the error is the
    [KeySizeError] of that length).  The configuration returned with the
    error is the one with which that direction started. *)
Theorem builder_errors_are_of_two_kinds :
  forall ed e ed',
    initCipherStream ed = Returns (Some e, ed') ->
    exists d,
      reaches d ed ed' /\
      (Missing d ed' e /\ is_ConfigurationError e = true
       \/
       exists key,
         built_from d ed' key /\
         valid_key_length (length key) = false /\
         e = KeySizeError (length key) /\
         is_ConfigurationError e = false).
Proof.
  intros ed e ed' H.
  destruct (initCipherStream_inv _ H) as [(x & [= <-] & He) | (ed1 & He & Hd)].
  - exists Enc.
    pose proof (initEncrypt_error _ He) as [-> _].
    split; [reflexivity|].
    revert He. unfold initEncrypt.
    destruct (EncryptStream ed) eqn:Hs; [discriminate|].
    destruct (StreamEncrypter ed) as [ctor|] eqn:Hc.
    2:{ intros [= <-]. left. split; [|reflexivity].
        apply (missing_key_or_ctor Enc); [exact Hs | now left]. }
    destruct (EncryptKey ed) as [key|] eqn:Hk.
    2:{ intros [= <-]. left. split; [|reflexivity].
        apply (missing_key_or_ctor Enc); [exact Hs | now right]. }
    destruct (EncryptIV ed) as [iv|] eqn:Hi.
    2:{ intros [= <-]. left. split; [|reflexivity].
        apply (missing_iv Enc); simpl; congruence. }
    unfold AES.NewCipher.
    destruct (_ || _) eqn:Hl; [destruct (ctor _ iv); discriminate|].
    intros [= <-]. right. exists key.
    split; [repeat split; simpl; congruence|].
    split; [exact Hl|]. split; reflexivity.
  - exists Dec.
    pose proof (initDecrypt_error _ Hd) as [-> _].
    split; [exact He|].
    revert Hd. unfold initDecrypt.
    destruct (DecryptStream ed1) eqn:Hs; [discriminate|].
    destruct (StreamDecrypter ed1) as [ctor|] eqn:Hc.
    2:{ intros [= <-]. left. split; [|reflexivity].
        apply (missing_key_or_ctor Dec); [exact Hs | now left]. }
    destruct (DecryptKey ed1) as [key|] eqn:Hk.
    2:{ intros [= <-]. left. split; [|reflexivity].
        apply (missing_key_or_ctor Dec); [exact Hs | now right]. }
    destruct (DecryptIV ed1) as [iv|] eqn:Hi.
    2:{ intros [= <-]. left. split; [|reflexivity].
        apply (missing_iv Dec); simpl; congruence. }
    unfold AES.NewCipher.
    destruct (_ || _) eqn:Hl; [destruct (ctor _ iv); discriminate|].
    intros [= <-]. right. exists key.
    split; [repeat split; simpl; congruence|].
    split; [exact Hl|]. split; reflexivity.
Qed.

Lemma builder_errors_witness :
  exists d,
    reaches d ed_key5 ed_key5 /\
    (Missing d ed_key5 (KeySizeError 5) /\ is_ConfigurationError (KeySizeError 5) = true
     \/
     exists key,
       built_from d ed_key5 key /\
       valid_key_length (length key) = false /\
       KeySizeError 5 = KeySizeError (length key) /\
       is_ConfigurationError (KeySizeError 5) = false).
Proof.
  apply (@builder_errors_are_of_two_kinds ed_key5). reflexivity.
Defined.

(** The constructors of the standard modes panic on an IV whose length
    is not the block size. *)
Lemma mode_ctor_panics (d : direction) (m : mode) (block : Block) (iv : bytes) :
  length iv <> BlockSize block ->
  exists msg, mode_ctor d m block iv = Panics msg.
Proof.
  intros Hiv.
  assert (Hn : negb (length iv =? BlockSize block) = true)
    by (apply Bool.negb_true_iff; now apply Nat.eqb_neq).
  destruct d, m; simpl;
    unfold NewCTR, NewOFB, NewCFBEncrypter, NewCFBDecrypter, newCFB;
    rewrite Hn; eauto.
Qed.

(** X3: the builder checks an IV against [nil] only.  Where a
    direction is to be built with the constructor of a standard mode
    (CTR, OFB, CFB) from a key of a valid length and an IV whose length is
    not the block size of AES, the builder does not return an error: it
    panics, and so do both transforms, before any pipe or goroutine is
    made. *)
Theorem wrong_iv_length_panics :
  forall d m ed ed1 key iv,
    reaches d ed ed1 ->
    stream_of d ed1 = None ->
    ctor_of d ed1 = Some (mode_ctor d m) ->
    key_of d ed1 = Some key ->
    valid_key_length (length key) = true ->
    iv_of d ed1 = Some iv ->
    length iv <> AES.BlockSize ->
    exists msg,
      initCipherStream ed = Panics msg /\
      forall (NC : Type) (NR : Reader NC) (NW : Writer NC) (NCl : Closer NC)
             (C : Type) (CM : ConnModel C) (nc : NC) (w : World C),
        Ciphertext ed nc w = Panics msg /\ Plaintext ed nc w = Panics msg.
Proof.
  intros d m ed ed1 key iv Hr Hs Hc Hk Hv Hi Hl.
  unfold valid_key_length in Hv.
  destruct (@mode_ctor_panics d m
              {| BlockSize := AES.BlockSize; Encrypt := AES.encrypt_block key |} iv Hl)
    as (msg & Hp).
  exists msg.
  assert (H : initCipherStream ed = Panics msg).
  { destruct d; simpl in *.
    - subst ed1. unfold initCipherStream, initEncrypt.
      rewrite Hs, Hc, Hk, Hi. unfold AES.NewCipher. rewrite Hv.
      now rewrite Hp.
    - unfold initCipherStream. rewrite Hr. unfold initDecrypt.
      rewrite Hs, Hc, Hk, Hi. unfold AES.NewCipher. rewrite Hv.
      now rewrite Hp. }
  split; [exact H|].
  intros NC NR NW NCl C CM nc w. unfold Ciphertext, Plaintext. now rewrite H.
Qed.

Lemma wrong_iv_length_witness :
  exists msg,
    initCipherStream ed_short_iv = Panics msg /\
    Plaintext ed_short_iv RealConn (world0 tcp_open) = Panics msg.
Proof.
  destruct (@wrong_iv_length_panics Dec CTR ed_short_iv
              (set_EncryptStream (Some sample_stream) ed_short_iv) key16 [1; 2; 3]%Z)
    as (msg & H & HT); try reflexivity; try discriminate.
  exists msg. split; [exact H|].
  exact (proj2 (HT NetConn _ _ _ Tcp _ RealConn (world0 tcp_open))).
Defined.

End BuilderMore.

(** ** One turn of [io.Copy], for any reader, writer and world *)

Module CopyFacts.

Import IO Runtime Cipher Crypto Props Scenes RunFacts StreamFacts.

Lemma XORKeyStream_length (s : Stream) (src : bytes) :
  keeps_length s ->
  length (fst (XORKeyStream s src)) = length src /\
  keeps_length (snd (XORKeyStream s src)).
Proof.
  intros H. unfold XORKeyStream. specialize (H (stream_cur s) src) as H1.
  destruct (stream_xor s (stream_cur s) src) as [dst st]. simpl in *.
  split; [exact H1 | exact H].
Qed.

Lemma bytewise_keeps_length {S : Type} (step : S -> byte -> byte * S) (s : S) :
  keeps_length (bytewise step s).
Proof. intros st src. apply xor_fold_length. Qed.

Lemma fits_copy_buf (n : nat) : n <= 1024 -> n <= copy_buf_size.
Proof. unfold copy_buf_size. lia. Qed.

Section Handler.

Context {H : Type} (hd : Handler H).

Lemma returns_bind_ex {A B X : Type} (p : Prog A) (f : A -> Prog B) (g : X -> B)
      h a h1 h2 :
  returns hd p h a h1 ->
  (exists x, returns hd (f a) h1 (g x) h2) ->
  exists x, returns hd (bind p f) h (g x) h2.
Proof.
  intros Hp [x Hf]. exists x. eapply returns_bind; eauto.
Qed.

(** [cipher.StreamReader.Read] and [cipher.StreamWriter.Write] around
    the read and the write that they wrap. *)
Lemma StreamReader_Read_returns {R : Type} {RR : Reader R}
      (s : Stream) (r src : R) cap data err h h1 :
  returns hd (Read r cap) h (src, data, err) h1 ->
  returns hd (Read {| SR_S := Some s; SR_R := r |} cap) h
          ({| SR_S := Some (snd (XORKeyStream s data)); SR_R := src |},
           fst (XORKeyStream s data), err) h1.
Proof.
  intros Hr. unfold Read at 1, StreamReader_Reader. cbn [SR_S SR_R].
  eapply returns_bind; [exact Hr|]. cbv beta iota.
  destruct (XORKeyStream s data) as [dst s']. apply returns_Ret.
Qed.

Lemma StreamWriter_Write_returns {W : Type} {WW : Writer W}
      (s : Stream) (w dst : W) src n err h h1 :
  returns hd (Write w (fst (XORKeyStream s src))) h (dst, n, err) h1 ->
  returns hd (Write {| SW_S := Some s; SW_W := w |} src) h
          ({| SW_S := Some (snd (XORKeyStream s src)); SW_W := dst |}, n,
           match err with
           | None => if negb (n =? length src) then Some ErrShortWrite else None
           | Some e => Some e
           end) h1.
Proof.
  intros Hw. unfold Write at 1, StreamWriter_Writer. cbn [SW_S SW_W].
  destruct (XORKeyStream s src) as [c s']. cbn [fst snd] in *.
  eapply returns_bind; [exact Hw|]. cbv beta iota. apply returns_Ret.
Qed.

Section Body.

Context {W R : Type} {WW : Writer W} {RR : Reader R}.

(** The read brought data and the write took all of it: the loop
    goes round again. *)
Lemma copy_body_turn (dst dst' : W) (src src' : R) written data h h1 h2 :
  returns hd (Read src copy_buf_size) h (src', data, None) h1 ->
  data <> [] ->
  returns hd (Write dst data) h1 (dst', length data, None) h2 ->
  returns hd (copy_body (dst, src, written)) h
          (inl (dst', src', written + length data)) h2.
Proof.
  intros Hr Hd Hw. unfold copy_body.
  eapply returns_bind; [exact Hr|]. cbv beta iota.
  destruct data as [|b d]; [congruence|].
  change (0 <? length (b :: d)) with true. cbv iota.
  eapply returns_bind; [exact Hw|]. cbv beta iota.
  rewrite Nat.ltb_irrefl, Nat.eqb_refl. apply returns_Ret.
Qed.

(** The read brought nothing and no error: the loop goes round
    again. *)
Lemma copy_body_idle (dst : W) (src src' : R) written h h1 :
  returns hd (Read src copy_buf_size) h (src', [], None) h1 ->
  returns hd (copy_body (dst, src, written)) h (inl (dst, src', written)) h1.
Proof.
  intros Hr. unfold copy_body.
  eapply returns_bind; [exact Hr|]. apply returns_Ret.
Qed.

(** The read brought an error and no data: the loop ends. *)
Lemma copy_body_read_error (dst : W) (src src' : R) written e h h1 :
  returns hd (Read src copy_buf_size) h (src', [], Some e) h1 ->
  returns hd (copy_body (dst, src, written)) h
          (inr (written, if error_eqb e EOF then None else Some e)) h1.
Proof.
  intros Hr. unfold copy_body.
  eapply returns_bind; [exact Hr|]. apply returns_Ret.
Qed.

(** The write reported an error, or did not take all of the data:
    the loop ends, with an error. *)
Lemma copy_body_write_fails (dst dst' : W) (src src' : R) written data er nw ew
      h h1 h2 :
  returns hd (Read src copy_buf_size) h (src', data, er) h1 ->
  data <> [] ->
  returns hd (Write dst data) h1 (dst', nw, ew) h2 ->
  ew <> None \/ nw <> length data ->
  exists n e, returns hd (copy_body (dst, src, written)) h (inr (n, Some e)) h2.
Proof.
  intros Hr Hd Hw Hbad. unfold copy_body.
  cut (exists x, returns hd
             (bind (Read src copy_buf_size)
                (fun x =>
                   let '(src', data, er) := x in
                   let nr := length data in
                   if 0 <? nr then
                     bind (Write dst data)
                       (fun x =>
                          let '(dst', nw, ew) := x in
                          let '(nw, ew) :=
                            if nr <? nw
                            then (0, match ew with
                                     | None => Some errInvalidWrite
                                     | Some e => Some e
                                     end)
                            else (nw, ew) in
                          let written := written + nw in
                          match ew with
                          | Some e => Ret (inr (written, Some e))
                          | None =>
                              if negb (nr =? nw)
                              then Ret (inr (written, Some ErrShortWrite))
                              else
                                match er with
                                | Some e =>
                                    Ret (inr (written,
                                              if error_eqb e EOF then None else Some e))
                                | None => Ret (inl (dst', src', written))
                                end
                          end)
                   else
                     match er with
                     | Some e =>
                         Ret (inr (written, if error_eqb e EOF then None else Some e))
                     | None => Ret (inl (dst, src', written))
                     end))
             h ((fun p : nat * error => inr (fst p, Some (snd p))) x) h2).
  { intros [[n e] Hx]. exists n, e. exact Hx. }
  eapply returns_bind_ex; [exact Hr|]. cbv beta iota zeta.
  destruct data as [|b d]; [congruence|].
  change (0 <? length (b :: d)) with true. cbv iota.
  eapply returns_bind_ex; [exact Hw|]. cbv beta iota zeta.
  destruct (length (b :: d) <? nw) eqn:Hlt.
  - destruct ew as [e|];
      [exists (written + 0, e) | exists (written + 0, errInvalidWrite)];
      apply returns_Ret.
  - destruct ew as [e|]; [exists (written + nw, e); apply returns_Ret|].
    destruct Hbad as [Hb|Hb]; [congruence|].
    assert (Hne : (length (b :: d) =? nw) = false) by (apply Nat.eqb_neq; congruence).
    rewrite Hne. exists (written + nw, ErrShortWrite). apply returns_Ret.
Qed.

(** A goroutine whose loop ends in this turn closes the connection
    and returns. *)
Lemma goroutine_ends (dst : W) (src : R) (c : PipeConn NetConn) written
      h h1 h2 r e :
  returns hd (copy_body (dst, src, written)) h (inr r) h1 ->
  returns hd (Close c) h1 e h2 ->
  returns hd (goroutine_from dst src written c) h tt h2.
Proof.
  intros Hc Hk. unfold goroutine_from.
  eapply returns_bind.
  - eapply returns_Iter_exit; [exact Hc | apply returns_Ret].
  - cbv beta. eapply returns_bind; [exact Hk | apply returns_Ret].
Qed.

End Body.

End Handler.

(** The calls on the real connection and on a pipe reader, in a world. *)
Section World.

Context {C : Type} {CM : ConnModel C}.

Lemma NetConn_Read_returns (w : World C) cap x c' :
  conn_Read (conn w) cap = Done (x, c') ->
  returns exec (Read RealConn cap) w (RealConn, res_data x, res_err x)
          (after_conn (ConnRead cap) c' w).
Proof.
  intros H. eapply returns_Do; [|apply returns_Ret].
  simpl. now rewrite H.
Qed.

Lemma NetConn_Write_returns (w : World C) b x c' :
  conn_Write (conn w) b = Done (x, c') ->
  returns exec (Write RealConn b) w (RealConn, res_n x, res_err x)
          (after_conn (ConnWrite b) c' w).
Proof.
  intros H. eapply returns_Do; [|apply returns_Ret].
  simpl. now rewrite H.
Qed.

Lemma NetConn_Close_returns (c : PipeConn NetConn) (w : World C) x c' :
  conn_Close (conn w) = Done (x, c') ->
  returns exec (Close c) w (res_err x) (after_conn ConnClose c' w).
Proof.
  intros H. eapply returns_Do; [|apply returns_Ret].
  simpl. now rewrite H.
Qed.

Lemma PipeReader_Read_returns (w w' : World C) p cap x :
  exec (PipeRead p cap) w = Done (x, w') ->
  returns exec (Read (mkPipeReader p) cap) w (mkPipeReader p, res_data x, res_err x) w'.
Proof.
  intros H. eapply returns_Do; [exact H | apply returns_Ret].
Qed.

Lemma moved_twice (w : World C) (a b : Op) (c1 c2 : C) :
  after_conn b c2 (after_conn a c1 w) = moved [a; b] c2 w.
Proof. unfold after_conn, moved. simpl. now rewrite <- app_assoc. Qed.

End World.

End CopyFacts.

(** ** The goroutines of a transform *)

Module Goroutines.

Import IO Runtime Cipher Crypto Props Scenes RunFacts StreamFacts Roundtrip Guarded CopyFacts.

Local Opaque copy_buf_size.

(** What a transform makes after a successful builder: two pipes, the
    connection on them, and the two goroutines, the outgoing one
    first. *)
Lemma transform_worlds {C : Type} {CM : ConnModel C} (t : side) ed ed' (w : World C) :
  initCipherStream ed = Returns (None, ed') ->
  let n := length (pipes w) in
  let c := guarded (S n) n in
  transform t ed RealConn w
  = Returns ((Some c, None), ed',
             {| conn := conn w; pipes := pipes w ++ [new_pipe; new_pipe];
                tasks := tasks w ++
                  [outgoing_task t (outgoing t ed') n 0 c;
                   incoming_task t (incoming t ed') (S n) 0 c];
                log := log w |}).
Proof.
  intros H n c. destruct t; unfold transform, Ciphertext, Plaintext; rewrite H;
    unfold io_Pipe, go; cbn [conn pipes tasks log];
    rewrite length_app, <- !app_assoc; cbn [length app];
    rewrite Nat.add_1_r; reflexivity.
Qed.

(** A stream writer without a stream: the goroutine panics when the
    first data arrives. *)
Lemma no_stream_writer_panics {C : Type} {CM : ConnModel C}
      {W R : Type} {WW : Writer W} {RR : Reader R}
      (dst : W) (src : R) (c : PipeConn NetConn) (o : Op) (w1 w2 : World C)
      written x n :
  Read src copy_buf_size = Do o (fun x => Ret (src, res_data x, res_err x)) ->
  exec o w1 = Done (x, w2) ->
  res_data x <> [] -> 3 <= n ->
  run n exec (goroutine_from {| SW_S := None; SW_W := dst |} src written c) w1
  = Crashed nil_deref.
Proof.
  intros Hr Hx Hd Hn.
  destruct n as [|[|[|n]]]; try lia.
  unfold goroutine_from. cbn -[exec]. rewrite Hr.
  cbn -[exec]. rewrite Hx. cbn -[exec].
  destruct (res_data x); [congruence | reflexivity].
Qed.

(** A stream reader without a stream: the goroutine panics as soon as
    its first read comes back, whatever was read. *)
Lemma no_stream_reader_panics {C : Type} {CM : ConnModel C}
      {W R : Type} {WW : Writer W} {RR : Reader R}
      (dst : W) (src : R) (c : PipeConn NetConn) (o : Op) (w1 w2 : World C)
      written x n :
  Read src copy_buf_size = Do o (fun x => Ret (src, res_data x, res_err x)) ->
  exec o w1 = Done (x, w2) ->
  3 <= n ->
  run n exec (goroutine_from dst {| SR_S := None; SR_R := src |} written c) w1
  = Crashed nil_deref.
Proof.
  intros Hr Hx Hn.
  destruct n as [|[|[|n]]]; try lia.
  unfold goroutine_from, run. unfold step1 at 1. cbn [bind].
  unfold copy_body at 1. unfold Read at 1. unfold StreamReader_Reader.
  cbn [SR_R SR_S bind]. rewrite Hr.
  cbn -[exec]. rewrite Hx. reflexivity.
Qed.

(** X4: the builder does not check what a constructor hands back.  If
    [StreamEncrypter] returns the [nil] stream, the builder returns
    [nil], both transforms return a connection, and the encrypt
    goroutine of either transform panics (nil dereference) as soon as
    its source delivers the first data: three steps into its run, once
    the read of the real connection ([Ciphertext]) or of the pipe
    ([Plaintext]) has come back with at least one byte. *)
Theorem nil_encrypt_stream_panics_at_first_data :
  forall (C : Type) (CM : ConnModel C) ed ed' (w : World C),
    initCipherStream ed = Returns (None, ed') ->
    EncryptStream ed' = None ->
    exists cA wA decA encA cB wB encB decB,
      Ciphertext ed RealConn w = Returns ((Some cA, None), ed', wA) /\
      tasks wA = tasks w ++ [decA; encA] /\
      Plaintext ed RealConn w = Returns ((Some cB, None), ed', wB) /\
      tasks wB = tasks w ++ [encB; decB] /\
      (forall w1 x w2 n,
          exec (ConnRead copy_buf_size) w1 = Done (x, w2) ->
          res_data x <> [] -> 3 <= n ->
          run n exec encA w1 = Crashed nil_deref) /\
      (forall w1 x w2 n,
          exec (PipeRead (length (pipes w)) copy_buf_size) w1 = Done (x, w2) ->
          res_data x <> [] -> 3 <= n ->
          run n exec encB w1 = Crashed nil_deref).
Proof.
  intros C CM ed ed' w H Hs.
  pose proof (@transform_worlds _ _ ToCiphertext _ _ w H) as HA.
  pose proof (@transform_worlds _ _ ToPlaintext _ _ w H) as HB.
  cbn [transform outgoing incoming outgoing_task incoming_task] in HA, HB.
  rewrite Hs in HA, HB.
  do 8 eexists.
  split; [exact HA|]. split; [reflexivity|].
  split; [exact HB|]. split; [reflexivity|]. split.
  - intros w1 x w2 n Hx Hd Hn.
    eapply no_stream_writer_panics; eauto. reflexivity.
  - intros w1 x w2 n Hx Hd Hn.
    eapply no_stream_writer_panics; eauto. reflexivity.
Qed.

Lemma nil_encrypt_stream_witness :
  exists ed',
    initCipherStream ed_nil_encrypter = Returns (None, ed') /\
    EncryptStream ed' = None /\
    exists cA wA decA encA,
      Ciphertext ed_nil_encrypter RealConn (world0 tcp_open)
      = Returns ((Some cA, None), ed', wA) /\
      tasks wA = [decA; encA] /\
      forall (w1 : World Tcp) x w2 n,
        exec (ConnRead copy_buf_size) w1 = Done (x, w2) ->
        res_data x <> [] -> 3 <= n ->
        run n exec encA w1 = Crashed nil_deref.
Proof.
  eexists. split; [reflexivity|]. split; [reflexivity|].
  destruct (@nil_encrypt_stream_panics_at_first_data Tcp _ ed_nil_encrypter _
              (world0 tcp_open) eq_refl eq_refl)
    as (cA & wA & decA & encA & _ & _ & _ & _ & HA & HtA & _ & _ & Hrun & _).
  exists cA, wA, decA, encA. split; [exact HA|]. split; [exact HtA | exact Hrun].
Defined.

(** X5: likewise for [StreamDecrypter].  With a [nil] decrypt stream
    the decrypt goroutine of either transform panics as soon as its
    first read comes back, whatever it brings (data, nothing, or an
    error). *)
Theorem nil_decrypt_stream_panics_at_first_read :
  forall (C : Type) (CM : ConnModel C) ed ed' (w : World C),
    initCipherStream ed = Returns (None, ed') ->
    DecryptStream ed' = None ->
    exists cA wA decA encA cB wB encB decB,
      Ciphertext ed RealConn w = Returns ((Some cA, None), ed', wA) /\
      tasks wA = tasks w ++ [decA; encA] /\
      Plaintext ed RealConn w = Returns ((Some cB, None), ed', wB) /\
      tasks wB = tasks w ++ [encB; decB] /\
      (forall w1 x w2 n,
          exec (PipeRead (length (pipes w)) copy_buf_size) w1 = Done (x, w2) ->
          3 <= n ->
          run n exec decA w1 = Crashed nil_deref) /\
      (forall w1 x w2 n,
          exec (ConnRead copy_buf_size) w1 = Done (x, w2) ->
          3 <= n ->
          run n exec decB w1 = Crashed nil_deref).
Proof.
  intros C CM ed ed' w H Hs.
  pose proof (@transform_worlds _ _ ToCiphertext _ _ w H) as HA.
  pose proof (@transform_worlds _ _ ToPlaintext _ _ w H) as HB.
  cbn [transform outgoing incoming outgoing_task incoming_task] in HA, HB.
  rewrite Hs in HA, HB.
  do 8 eexists.
  split; [exact HA|]. split; [reflexivity|].
  split; [exact HB|]. split; [reflexivity|]. split.
  - intros w1 x w2 n Hx Hn.
    eapply no_stream_reader_panics; eauto. reflexivity.
  - intros w1 x w2 n Hx Hn.
    eapply no_stream_reader_panics; eauto. reflexivity.
Qed.

Lemma nil_decrypt_stream_witness :
  exists ed',
    initCipherStream ed_nil_decrypter = Returns (None, ed') /\
    DecryptStream ed' = None /\
    exists cB wB encB decB,
      Plaintext ed_nil_decrypter RealConn (world0 tcp_open)
      = Returns ((Some cB, None), ed', wB) /\
      tasks wB = [encB; decB] /\
      forall (w1 : World Tcp) x w2 n,
        exec (ConnRead copy_buf_size) w1 = Done (x, w2) ->
        3 <= n ->
        run n exec decB w1 = Crashed nil_deref.
Proof.
  eexists. split; [reflexivity|]. split; [reflexivity|].
  destruct (@nil_decrypt_stream_panics_at_first_read Tcp _ ed_nil_decrypter _
              (world0 tcp_open) eq_refl eq_refl)
    as (cA & wA & decA & encA & cB & wB & encB & decB & _ & _ & HB & HtB & _ & Hrun).
  exists cB, wB, encB, decB. split; [exact HB|]. split; [exact HtB | exact Hrun].
Defined.

Lemma nothing_through (s : Stream) : keeps_length s -> fst (XORKeyStream s []) = [].
Proof.
  intros H. destruct (XORKeyStream_length [] H) as [Hl _].
  now destruct (fst (XORKeyStream s [])).
Qed.

(** X6: a failed read of the real connection ends the goroutine that
    carries the incoming data.  At the head of any turn of its loop, if
    the read brings no data and an error (end-of-stream or any other),
    the goroutine performs that read and one [Close] of the real
    connection, and returns.  The error goes nowhere: nothing is
    written to the pipe and the pipes are as they were, so the reader of
    the returned connection is not told. *)
Theorem read_error_ends_the_goroutine :
  forall (C : Type) (CM : ConnModel C) (t : side) ed ed' (w : World C),
    initCipherStream ed = Returns (None, ed') ->
    exists c w' out inc,
      transform t ed RealConn w = Returns ((Some c, None), ed', w') /\
      tasks w' = tasks w ++ [out; inc] /\
      inc = incoming_task t (incoming t ed') (S (length (pipes w))) 0 c /\
      forall s written (w1 : World C) n e c1 xc c2,
        keeps_length s ->
        conn_Read (conn w1) copy_buf_size = Done (mkRes [] n (Some e), c1) ->
        conn_Close c1 = Done (xc, c2) ->
        returns exec (incoming_task t (Some s) (S (length (pipes w))) written c) w1 tt
                (moved [ConnRead copy_buf_size; ConnClose] c2 w1).
Proof.
  intros C CM t ed ed' w H.
  do 4 eexists. split; [exact (@transform_worlds _ _ t _ _ w H)|].
  split; [reflexivity|]. split; [reflexivity|].
  intros s written w1 n e c1 xc c2 Hs Hr Hc.
  rewrite <- (@moved_twice C w1 (ConnRead copy_buf_size) ConnClose c1 c2).
  pose proof (@NetConn_Read_returns _ _ w1 _ _ _ Hr) as HR. cbn [res_data res_err] in HR.
  destruct t; cbn [incoming_task].
  - eapply goroutine_ends.
    + eapply copy_body_read_error. exact HR.
    + apply NetConn_Close_returns. exact Hc.
  - eapply goroutine_ends.
    + eapply copy_body_read_error.
      pose proof (StreamReader_Read_returns s RealConn copy_buf_size HR) as HS.
      rewrite (nothing_through Hs) in HS. exact HS.
    + apply NetConn_Close_returns. exact Hc.
Qed.

Lemma read_error_witness :
  exists ed' c w' out inc,
    initCipherStream ed_ctr = Returns (None, ed') /\
    transform ToCiphertext ed_ctr RealConn (world0 tcp_closed)
    = Returns ((Some c, None), ed', w') /\
    tasks w' = [out; inc] /\
    returns exec (incoming_task ToCiphertext (Some sample_stream) 1 0 c)
            (world0 tcp_closed) tt
            (moved [ConnRead copy_buf_size; ConnClose] tcp_closed (world0 tcp_closed)).
Proof.
  eexists.
  destruct (@read_error_ends_the_goroutine Tcp _ ToCiphertext ed_ctr _
              (world0 tcp_closed) eq_refl)
    as (c & w' & out & inc & HT & Ht & _ & Hgo).
  exists c, w', out, inc. split; [reflexivity|].
  split; [exact HT|]. split; [exact Ht|].
  apply (Hgo sample_stream 0 (world0 tcp_closed) 0 ErrNetClosing tcp_closed
             (mkRes [] 0 (Some ErrNetClosing)) tcp_closed).
  - apply bytewise_keeps_length.
  - reflexivity.
  - reflexivity.
Defined.

(** X7: a failed write on the real connection ends the goroutine that
    carries the outgoing data.  At the head of any turn of its loop, if
    the pipe hands over data and the write of their transform on the
    real connection reports an error or takes fewer bytes than given,
    the goroutine performs that write and one [Close] of the real
    connection, and returns; it does not read the pipe again. *)
Theorem write_error_ends_the_goroutine :
  forall (C : Type) (CM : ConnModel C) (t : side) ed ed' (w : World C),
    initCipherStream ed = Returns (None, ed') ->
    exists c w' out inc,
      transform t ed RealConn w = Returns ((Some c, None), ed', w') /\
      tasks w' = tasks w ++ [out; inc] /\
      out = outgoing_task t (outgoing t ed') (length (pipes w)) 0 c /\
      forall s written (w1 w2 : World C) x xw c3 xc c4,
        keeps_length s ->
        exec (PipeRead (length (pipes w)) copy_buf_size) w1 = Done (x, w2) ->
        res_data x <> [] ->
        conn_Write (conn w2) (through s (res_data x)) = Done (xw, c3) ->
        res_err xw <> None \/ res_n xw <> length (res_data x) ->
        conn_Close c3 = Done (xc, c4) ->
        returns exec (outgoing_task t (Some s) (length (pipes w)) written c) w1 tt
                (moved [ConnWrite (through s (res_data x)); ConnClose] c4 w2).
Proof.
  intros C CM t ed ed' w H.
  do 4 eexists. split; [exact (@transform_worlds _ _ t _ _ w H)|].
  split; [reflexivity|]. split; [reflexivity|].
  intros s written w1 w2 x xw c3 xc c4 Hs Hx Hd Hw Hbad Hc.
  rewrite <- (@moved_twice C w2 (ConnWrite (through s (res_data x))) ConnClose c3 c4).
  pose proof (@PipeReader_Read_returns _ _ _ _ _ _ _ Hx) as HR.
  pose proof (@NetConn_Write_returns _ _ w2 _ _ _ Hw) as HW.
  destruct (XORKeyStream_length (res_data x) Hs) as [Hl _].
  assert (Hd' : through s (res_data x) <> []).
  { unfold through. intros E. rewrite E in Hl. destruct (res_data x); [congruence|discriminate]. }
  destruct t; cbn [outgoing_task].
  - destruct (copy_body_write_fails RealConn _ written
                (StreamReader_Read_returns s _ _ HR) Hd' HW) as (n & e & Hbody).
    { unfold through in *. rewrite Hl. exact Hbad. }
    eapply goroutine_ends; [exact Hbody|].
    apply NetConn_Close_returns. exact Hc.
  - destruct (copy_body_write_fails _ _ written HR Hd
                (StreamWriter_Write_returns s RealConn (res_data x) HW))
      as (n & e & Hbody).
    { destruct (res_err xw) as [e|]; [left; discriminate|].
      destruct Hbad as [Hb|Hb]; [congruence|]. left.
      apply Nat.eqb_neq in Hb. rewrite Hb. discriminate. }
    eapply goroutine_ends; [exact Hbody|].
    apply NetConn_Close_returns. exact Hc.
Qed.

Lemma write_error_witness :
  exists ed' c w' out inc,
    initCipherStream ed_ctr = Returns (None, ed') /\
    transform ToPlaintext ed_ctr RealConn (world0 tcp_closed)
    = Returns ((Some c, None), ed', w') /\
    tasks w' = [out; inc] /\
    returns exec (outgoing_task ToPlaintext (Some sample_stream) 0 0 c)
            world_offered tt
            (moved [ConnWrite (through sample_stream [1; 2; 3]%Z); ConnClose]
                   tcp_closed world_taken).
Proof.
  eexists.
  destruct (@write_error_ends_the_goroutine Tcp _ ToPlaintext ed_ctr _
              (world0 tcp_closed) eq_refl)
    as (c & w' & out & inc & HT & Ht & _ & Hgo).
  exists c, w', out, inc. split; [reflexivity|].
  split; [exact HT|]. split; [exact Ht|].
  apply (Hgo sample_stream 0 world_offered world_taken (mkRes [1; 2; 3]%Z 3 None)
             (mkRes [] 0 (Some ErrNetClosing)) tcp_closed
             (mkRes [] 0 (Some ErrNetClosing)) tcp_closed).
  - apply bytewise_keeps_length.
  - assert (Hm : Nat.min copy_buf_size 3 = 3)
      by (apply Nat.min_r, fits_copy_buf; lia).
    unfold world_offered, world_taken. cbn -[Nat.min]. rewrite Hm. reflexivity.
  - discriminate.
  - reflexivity.
  - left. discriminate.
  - reflexivity.
Defined.

End Goroutines.

(** ** Segmentation *)

Module Segments.

Import IO Runtime Cipher Crypto Props Scenes RunFacts StreamFacts Roundtrip CopyFacts Goroutines.

Local Opaque copy_buf_size.

Lemma through_app {S : Type} (step : S -> byte -> byte * S) (s : S) (p q : bytes) :
  through (bytewise step s) (p ++ q)
  = through (bytewise step s) p ++ through (advanced (bytewise step s) p) q.
Proof.
  unfold through, advanced. rewrite !XORKeyStream_bytewise. cbn [fst snd].
  rewrite XORKeyStream_bytewise, xor_fold_app. reflexivity.
Qed.

(** X8: what a goroutine of a transform writes depends on the bytes
    that its source delivers, not on how the source cuts them up.
    Under a key of a valid length and an IV of the block size, in CTR,
    OFB or CFB mode: fed the chunks [chunks], each goroutine returns
    having written what its stream makes of their concatenation in one
    call of [XORKeyStream]; and each stream works from left to right, so
    that the output for a prefix of the input is a prefix of the
    output. *)
Theorem output_ignores_segmentation :
  forall (m : mode) (key iv : bytes) (t : side) (C : Type) (CM : ConnModel C) (c0 : C),
    valid_key_length (length key) = true ->
    length iv = AES.BlockSize ->
    exists c ed' w' out inc sO sI,
      transform t (ed_mode m key iv) RealConn (world0 c0)
      = Returns ((Some c, None), ed', w') /\
      tasks w' = [out; inc] /\
      outgoing t ed' = Some sO /\ incoming t ed' = Some sI /\
      (forall chunks,
          exists off, returns wire out (wire0 chunks) tt
                              (mkWire [] (through sO (concat chunks)) off 1)) /\
      (forall chunks,
          exists off, returns wire inc (wire0 chunks) tt
                              (mkWire [] (through sI (concat chunks)) off 1)) /\
      (forall s, s = sO \/ s = sI ->
                 forall p q, through s (p ++ q) = through s p ++ through (advanced s p) q).
Proof.
  intros m key iv t C CM c0 Hk Hiv.
  destruct (initCipherStream_mode m key iv Hk Hiv)
    as (SE & SD & stepE & stepD & se & sd & R & Hinv & HR & Hinit).
  pose proof (@transform_worlds _ _ t _ _ (world0 c0) Hinit) as HT.
  destruct t; cbn in HT; do 7 eexists;
    (split; [exact HT|]); (split; [reflexivity|]);
    (split; [reflexivity|]); (split; [reflexivity|]);
    unfold through at 1 2.
  - split; [|split].
    + intros chunks. apply goroutine_on_wire. rewrite XORKeyStream_bytewise. cbn [fst].
      exact (@copy_on_wire _ _ _ _ _
               (fun _ => RealConn)
               (fun st => {| SR_S := Some (bytewise stepD st); SR_R := mkPipeReader 0 |}) stepD
               (turn_decrypt_pipe_conn stepD (mkPipeReader 0))
               (eof_decrypt_pipe_conn stepD (mkPipeReader 0))
               (weight chunks) chunks (le_n _) sd 0 [] 0 0).
    + intros chunks. apply goroutine_on_wire. rewrite XORKeyStream_bytewise. cbn [fst].
      exact (@copy_on_wire _ _ _ _ _
               (fun st => {| SW_S := Some (bytewise stepE st); SW_W := mkPipeWriter 1 |})
               (fun _ => RealConn) stepE
               (turn_encrypt_conn_pipe stepE (mkPipeWriter 1))
               (eof_encrypt_conn_pipe stepE (mkPipeWriter 1))
               (weight chunks) chunks (le_n _) se 0 [] 0 0).
    + intros s [-> | ->] p q; apply through_app.
  - split; [|split].
    + intros chunks. apply goroutine_on_wire. rewrite XORKeyStream_bytewise. cbn [fst].
      exact (@copy_on_wire _ _ _ _ _
               (fun st => {| SW_S := Some (bytewise stepE st); SW_W := RealConn |})
               (fun _ => mkPipeReader 0) stepE
               (turn_encrypt_pipe_conn stepE (mkPipeReader 0))
               (eof_encrypt_pipe_conn stepE (mkPipeReader 0))
               (weight chunks) chunks (le_n _) se 0 [] 0 0).
    + intros chunks. apply goroutine_on_wire. rewrite XORKeyStream_bytewise. cbn [fst].
      exact (@copy_on_wire _ _ _ _ _
               (fun _ => mkPipeWriter 1)
               (fun st => {| SR_S := Some (bytewise stepD st); SR_R := RealConn |}) stepD
               (turn_decrypt_conn_pipe stepD (mkPipeWriter 1))
               (eof_decrypt_conn_pipe stepD (mkPipeWriter 1))
               (weight chunks) chunks (le_n _) sd 0 [] 0 0).
    + intros s [-> | ->] p q; apply through_app.
Qed.

Lemma output_ignores_segmentation_witness :
  valid_key_length (length key16) = true /\
  length iv0 = AES.BlockSize /\
  exists c ed' w' out inc sO,
    transform ToPlaintext (ed_mode CTR key16 iv0) RealConn (world0 tcp_open)
    = Returns ((Some c, None), ed', w') /\
    tasks w' = [out; inc] /\
    outgoing ToPlaintext ed' = Some sO /\
    exists off, returns wire out (wire0 [[1]; []; [2; 3]]%Z) tt
                        (mkWire [] (through sO [1; 2; 3]%Z) off 1).
Proof.
  assert (Hk : valid_key_length (length key16) = true) by reflexivity.
  assert (Hiv : length iv0 = AES.BlockSize) by reflexivity.
  split; [exact Hk|]. split; [exact Hiv|].
  destruct (@output_ignores_segmentation CTR key16 iv0 ToPlaintext Tcp _ tcp_open Hk Hiv)
    as (c & ed' & w' & out & inc & sO & sI & HT & Ht & HO & _ & Hout & _).
  exists c, ed', w', out, inc, sO.
  split; [exact HT|]. split; [exact Ht|]. split; [exact HO|].
  exact (Hout [[1]; []; [2; 3]]%Z).
Defined.

End Segments.

(** ** From the caller to the real connection and back *)

Module Paths.

Import IO Runtime Cipher Crypto Props Scenes RunFacts StreamFacts Roundtrip CopyFacts
       Goroutines Segments.

Local Opaque copy_buf_size.

Ltac step_of i := unfold sched at 1; cbn [nth_error tasks]; cbn -[sched Nat.min firstn skipn].

Section Any.

Context {C : Type} {CM : ConnModel C}.

Lemma schedule_then (l1 l2 : list nat) (w w1 : World C) :
  schedule l1 w = Returns w1 ->
  schedule (l1 ++ l2) w = schedule l2 w1.
Proof.
  revert w. induction l1 as [|i l1 IH]; intros w H; simpl in *.
  - now injection H as ->.
  - destruct (sched i w) as [w'|m]; [now apply IH | discriminate].
Qed.

(** One [Write] of the caller, from the head of a turn of the outgoing
    goroutine. *)
Lemma write_round (t : side) (s : Stream) (written : nat) (t1 : Prog unit)
      (b : bytes) (k : nat * option error -> Prog unit)
      (c c1 c2 : C) (p1 : Pipe) (l : list Op) xp xw :
  keeps_length s ->
  one_buffer b ->
  conn_Write c [] = Done (xp, c1) -> res_err xp = None ->
  conn_Write c1 (through s b) = Done (xw, c2) ->
  exists t0',
    schedule write_turn
             {| conn := c; pipes := [new_pipe; p1];
                tasks := [outgoing_task t (Some s) 0 written (guarded 1 0); t1;
                          write_then (guarded 1 0) b k];
                log := l |}
    = Returns {| conn := c2; pipes := [new_pipe; p1];
                 tasks := [t0'; t1; k (length b, None)];
                 log := l ++ [ConnWrite []; PipeOffer 0 b; PipeRead 0 copy_buf_size;
                              ConnWrite (through s b); PipeAwait 0] |} /\
    (res_err xw = None -> res_n xw = length b ->
     t0' = outgoing_task t (Some (advanced s b)) 0 (written + length b) (guarded 1 0)).
Proof.
  intros Hs [Hb Hlen] Hp Hpe Hw.
  destruct (XORKeyStream_length b Hs) as [Hl _].
  unfold through, advanced in *.
  destruct (XORKeyStream s b) as [cb s'] eqn:EX. cbn [fst snd] in *.
  unfold write_then, guarded, write_turn.
  destruct t; unfold outgoing_task, goroutine_from.
  - unfold schedule. step_of 2. rewrite Hp. cbn -[sched]. rewrite Hpe.
    step_of 2. step_of 0. step_of 0.
    rewrite (Nat.min_r _ _ Hlen), firstn_all, skipn_all, EX.
    destruct cb as [|cb0 cb]; [destruct b; [congruence|discriminate]|].
    step_of 0. rewrite Hw. step_of 2.
    eexists. split.
    + rewrite <- app_assoc. cbn [app]. rewrite <- !app_assoc. cbn [app]. reflexivity.
    + intros He Hn. rewrite He, Hn, <- Hl. cbn.
      rewrite ltb_self_unfolded, Nat.eqb_refl. reflexivity.
  - unfold schedule. step_of 2. rewrite Hp. cbn -[sched]. rewrite Hpe.
    step_of 2. step_of 0. step_of 0.
    rewrite (Nat.min_r _ _ Hlen), firstn_all, skipn_all, EX.
    destruct b as [|b0 b]; [congruence|]. cbn -[sched].
    step_of 0. rewrite Hw. step_of 2.
    eexists. split.
    + rewrite <- app_assoc. cbn [app]. rewrite <- !app_assoc. cbn [app]. reflexivity.
    + intros He Hn. rewrite He, Hn. cbn.
      rewrite ltb_self_unfolded, Nat.eqb_refl. reflexivity.
Qed.

(** X9: a [Write] on the connection that a transform returns hands
    the data, through the pipe and the outgoing stream, to the real
    connection; and it reports success whatever becomes of them
    there.  For a message [b] of one buffer at most, on a connection
    whose zero-length write succeeds: in the run where the caller
    probes and offers, the outgoing goroutine takes and writes, and the
    caller returns, the real connection is asked to write exactly what
    the outgoing stream makes of [b], once; and the caller's [Write]
    returns [len(b)] and [nil], also when that write on the real
    connection fails. *)
Theorem write_reaches_the_connection :
  forall (t : side) ed ed' (c0 c1 c2 : C) s b k xp xw,
    initCipherStream ed = Returns (None, ed') ->
    outgoing t ed' = Some s ->
    keeps_length s ->
    one_buffer b ->
    conn_Write c0 [] = Done (xp, c1) -> res_err xp = None ->
    conn_Write c1 (through s b) = Done (xw, c2) ->
    exists c w' w'',
      transform t ed RealConn (world0 c0) = Returns ((Some c, None), ed', w') /\
      schedule write_turn (go (write_then c b k) w') = Returns w'' /\
      nth_error (tasks w'') 2 = Some (k (length b, None)) /\
      conn w'' = c2 /\
      log w'' = [ConnWrite []; PipeOffer 0 b; PipeRead 0 copy_buf_size;
                 ConnWrite (through s b); PipeAwait 0] /\
      pipes w'' = [new_pipe; new_pipe].
Proof.
  intros t ed ed' c0 c1 c2 s b k xp xw Hi Ho Hs Hb Hp Hpe Hw.
  pose proof (@transform_worlds _ _ t _ _ (world0 c0) Hi) as HT.
  rewrite Ho in HT. cbn [world0 conn pipes tasks log length app] in HT.
  destruct (@write_round t s 0 (incoming_task t (incoming t ed') 1 0 (guarded 1 0))
                         b k c0 c1 c2 new_pipe [] xp xw Hs Hb Hp Hpe Hw)
    as (t0' & Hsch & _).
  do 3 eexists. split; [exact HT|].
  unfold go. cbn [conn pipes tasks log app].
  split; [exact Hsch|]. repeat split.
Qed.

(** One [Read] of the caller, from the head of a turn of the incoming
    goroutine. *)
Lemma read_round (t : side) (s : Stream) (written : nat) (t0 : Prog unit)
      (cap : nat) (k : bytes * option error -> Prog unit)
      (c c1 c2 : C) (p0 : Pipe) (l : list Op) x xp :
  keeps_length s ->
  conn_Read c copy_buf_size = Done (x, c1) ->
  res_data x <> [] -> res_err x = None ->
  length (res_data x) <= cap ->
  conn_Read c1 0 = Done (xp, c2) -> res_err xp = None ->
  schedule read_turn
           {| conn := c; pipes := [p0; new_pipe];
              tasks := [t0; incoming_task t (Some s) 1 written (guarded 1 0);
                        read_then (guarded 1 0) cap k];
              log := l |}
  = Returns {| conn := c2; pipes := [p0; new_pipe];
               tasks := [t0;
                         incoming_task t (Some (advanced s (res_data x))) 1
                                       (written + length (res_data x)) (guarded 1 0);
                         k (through s (res_data x), None)];
               log := l ++ [ConnRead copy_buf_size; PipeOffer 1 (through s (res_data x));
                            ConnRead 0; PipeRead 1 cap; PipeAwait 1] |}.
Proof.
  intros Hs Hr Hd He Hcap Hp Hpe.
  destruct (XORKeyStream_length (res_data x) Hs) as [Hl _].
  unfold through, advanced in *.
  destruct (XORKeyStream s (res_data x)) as [cb s'] eqn:EX. cbn [fst snd] in *.
  assert (Hcap' : length cb <= cap) by lia.
  unfold read_then, guarded, read_turn.
  destruct t; unfold incoming_task, goroutine_from.
  - unfold schedule. step_of 1. step_of 1. rewrite Hr. cbn -[sched]. rewrite He.
    destruct (res_data x) as [|d0 d] eqn:Ed; [congruence|]. cbn -[sched].
    rewrite EX.
    step_of 1. step_of 2. rewrite Hp. cbn -[sched]. rewrite Hpe.
    step_of 2.
    rewrite (Nat.min_r _ _ Hcap'), firstn_all, skipn_all.
    step_of 1. cbn [length] in Hl. rewrite Hl. cbn.
    rewrite ltb_self_unfolded, !Nat.eqb_refl. cbn.
    rewrite <- !app_assoc. reflexivity.
  - unfold schedule. step_of 1. step_of 1. rewrite Hr. cbn -[sched]. rewrite He, EX.
    destruct cb as [|cb0 cb]; [destruct (res_data x); [congruence|discriminate]|].
    cbn -[sched].
    step_of 1. step_of 2. rewrite Hp. cbn -[sched]. rewrite Hpe.
    step_of 2. cbn [length] in Hcap'.
    rewrite (Nat.min_r _ _ Hcap').
    change (S (length cb)) with (length (cb0 :: cb)).
    rewrite firstn_all, skipn_all.
    step_of 1. cbn.
    rewrite ltb_self_unfolded, !Nat.eqb_refl. cbn.
    rewrite <- !app_assoc, <- Hl. reflexivity.
Qed.

(** X10: a [Read] on the connection that a transform returns delivers
    what the real connection has delivered, through the incoming stream
    and the pipe.  When the real connection delivers the data [d] to
    the incoming goroutine and its zero-length read succeeds, then, in
    the run where the goroutine reads and offers, the caller probes and
    takes, and the goroutine goes back to the head of its loop, a
    [Read] with a buffer that can hold [d] returns what the incoming
    stream makes of [d], with the [nil] error; the real connection has
    been read twice (the data, the probe), and the pipes are idle
    again. *)
Theorem read_delivers_what_arrived :
  forall (t : side) ed ed' (c0 c1 c2 : C) s cap k x xp,
    initCipherStream ed = Returns (None, ed') ->
    incoming t ed' = Some s ->
    keeps_length s ->
    conn_Read c0 copy_buf_size = Done (x, c1) ->
    res_data x <> [] -> res_err x = None ->
    length (res_data x) <= cap ->
    conn_Read c1 0 = Done (xp, c2) -> res_err xp = None ->
    exists c w' w'',
      transform t ed RealConn (world0 c0) = Returns ((Some c, None), ed', w') /\
      schedule read_turn (go (read_then c cap k) w') = Returns w'' /\
      nth_error (tasks w'') 2 = Some (k (through s (res_data x), None)) /\
      conn w'' = c2 /\
      log w'' = [ConnRead copy_buf_size; PipeOffer 1 (through s (res_data x));
                 ConnRead 0; PipeRead 1 cap; PipeAwait 1] /\
      pipes w'' = [new_pipe; new_pipe].
Proof.
  intros t ed ed' c0 c1 c2 s cap k x xp Hi Ho Hs Hr Hd He Hcap Hp Hpe.
  pose proof (@transform_worlds _ _ t _ _ (world0 c0) Hi) as HT.
  rewrite Ho in HT. cbn [world0 conn pipes tasks log length app] in HT.
  pose proof (@read_round t s 0 (outgoing_task t (outgoing t ed') 0 0 (guarded 1 0))
                          cap k c0 c1 c2 new_pipe [] x xp Hs Hr Hd He Hcap Hp Hpe)
    as Hsch.
  do 3 eexists. split; [exact HT|].
  unfold go. cbn [conn pipes tasks log app].
  split; [exact Hsch|]. repeat split.
Qed.

(** The caller's part of a [Write], before and after the goroutine
    has taken the data. *)
Lemma offer_round (t0 t1 : Prog unit) (b : bytes) (k : nat * option error -> Prog unit)
      (c c1 : C) (p1 : Pipe) (l : list Op) xp :
  conn_Write c [] = Done (xp, c1) -> res_err xp = None ->
  schedule [2; 2]
           {| conn := c; pipes := [new_pipe; p1];
              tasks := [t0; t1; write_then (guarded 1 0) b k];
              log := l |}
  = Returns {| conn := c1; pipes := [carrying b true 0; p1];
               tasks := [t0; t1; waiting k];
               log := l ++ [ConnWrite []; PipeOffer 0 b] |}.
Proof.
  intros Hp Hpe. unfold write_then, guarded, waiting, carrying.
  unfold schedule. step_of 2. rewrite Hp. cbn -[sched]. rewrite Hpe.
  step_of 2. rewrite <- app_assoc. reflexivity.
Qed.

Lemma await_round (t0 t1 : Prog unit) (k : nat * option error -> Prog unit)
      (c : C) (p1 : Pipe) (l : list Op) (tk : nat) :
  schedule [2]
           {| conn := c; pipes := [carrying [] false tk; p1];
              tasks := [t0; t1; waiting k];
              log := l |}
  = Returns {| conn := c; pipes := [new_pipe; p1];
               tasks := [t0; t1; k (tk, None)];
               log := l ++ [PipeAwait 0] |}.
Proof. reflexivity. Qed.

(** While nobody has read, the writer waits. *)
Lemma waiting_round (t0 t1 : Prog unit) (k : nat * option error -> Prog unit)
      (c : C) (p1 : Pipe) (l : list Op) (d : bytes) (tk : nat) (n : nat) :
  let w := {| conn := c; pipes := [carrying d true tk; p1];
              tasks := [t0; t1; waiting k]; log := l |} in
  schedule (repeat 2 n) w = Returns w.
Proof.
  intros w. induction n as [|n IH]; [reflexivity|].
  cbn [repeat schedule].
  assert (H : sched 2 w = Returns w) by (unfold w; destruct d; reflexivity).
  now rewrite H.
Qed.

(** While nothing has been offered, the reader waits. *)
Lemma listening_round (t0 t1 : Prog unit) (cap : nat)
      (k : bytes * option error -> Prog unit)
      (c : C) (p0 : Pipe) (l : list Op) (n : nat) :
  let w := {| conn := c; pipes := [p0; new_pipe];
              tasks := [t0; t1; listening cap k]; log := l |} in
  schedule (repeat 2 n) w = Returns w.
Proof.
  intros w. induction n as [|n IH]; [reflexivity|].
  cbn [repeat schedule].
  assert (H : sched 2 w = Returns w) by reflexivity.
  now rewrite H.
Qed.

(** One turn of the outgoing goroutine: it takes what its buffer
    holds of the data that the pipe carries, and writes it. *)
Lemma take_round (t : side) (s : Stream) (written : nat) (t1 t2 : Prog unit)
      (d : bytes) (fr : bool) (tk : nat)
      (c c1 : C) (p1 : Pipe) (l : list Op) xw :
  keeps_length s ->
  d <> [] ->
  let n := Nat.min copy_buf_size (length d) in
  conn_Write c (through s (firstn n d)) = Done (xw, c1) ->
  res_err xw = None -> res_n xw = n ->
  schedule [0; 0; 0]
           {| conn := c; pipes := [carrying d fr tk; p1];
              tasks := [outgoing_task t (Some s) 0 written (guarded 1 0); t1; t2];
              log := l |}
  = Returns {| conn := c1; pipes := [carrying (skipn n d) false (tk + n); p1];
               tasks := [outgoing_task t (Some (advanced s (firstn n d))) 0
                                       (written + n) (guarded 1 0); t1; t2];
               log := l ++ [PipeRead 0 copy_buf_size;
                            ConnWrite (through s (firstn n d))] |}.
Proof.
  intros Hs Hd n Hw He Hn.
  assert (Hpos : 0 < n).
  { unfold n. pose proof copy_buf_size_pos. destruct d; [congruence|]. simpl length. lia. }
  assert (Hlen : length (firstn n d) = n).
  { rewrite length_firstn. unfold n. lia. }
  destruct (XORKeyStream_length (firstn n d) Hs) as [Hl _]. rewrite Hlen in Hl.
  unfold through, advanced in *. fold n.
  destruct (XORKeyStream s (firstn n d)) as [cb s'] eqn:EX. cbn [fst snd] in *.
  unfold guarded, carrying.
  assert (Hor : (fr || (0 <? length d)) = true).
  { destruct d; [congruence|]. now rewrite Bool.orb_true_r. }
  destruct t; unfold outgoing_task, goroutine_from.
  - unfold schedule. step_of 0. unfold sched at 1. cbn [nth_error tasks].
    cbn -[sched Nat.min firstn skipn Nat.ltb orb length]. rewrite Hor.
    cbn -[sched Nat.min firstn skipn Nat.ltb orb length]. fold n. rewrite EX.
    destruct cb as [|cb0 cb]; [simpl in Hl; lia|].
    cbn -[sched Nat.min firstn skipn length].
    step_of 0. rewrite Hw. cbn -[Nat.min firstn skipn length]. rewrite He, Hn, <- Hl.
    cbn -[Nat.min firstn skipn]. rewrite ltb_self_unfolded, Nat.eqb_refl.
    cbn -[Nat.min firstn skipn]. fold n. rewrite <- !app_assoc. reflexivity.
  - unfold schedule. step_of 0. unfold sched at 1. cbn [nth_error tasks].
    cbn -[sched Nat.min firstn skipn Nat.ltb orb length]. rewrite Hor.
    cbn -[sched Nat.min firstn skipn Nat.ltb orb length]. fold n. rewrite Hlen.
    destruct n as [|n'] eqn:En; [lia|].
    cbn -[sched Nat.min firstn skipn length]. rewrite EX.
    cbn -[sched Nat.min firstn skipn length].
    step_of 0. rewrite Hw. cbn -[Nat.min firstn skipn length]. rewrite He, Hn.
    cbn -[Nat.min firstn skipn]. rewrite ltb_self_unfolded, Nat.eqb_refl.
    cbn -[Nat.min firstn skipn]. rewrite <- !app_assoc. reflexivity.
Qed.

(** A turn of the outgoing goroutine on an empty message. *)
Lemma empty_round {S : Type} (step : S -> byte -> byte * S) (t : side) (st : S)
      (written : nat) (t1 t2 : Prog unit) (tk : nat) (c : C) (p1 : Pipe) (l : list Op) :
  schedule [0; 0]
           {| conn := c; pipes := [carrying [] true tk; p1];
              tasks := [outgoing_task t (Some (bytewise step st)) 0 written (guarded 1 0);
                        t1; t2];
              log := l |}
  = Returns {| conn := c; pipes := [carrying [] false tk; p1];
               tasks := [outgoing_task t (Some (bytewise step st)) 0 written (guarded 1 0);
                         t1; t2];
               log := l ++ [PipeRead 0 copy_buf_size] |}.
Proof.
  unfold guarded, carrying.
  destruct t; unfold outgoing_task, goroutine_from;
    unfold schedule; step_of 0; unfold sched at 1; cbn [nth_error tasks];
    cbn -[Nat.min]; rewrite Nat.min_0_r, Nat.add_0_r; reflexivity.
Qed.

(** A buffer shorter than what has arrived: two reads. *)
Lemma short_reads (t : side) (s : Stream) (written : nat) (t0 : Prog unit)
      (cap : nat) (k : list (bytes * option error) -> Prog unit)
      (c c1 c2 c3 : C) (p0 : Pipe) (l : list Op) x xp1 xp2 :
  keeps_length s ->
  conn_Read c copy_buf_size = Done (x, c1) ->
  res_err x = None ->
  cap < length (res_data x) -> length (res_data x) <= 2 * cap ->
  conn_Read c1 0 = Done (xp1, c2) -> res_err xp1 = None ->
  conn_Read c2 0 = Done (xp2, c3) -> res_err xp2 = None ->
  schedule [1; 1; 1; 2; 2; 2; 2; 1]
           {| conn := c; pipes := [p0; new_pipe];
              tasks := [t0; incoming_task t (Some s) 1 written (guarded 1 0);
                        read_all (guarded 1 0) 2 cap k];
              log := l |}
  = Returns {| conn := c3; pipes := [p0; new_pipe];
               tasks := [t0;
                         incoming_task t (Some (advanced s (res_data x))) 1
                                       (written + length (res_data x)) (guarded 1 0);
                         k [(firstn cap (through s (res_data x)), None);
                            (skipn cap (through s (res_data x)), None)]];
               log := l ++ [ConnRead copy_buf_size; PipeOffer 1 (through s (res_data x));
                            ConnRead 0; PipeRead 1 cap; ConnRead 0; PipeRead 1 cap;
                            PipeAwait 1] |}.
Proof.
  intros Hs Hr He Hlt Hle Hp1 Hpe1 Hp2 Hpe2.
  destruct (XORKeyStream_length (res_data x) Hs) as [Hl _].
  unfold through, advanced in *.
  destruct (XORKeyStream s (res_data x)) as [cb s'] eqn:EX. cbn [fst snd] in *.
  assert (Hm1 : Nat.min cap (length cb) = cap) by lia.
  assert (Hm2 : Nat.min cap (length (skipn cap cb)) = length (skipn cap cb))
    by (rewrite length_skipn; lia).
  assert (Hpos : 0 < length (skipn cap cb)) by (rewrite length_skipn; lia).
  unfold read_all, read_then, guarded.
  destruct t; unfold incoming_task, goroutine_from.
  - unfold schedule. step_of 1. step_of 1. rewrite Hr. cbn -[sched]. rewrite He.
    destruct (res_data x) as [|d0 d] eqn:Ed; [simpl in Hlt; lia|]. cbn -[sched].
    rewrite EX.
    step_of 1. step_of 2. rewrite Hp1. cbn -[sched]. rewrite Hpe1.
    step_of 2. rewrite Hm1.
    step_of 2. rewrite Hp2. cbn -[sched]. rewrite Hpe2.
    unfold sched at 1. cbn [nth_error tasks].
    cbn -[sched Nat.min firstn skipn Nat.ltb length].
    rewrite (proj2 (Nat.ltb_lt _ _) Hpos), Hm2, firstn_all, skipn_all.
    cbn -[sched Nat.min firstn skipn Nat.ltb length].
    assert (Htk : cap + length (skipn cap cb) = length (d0 :: d))
      by (rewrite length_skipn; lia).
    rewrite Htk.
    step_of 1.
    rewrite ltb_self_unfolded, !Nat.eqb_refl. cbn.
    rewrite <- !app_assoc. reflexivity.
  - destruct cb as [|cb0 cb']; [simpl in Hl; lia|].
    unfold schedule. step_of 1. step_of 1. rewrite Hr. cbn -[sched]. rewrite He, EX.
    cbn -[sched].
    step_of 1. step_of 2. rewrite Hp1. cbn -[sched]. rewrite Hpe1.
    unfold sched at 1. cbn [nth_error tasks].
    cbn -[sched Nat.min firstn skipn Nat.ltb length]. rewrite Hm1.
    step_of 2. rewrite Hp2. cbn -[sched]. rewrite Hpe2.
    unfold sched at 1. cbn [nth_error tasks].
    cbn -[sched Nat.min firstn skipn Nat.ltb length].
    rewrite (proj2 (Nat.ltb_lt _ _) Hpos), Hm2, firstn_all, skipn_all.
    cbn -[sched Nat.min firstn skipn Nat.ltb length].
    assert (Htk : cap + length (skipn cap (cb0 :: cb')) = length (cb0 :: cb'))
      by (rewrite length_skipn; lia).
    rewrite Htk.
    unfold sched at 1. cbn [nth_error tasks].
    cbn -[sched Nat.min firstn skipn Nat.ltb].
    rewrite ltb_self_unfolded, !Nat.eqb_refl. cbn -[firstn skipn].
    rewrite <- !app_assoc, <- Hl. reflexivity.
Qed.

End Any.

(** *** On a TCP-like connection *)

Lemma tcp_sent_nothing (c : Tcp) : closed c = false -> tcp_sent c [] = c.
Proof.
  intros H. destruct c. unfold tcp_sent. simpl in *. subst. now rewrite app_nil_r.
Qed.

Lemma tcp_sent_more (c : Tcp) (a b : bytes) :
  tcp_sent (tcp_sent c a) b = tcp_sent c (a ++ b).
Proof. unfold tcp_sent. simpl. now rewrite app_assoc. Qed.

Lemma tcp_Write_open (c : Tcp) (b : bytes) :
  closed c = false ->
  conn_Write c b = Done (mkRes [] (length b) None, tcp_sent c b).
Proof. intros H. simpl. unfold tcp_Write. now rewrite H. Qed.

Lemma tcp_received_all (c : Tcp) :
  closed c = false -> inbound c = [] -> tcp_received c [] = c.
Proof.
  intros H1 H2. destruct c. unfold tcp_received. simpl in *. now subst.
Qed.

Lemma tcp_Read_segment (c : Tcp) (seg : bytes) (rest : list bytes) :
  closed c = false -> inbound c = seg :: rest ->
  length seg <= copy_buf_size ->
  conn_Read c copy_buf_size = Done (mkRes seg (length seg) None, tcp_received c rest).
Proof.
  intros H1 H2 H3. simpl. unfold tcp_Read. rewrite H1, H2.
  destruct (Nat.eqb_spec copy_buf_size 0) as [E|_];
    [pose proof copy_buf_size_pos; lia|].
  apply Nat.leb_le in H3. now rewrite H3.
Qed.

Lemma tcp_Read_probe (c : Tcp) :
  closed c = false -> conn_Read c 0 = Done (mkRes [] 0 None, c).
Proof. intros H. simpl. unfold tcp_Read. now rewrite H. Qed.

Lemma advanced_bytewise {S : Type} (step : S -> byte -> byte * S) (st : S) (b : bytes) :
  advanced (bytewise step st) b = bytewise step (snd (xor_fold step st b)).
Proof. unfold advanced. now rewrite XORKeyStream_bytewise. Qed.

Lemma pieces_bytewise {S : Type} (step : S -> byte -> byte * S) (segs : list bytes) :
  forall st,
    concat (map fst (pieces (bytewise step st) segs))
    = through (bytewise step st) (concat segs) /\
    Forall (fun r => snd r = None) (pieces (bytewise step st) segs) /\
    length (pieces (bytewise step st) segs) = length segs.
Proof.
  induction segs as [|seg rest IH]; intros st.
  - repeat split. constructor.
  - cbn [pieces map concat fst length]. rewrite advanced_bytewise.
    destruct (IH (snd (xor_fold step st seg))) as (H1 & H2 & H3).
    split; [|split].
    + now rewrite H1, <- advanced_bytewise, <- through_app.
    + constructor; [reflexivity | exact H2].
    + now rewrite H3.
Qed.

Lemma xor_fold_snd_app {S : Type} (step : S -> byte -> byte * S) (st : S) (a b : bytes) :
  snd (xor_fold step (snd (xor_fold step st a)) b) = snd (xor_fold step st (a ++ b)).
Proof. now rewrite xor_fold_app. Qed.

Section Writes.
Context {S : Type} (step : S -> byte -> byte * S) (t : side).
Variables (t1 : Prog unit) (p1 : Pipe).

(** The outgoing goroutine takes all that the pipe carries. *)
Lemma take_all (t2 : Prog unit) :
  forall (N : nat) (d : bytes), length d <= N ->
  forall (st : S) (written : nat) (fr : bool) (tk : nat) (c : Tcp) (l : list Op),
    d <> [] \/ fr = false ->
    closed c = false ->
    exists sch l',
      schedule sch
               {| conn := c; pipes := [carrying d fr tk; p1];
                  tasks := [outgoing_task t (Some (bytewise step st)) 0 written (guarded 1 0);
                            t1; t2];
                  log := l |}
      = Returns {| conn := tcp_sent c (through (bytewise step st) d);
                   pipes := [carrying [] false (tk + length d); p1];
                   tasks := [outgoing_task t
                               (Some (bytewise step (snd (xor_fold step st d)))) 0
                               (written + length d) (guarded 1 0); t1; t2];
                   log := l' |}.
Proof.
  assert (Hnil : forall (st : S) written fr tk (c : Tcp) l t2,
             fr = false -> closed c = false ->
             exists sch l',
               schedule sch
                 {| conn := c; pipes := [carrying [] fr tk; p1];
                    tasks := [outgoing_task t (Some (bytewise step st)) 0 written
                                            (guarded 1 0); t1; t2];
                    log := l |}
               = Returns {| conn := tcp_sent c (through (bytewise step st) []);
                            pipes := [carrying [] false (tk + length (@nil byte)); p1];
                            tasks := [outgoing_task t
                                        (Some (bytewise step (snd (xor_fold step st [])))) 0
                                        (written + length (@nil byte)) (guarded 1 0); t1; t2];
                            log := l' |}).
  { intros st written fr tk c l t2' -> Hc. exists [], l.
    unfold through. rewrite XORKeyStream_bytewise.
    cbn [schedule xor_fold fst snd length]. rewrite !Nat.add_0_r, (@tcp_sent_nothing c Hc).
    reflexivity. }
  induction N as [|N IH]; intros d HN st written fr tk c l Hd Hc.
  - destruct d; [|simpl in HN; lia].
    destruct Hd as [Hd | Hfr]; [congruence|]. now apply Hnil.
  - destruct d as [|d0 d'] eqn:Ed.
    { destruct Hd as [Hd | Hfr]; [congruence|]. now apply Hnil. }
    rewrite <- Ed in *.
    assert (Hne : d <> []) by (rewrite Ed; discriminate).
    set (n := Nat.min copy_buf_size (length d)).
    assert (Hpos : 0 < n).
    { unfold n. pose proof copy_buf_size_pos. rewrite Ed. simpl length. lia. }
    pose proof (bytewise_keeps_length step st) as Hs.
    assert (Hn : length (through (bytewise step st) (firstn n d)) = n).
    { unfold through. rewrite (proj1 (@XORKeyStream_length _ (firstn n d) Hs)).
      rewrite length_firstn. unfold n. lia. }
    pose proof (@take_round Tcp _ t (bytewise step st) written t1 t2 d fr tk c
                  (tcp_sent c (through (bytewise step st) (firstn n d))) p1 l _
                  Hs Hne (@tcp_Write_open c _ Hc) eq_refl Hn) as Hturn.
    fold n in Hturn. rewrite advanced_bytewise in Hturn.
    destruct (IH (skipn n d) ltac:(rewrite length_skipn; lia)
                 (snd (xor_fold step st (firstn n d))) (written + n) false (tk + n)
                 (tcp_sent c (through (bytewise step st) (firstn n d)))
                 (l ++ [PipeRead 0 copy_buf_size;
                        ConnWrite (through (bytewise step st) (firstn n d))])
                 (or_intror eq_refl) eq_refl)
      as (sch & l' & HIH).
    exists ([0; 0; 0] ++ sch), l'.
    rewrite (@schedule_then _ _ _ _ _ _ Hturn), HIH.
    rewrite tcp_sent_more, <- advanced_bytewise, <- through_app.
    rewrite xor_fold_snd_app, firstn_skipn, length_skipn.
    replace (tk + n + (length d - n)) with (tk + length d) by (unfold n; lia).
    replace (written + n + (length d - n)) with (written + length d) by (unfold n; lia).
    reflexivity.
Qed.

(** One [Write] of any length. *)
Lemma write_any (b : bytes) (st : S) (written : nat)
      (k : nat * option error -> Prog unit) (c : Tcp) (l : list Op) :
  closed c = false ->
  exists sch l',
    schedule sch
             {| conn := c; pipes := [new_pipe; p1];
                tasks := [outgoing_task t (Some (bytewise step st)) 0 written (guarded 1 0);
                          t1; write_then (guarded 1 0) b k];
                log := l |}
    = Returns {| conn := tcp_sent c (through (bytewise step st) b);
                 pipes := [new_pipe; p1];
                 tasks := [outgoing_task t
                             (Some (bytewise step (snd (xor_fold step st b)))) 0
                             (written + length b) (guarded 1 0); t1; k (length b, None)];
                 log := l' |}.
Proof.
  intros Hc.
  pose proof (@offer_round Tcp _ (outgoing_task t (Some (bytewise step st)) 0 written
                                                (guarded 1 0))
                           t1 b k c (tcp_sent c []) p1 l _
                           (@tcp_Write_open c [] Hc) eq_refl) as Hoffer.
  rewrite (@tcp_sent_nothing c Hc) in Hoffer.
  assert (Htake : exists sch l',
             schedule sch
               {| conn := c; pipes := [carrying b true 0; p1];
                  tasks := [outgoing_task t (Some (bytewise step st)) 0 written (guarded 1 0);
                            t1; waiting k];
                  log := l ++ [ConnWrite []; PipeOffer 0 b] |}
             = Returns {| conn := tcp_sent c (through (bytewise step st) b);
                          pipes := [carrying [] false (length b); p1];
                          tasks := [outgoing_task t
                                      (Some (bytewise step (snd (xor_fold step st b)))) 0
                                      (written + length b) (guarded 1 0); t1; waiting k];
                          log := l' |}).
  { destruct b as [|b0 b'] eqn:Eb.
    - exists [0; 0]. eexists.
      rewrite (@empty_round Tcp _ _ step t st written t1 (waiting k) 0 c p1).
      unfold through. rewrite XORKeyStream_bytewise. cbn [xor_fold fst snd length].
      rewrite Nat.add_0_r, (@tcp_sent_nothing c Hc). reflexivity.
    - assert (Hne : b0 :: b' <> []) by discriminate.
      pose proof (@take_all (waiting k) _ (b0 :: b') (le_n _) st written true 0 c
                            (l ++ [ConnWrite []; PipeOffer 0 (b0 :: b')])
                            (or_introl Hne) Hc) as H.
      cbn [Nat.add] in H. exact H. }
  destruct Htake as (sch & l' & Htake).
  exists ([2; 2] ++ sch ++ [2]). eexists.
  rewrite (@schedule_then _ _ _ _ _ _ Hoffer), (@schedule_then _ _ _ _ _ _ Htake).
  apply await_round.
Qed.

(** The messages [bs], written one after the other. *)
Lemma writes_any :
  forall (bs : list bytes) (st : S) (written : nat)
         (k : list (nat * option error) -> Prog unit) (c : Tcp) (l : list Op),
    closed c = false ->
    exists sch t0' l',
      schedule sch
               {| conn := c; pipes := [new_pipe; p1];
                  tasks := [outgoing_task t (Some (bytewise step st)) 0 written (guarded 1 0);
                            t1; write_all (guarded 1 0) bs k];
                  log := l |}
      = Returns {| conn := tcp_sent c (through (bytewise step st) (concat bs));
                   pipes := [new_pipe; p1];
                   tasks := [t0'; t1; k (map (fun b => (length b, None)) bs)];
                   log := l' |}.
Proof.
  induction bs as [|b bs IH]; intros st written k c l Hc.
  - exists []. do 2 eexists. cbn [schedule write_all concat map].
    unfold through. rewrite XORKeyStream_bytewise. cbn [xor_fold fst].
    rewrite (@tcp_sent_nothing c Hc). reflexivity.
  - destruct (@write_any b st written
                (fun r => write_all (guarded 1 0) bs (fun rs => k (r :: rs))) c l Hc)
      as (sch & l' & Hone).
    destruct (IH (snd (xor_fold step st b)) (written + length b)
                 (fun rs => k ((length b, None) :: rs))
                 (tcp_sent c (through (bytewise step st) b)) l' eq_refl)
      as (sch' & t0' & l'' & HIH).
    exists (sch ++ sch'), t0', l''.
    cbn [write_all]. rewrite (@schedule_then _ _ _ _ _ _ Hone), HIH.
    rewrite tcp_sent_more. cbn [concat map].
    rewrite <- advanced_bytewise, <- through_app. reflexivity.
Qed.

End Writes.

(** The segments [segs], read one after the other. *)
Lemma reads_round {S : Type} (step : S -> byte -> byte * S) (t : side)
      (t0 : Prog unit) (p0 : Pipe) (cap : nat) :
  forall (segs : list bytes) (st : S) (written : nat)
         (k : list (bytes * option error) -> Prog unit) (c : Tcp) (l : list Op),
    Forall (one_read cap) segs ->
    closed c = false -> inbound c = segs ->
    exists t1' l',
      schedule (flat_map (fun _ => read_turn) segs)
               {| conn := c; pipes := [p0; new_pipe];
                  tasks := [t0;
                            incoming_task t (Some (bytewise step st)) 1 written (guarded 1 0);
                            read_all (guarded 1 0) (length segs) cap k];
                  log := l |}
      = Returns {| conn := tcp_received c [];
                   pipes := [p0; new_pipe];
                   tasks := [t0; t1'; k (pieces (bytewise step st) segs)];
                   log := l' |}.
Proof.
  induction segs as [|seg segs IH]; intros st written k c l Hsegs Hc Hin.
  - do 2 eexists. cbn. rewrite (@tcp_received_all c Hc Hin). reflexivity.
  - inversion Hsegs as [|? ? [[Hne Hlen] Hcap] Hrest]; subst.
    pose proof (bytewise_keeps_length step st) as Hs.
    pose proof (@tcp_Read_segment c seg segs Hc Hin Hlen) as Hr.
    assert (Hc1 : closed (tcp_received c segs) = false) by reflexivity.
    pose proof (@read_round Tcp _ t (bytewise step st) written t0 cap
                  (fun r => read_all (guarded 1 0) (length segs) cap (fun rs => k (r :: rs)))
                  c (tcp_received c segs) (tcp_received c segs) p0 l _ _
                  Hs Hr Hne eq_refl Hcap (@tcp_Read_probe _ Hc1) eq_refl) as Hsch.
    cbn [res_data] in Hsch. rewrite advanced_bytewise in Hsch.
    destruct (IH (snd (xor_fold step st seg)) (written + length seg)
                 (fun rs => k ((through (bytewise step st) seg, None) :: rs))
                 (tcp_received c segs)
                 (l ++ [ConnRead copy_buf_size; PipeOffer 1 (through (bytewise step st) seg);
                        ConnRead 0; PipeRead 1 cap; PipeAwait 1])
                 Hrest eq_refl eq_refl)
      as (t1' & l' & HIH).
    exists t1', l'.
    cbn [flat_map length read_all]. rewrite (@schedule_then _ _ _ _ _ _ Hsch), HIH.
    cbn [pieces]. rewrite advanced_bytewise. reflexivity.
Qed.

(** The builder under a complete configuration in mode [m]: the two
    streams are byte-wise and undo each other. *)
Lemma mode_streams (m : mode) (key iv : bytes) :
  valid_key_length (length key) = true ->
  length iv = AES.BlockSize ->
  exists (SE SD : Type) (stepE : SE -> byte -> byte * SE) (stepD : SD -> byte -> byte * SD)
         (se : SE) (sd : SD) (R : SE -> SD -> Prop) ed',
    inverse_steps stepE stepD R /\ R se sd /\
    EncryptStream ed' = Some (bytewise stepE se) /\
    DecryptStream ed' = Some (bytewise stepD sd) /\
    initCipherStream (ed_mode m key iv) = Returns (None, ed').
Proof.
  intros Hk Hiv.
  destruct (initCipherStream_mode m key iv Hk Hiv)
    as (SE & SD & stepE & stepD & se & sd & R & Hinv & HR & Hinit).
  exists SE, SD, stepE, stepD, se, sd, R. eexists.
  split; [exact Hinv|]. split; [exact HR|].
  split; [|split; [|exact Hinit]]; reflexivity.
Qed.

(** A transform on a fresh world. *)
Lemma fresh_transform {C : Type} {CM : ConnModel C} (t : side) ed ed' (c0 : C) :
  initCipherStream ed = Returns (None, ed') ->
  transform t ed RealConn (world0 c0)
  = Returns ((Some (guarded 1 0), None), ed',
             {| conn := c0; pipes := [new_pipe; new_pipe];
                tasks := [outgoing_task t (outgoing t ed') 0 0 (guarded 1 0);
                          incoming_task t (incoming t ed') 1 0 (guarded 1 0)];
                log := [] |}).
Proof. intros H. exact (@transform_worlds _ _ t _ _ (world0 c0) H). Qed.

(** X11: successive calls of [Write] on the connection that a
    transform returns put on the real connection, in order, what the
    outgoing stream makes of the concatenation of the messages: the
    key stream carries on from one [Write] to the next.  On an open
    TCP-like connection, under a key of a valid length and an IV of the
    block size, in CTR, OFB or CFB mode, for any messages (empty ones
    and ones longer than the copy buffer included): there is a run of
    the caller and the outgoing goroutine in which every [Write] returns
    the length of its message and [nil], and the connection has sent what
    it had sent before followed by what the stream makes of all the
    messages together. *)
Theorem writes_arrive_in_order :
  forall (m : mode) (key iv : bytes) (t : side) (bs : list bytes)
         (k : list (nat * option error) -> Prog unit) (c0 : Tcp),
    valid_key_length (length key) = true ->
    length iv = AES.BlockSize ->
    closed c0 = false ->
    exists c ed' w' sO sch w'',
      transform t (ed_mode m key iv) RealConn (world0 c0)
      = Returns ((Some c, None), ed', w') /\
      outgoing t ed' = Some sO /\
      schedule sch (go (write_all c bs k) w') = Returns w'' /\
      nth_error (tasks w'') 2 = Some (k (map (fun b => (length b, None)) bs)) /\
      conn w'' = tcp_sent c0 (through sO (concat bs)) /\
      pipes w'' = [new_pipe; new_pipe].
Proof.
  intros m key iv t bs k c0 Hk Hiv Hc.
  destruct (mode_streams m key iv Hk Hiv)
    as (SE & SD & stepE & stepD & se & sd & R & ed' & _ & _ & HE & HD & Hi).
  pose proof (@fresh_transform Tcp _ t _ _ c0 Hi) as HT.
  destruct t; cbn [outgoing incoming] in HT; rewrite ?HE, ?HD in HT.
  - destruct (@writes_any _ stepD ToCiphertext
                (incoming_task ToCiphertext (Some (bytewise stepE se)) 1 0 (guarded 1 0))
                new_pipe bs sd 0 k c0 [] Hc) as (sch & t0' & l' & Hsch).
    do 4 eexists. exists sch. eexists. split; [exact HT|]. split; [exact HD|].
    unfold go. cbn [conn pipes tasks log app].
    split; [exact Hsch|]. repeat split.
  - destruct (@writes_any _ stepE ToPlaintext
                (incoming_task ToPlaintext (Some (bytewise stepD sd)) 1 0 (guarded 1 0))
                new_pipe bs se 0 k c0 [] Hc) as (sch & t0' & l' & Hsch).
    do 4 eexists. exists sch. eexists. split; [exact HT|]. split; [exact HE|].
    unfold go. cbn [conn pipes tasks log app].
    split; [exact Hsch|]. repeat split.
Qed.

(** X12: successive calls of [Read] on the connection that a transform
    returns deliver, in order, what the incoming stream makes of the
    segments that arrive on the real connection, and together what it
    makes of their concatenation.  On an open TCP-like connection on
    which the segments [segs] have arrived, under a key of a valid length
    and an IV of the block size, in CTR, OFB or CFB mode, with a buffer
    that can hold each segment: in the run where incoming goroutine and
    caller take turns, there are as many results as segments, every
    [Read] returns the [nil] error, and the connection has nothing left
    to deliver. *)
Theorem reads_deliver_in_order :
  forall (m : mode) (key iv : bytes) (t : side) (segs : list bytes) (cap : nat)
         (k : list (bytes * option error) -> Prog unit) (c0 : Tcp),
    valid_key_length (length key) = true ->
    length iv = AES.BlockSize ->
    closed c0 = false ->
    inbound c0 = segs ->
    Forall (one_read cap) segs ->
    exists c ed' w' sI w'' rs,
      transform t (ed_mode m key iv) RealConn (world0 c0)
      = Returns ((Some c, None), ed', w') /\
      incoming t ed' = Some sI /\
      schedule (flat_map (fun _ => read_turn) segs)
               (go (read_all c (length segs) cap k) w')
      = Returns w'' /\
      nth_error (tasks w'') 2 = Some (k rs) /\
      rs = pieces sI segs /\
      length rs = length segs /\
      concat (map fst rs) = through sI (concat segs) /\
      Forall (fun r => snd r = None) rs /\
      conn w'' = tcp_received c0 [] /\
      pipes w'' = [new_pipe; new_pipe].
Proof.
  intros m key iv t segs cap k c0 Hk Hiv Hc Hin Hsegs.
  destruct (mode_streams m key iv Hk Hiv)
    as (SE & SD & stepE & stepD & se & sd & R & ed' & _ & _ & HE & HD & Hi).
  pose proof (@fresh_transform Tcp _ t _ _ c0 Hi) as HT.
  destruct t; cbn [outgoing incoming] in HT; rewrite ?HE, ?HD in HT.
  - destruct (@reads_round _ stepE ToCiphertext
                (outgoing_task ToCiphertext (Some (bytewise stepD sd)) 0 0 (guarded 1 0))
                new_pipe cap segs se 0 k c0 [] Hsegs Hc Hin) as (t1' & l' & Hsch).
    destruct (pieces_bytewise stepE segs se) as (P1 & P2 & P3).
    do 6 eexists. split; [exact HT|]. split; [exact HE|].
    unfold go. cbn [conn pipes tasks log app].
    split; [exact Hsch|]. repeat split; assumption.
  - destruct (@reads_round _ stepD ToPlaintext
                (outgoing_task ToPlaintext (Some (bytewise stepE se)) 0 0 (guarded 1 0))
                new_pipe cap segs sd 0 k c0 [] Hsegs Hc Hin) as (t1' & l' & Hsch).
    destruct (pieces_bytewise stepD segs sd) as (P1 & P2 & P3).
    do 6 eexists. split; [exact HT|]. split; [exact HD|].
    unfold go. cbn [conn pipes tasks log app].
    split; [exact Hsch|]. repeat split; assumption.
Qed.

(** X13: what one peer writes, the other reads.  Two peers wrap their
    ends of a TCP-like connection with [Plaintext] under the same key,
    IV and mode.  Whatever messages the first writes, and however the
    network cuts what it has sent into segments for the second (one
    buffer at most each, and no longer than the reader's buffer): there
    are runs of callers and goroutines in which every [Write] returns
    the length of its message and [nil], and the reads of the second peer
    return, in order and without error, pieces whose concatenation is the
    concatenation of the messages. *)
Theorem written_is_read_back :
  forall (m : mode) (key iv : bytes) (bs : list bytes)
         (kA : list (nat * option error) -> Prog unit) (cA : Tcp),
    valid_key_length (length key) = true ->
    length iv = AES.BlockSize ->
    closed cA = false ->
    exists a edA wA sch wA',
      Plaintext (ed_mode m key iv) RealConn (world0 cA) = Returns ((Some a, None), edA, wA) /\
      schedule sch (go (write_all a bs kA) wA) = Returns wA' /\
      nth_error (tasks wA') 2 = Some (kA (map (fun b => (length b, None)) bs)) /\
      forall (segs : list bytes) (cap : nat)
             (kB : list (bytes * option error) -> Prog unit) (cB : Tcp),
        outbound (conn wA') = outbound cA ++ concat segs ->
        closed cB = false ->
        inbound cB = segs ->
        Forall (one_read cap) segs ->
        exists b edB wB wB' rs,
          Plaintext (ed_mode m key iv) RealConn (world0 cB)
          = Returns ((Some b, None), edB, wB) /\
          schedule (flat_map (fun _ => read_turn) segs)
                   (go (read_all b (length segs) cap kB) wB)
          = Returns wB' /\
          nth_error (tasks wB') 2 = Some (kB rs) /\
          concat (map fst rs) = concat bs /\
          Forall (fun r => snd r = None) rs.
Proof.
  intros m key iv bs kA cA Hk Hiv HcA.
  destruct (mode_streams m key iv Hk Hiv)
    as (SE & SD & stepE & stepD & se & sd & R & ed' & Hinv & HR & HE & HD & Hi).
  pose proof (@fresh_transform Tcp _ ToPlaintext _ _ cA Hi) as HT.
  cbn [outgoing incoming transform] in HT. rewrite HE, HD in HT.
  destruct (@writes_any _ stepE ToPlaintext
              (incoming_task ToPlaintext (Some (bytewise stepD sd)) 1 0 (guarded 1 0))
              new_pipe bs se 0 kA cA [] HcA) as (sch & t0' & l' & Hsch).
  do 3 eexists. exists sch. eexists. split; [exact HT|].
  unfold go. cbn [conn pipes tasks log app].
  split; [exact Hsch|]. split; [reflexivity|].
  intros segs cap kB cB Hwire HcB Hin Hsegs.
  cbn [conn tcp_sent outbound] in Hwire. apply app_inv_head in Hwire.
  pose proof (@fresh_transform Tcp _ ToPlaintext _ _ cB Hi) as HT'.
  cbn [outgoing incoming transform] in HT'. rewrite HE, HD in HT'.
  destruct (@reads_round _ stepD ToPlaintext
              (outgoing_task ToPlaintext (Some (bytewise stepE se)) 0 0 (guarded 1 0))
              new_pipe cap segs sd 0 kB cB [] Hsegs HcB Hin) as (t1' & l'' & Hsch').
  destruct (pieces_bytewise stepD segs sd) as (P1 & P2 & _).
  do 5 eexists. split; [exact HT'|].
  unfold go. cbn [conn pipes tasks log app].
  split; [exact Hsch'|]. split; [reflexivity|]. split; [|exact P2].
  rewrite P1, <- Hwire. unfold through. rewrite !XORKeyStream_bytewise. cbn [fst].
  exact (@xor_fold_inverse _ _ _ _ _ Hinv (concat bs) _ _ HR).
Qed.

(** *** Waiting, and short buffers *)

Section Edges.

Context {C : Type} {CM : ConnModel C}.

(** X14: the connection that a transform returns has no buffer of
    its own.  On a fresh one, as long as the goroutines have not run:
    a [Write] of any data, even of none, gets past its probe, offers
    the data to the pipe, and then waits, however often the caller is
    scheduled; a [Read] gets past its probe and waits at the pipe.
    Both calls depend on the goroutines of the transform to return. *)
Theorem calls_wait_for_the_goroutines :
  forall (t : side) ed ed' (c0 c1 c2 : C) (b : bytes) (cap : nat)
         (kw : nat * option error -> Prog unit)
         (kr : bytes * option error -> Prog unit) xw xr,
    initCipherStream ed = Returns (None, ed') ->
    conn_Write c0 [] = Done (xw, c1) -> res_err xw = None ->
    conn_Read c0 0 = Done (xr, c2) -> res_err xr = None ->
    exists c w',
      transform t ed RealConn (world0 c0) = Returns ((Some c, None), ed', w') /\
      (exists w1,
          schedule [2; 2] (go (write_then c b kw) w') = Returns w1 /\
          nth_error (tasks w1) 2 = Some (waiting kw) /\
          log w1 = [ConnWrite []; PipeOffer 0 b] /\
          forall n, schedule (repeat 2 n) w1 = Returns w1) /\
      (exists w2,
          schedule [2] (go (read_then c cap kr) w') = Returns w2 /\
          nth_error (tasks w2) 2 = Some (listening cap kr) /\
          log w2 = [ConnRead 0] /\
          forall n, schedule (repeat 2 n) w2 = Returns w2).
Proof.
  intros t ed ed' c0 c1 c2 b cap kw kr xw xr Hi Hw Hwe Hr Hre.
  pose proof (@fresh_transform C _ t _ _ c0 Hi) as HT.
  do 2 eexists. split; [exact HT|].
  unfold go. cbn [conn pipes tasks log app]. split.
  - eexists. split; [eapply offer_round; eassumption|].
    split; [reflexivity|]. split; [reflexivity|].
    intros n. apply waiting_round.
  - eexists. split.
    + unfold schedule, read_then, guarded. step_of 2. rewrite Hr.
      cbn -[sched]. rewrite Hre. reflexivity.
    + split; [reflexivity|]. split; [reflexivity|].
      intros n. apply listening_round.
Qed.

(** X15: a [Read] with a buffer shorter than what has arrived loses
    nothing.  When the real connection has delivered [d] to the incoming
    goroutine and the caller reads twice with a buffer of [cap] bytes,
    [cap] being less than the length of [d] and at least half of it: in
    the run where the goroutine reads and offers, the caller reads
    twice, and the goroutine goes back to the head of its loop, the first
    [Read] returns the first [cap] bytes of what the incoming stream
    makes of [d] and the second [Read] the rest, both with the [nil]
    error. *)
Theorem short_buffer_reads_in_pieces :
  forall (t : side) ed ed' (c0 c1 c2 c3 : C) s cap
         (k : list (bytes * option error) -> Prog unit) x xp1 xp2,
    initCipherStream ed = Returns (None, ed') ->
    incoming t ed' = Some s ->
    keeps_length s ->
    conn_Read c0 copy_buf_size = Done (x, c1) ->
    res_err x = None ->
    cap < length (res_data x) -> length (res_data x) <= 2 * cap ->
    conn_Read c1 0 = Done (xp1, c2) -> res_err xp1 = None ->
    conn_Read c2 0 = Done (xp2, c3) -> res_err xp2 = None ->
    exists c w' w'',
      transform t ed RealConn (world0 c0) = Returns ((Some c, None), ed', w') /\
      schedule [1; 1; 1; 2; 2; 2; 2; 1] (go (read_all c 2 cap k) w') = Returns w'' /\
      nth_error (tasks w'') 2
      = Some (k [(firstn cap (through s (res_data x)), None);
                 (skipn cap (through s (res_data x)), None)]) /\
      conn w'' = c3 /\
      pipes w'' = [new_pipe; new_pipe].
Proof.
  intros t ed ed' c0 c1 c2 c3 s cap k x xp1 xp2 Hi Ho Hs Hr He Hlt Hle Hp1 Hpe1 Hp2 Hpe2.
  pose proof (@fresh_transform C _ t _ _ c0 Hi) as HT.
  rewrite Ho in HT.
  pose proof (@short_reads C _ t s 0 (outgoing_task t (outgoing t ed') 0 0 (guarded 1 0))
                           cap k c0 c1 c2 c3 new_pipe [] x xp1 xp2
                           Hs Hr He Hlt Hle Hp1 Hpe1 Hp2 Hpe2) as Hsch.
  do 3 eexists. split; [exact HT|].
  unfold go. cbn [conn pipes tasks log app].
  split; [exact Hsch|]. repeat split.
Qed.

End Edges.

(** *** The theorems at work: AES-128 in CTR mode, key [00..0F], zero IV *)

Lemma small_message (b : bytes) : b <> [] -> length b <= 1024 -> one_buffer b.
Proof. intros H1 H2. split; [exact H1 | now apply fits_copy_buf]. Qed.

Lemma write_reaches_witness :
  exists ed' c w' w'',
    initCipherStream ed_ctr = Returns (None, ed') /\
    outgoing ToPlaintext ed' = Some sample_stream /\
    transform ToPlaintext ed_ctr RealConn (world0 tcp_open)
    = Returns ((Some c, None), ed', w') /\
    schedule write_turn (go (write_then c [1; 2; 3]%Z (fun _ => Ret tt)) w')
    = Returns w'' /\
    nth_error (tasks w'') 2 = Some (Ret tt) /\
    conn w'' = tcp_sent (tcp_sent tcp_open []) (through sample_stream [1; 2; 3]%Z).
Proof.
  assert (Hb : one_buffer [1; 2; 3]%Z)
    by (apply small_message; [discriminate | simpl; lia]).
  eexists.
  destruct (@write_reaches_the_connection Tcp _ ToPlaintext ed_ctr _
              tcp_open (tcp_sent tcp_open [])
              (tcp_sent (tcp_sent tcp_open []) (through sample_stream [1; 2; 3]%Z))
              sample_stream [1; 2; 3]%Z (fun _ => Ret tt)
              (mkRes [] 0 None) (mkRes [] (length (through sample_stream [1; 2; 3]%Z)) None)
              eq_refl eq_refl (bytewise_keeps_length _ _)
              Hb (@tcp_Write_open tcp_open [] eq_refl) eq_refl
              (@tcp_Write_open (tcp_sent tcp_open []) _ eq_refl))
    as (c & w' & w'' & HT & Hs & Hk & Hc & _).
  exists c, w', w''. split; [reflexivity|]. split; [reflexivity|].
  split; [exact HT|]. split; [exact Hs|]. split; [exact Hk | exact Hc].
Defined.

Lemma read_delivers_witness :
  exists ed' c w' w'',
    initCipherStream ed_ctr = Returns (None, ed') /\
    incoming ToPlaintext ed' = Some sample_stream /\
    transform ToPlaintext ed_ctr RealConn (world0 (tcp_received tcp_open [[1; 2; 3]%Z]))
    = Returns ((Some c, None), ed', w') /\
    schedule read_turn (go (read_then c 8 (fun _ => Ret tt)) w') = Returns w'' /\
    nth_error (tasks w'') 2 = Some (Ret tt) /\
    conn w'' = tcp_received tcp_open [].
Proof.
  assert (Hfit : length [1; 2; 3]%Z <= copy_buf_size) by (apply fits_copy_buf; simpl; lia).
  assert (Hcap : length [1; 2; 3]%Z <= 8) by (simpl; lia).
  assert (Hne : [1; 2; 3]%Z <> []) by discriminate.
  eexists.
  destruct (@read_delivers_what_arrived Tcp _ ToPlaintext ed_ctr _
              (tcp_received tcp_open [[1; 2; 3]%Z])
              (tcp_received tcp_open []) (tcp_received tcp_open [])
              sample_stream 8 (fun _ => Ret tt)
              (mkRes [1; 2; 3]%Z 3 None) (mkRes [] 0 None)
              eq_refl eq_refl (bytewise_keeps_length _ _)
              (@tcp_Read_segment (tcp_received tcp_open [[1; 2; 3]%Z]) [1; 2; 3]%Z []
                                 eq_refl eq_refl Hfit)
              Hne eq_refl Hcap (@tcp_Read_probe (tcp_received tcp_open []) eq_refl) eq_refl)
    as (c & w' & w'' & HT & Hs & Hk & Hc & _).
  exists c, w', w''. split; [reflexivity|]. split; [reflexivity|].
  split; [exact HT|]. split; [exact Hs|]. split; [exact Hk | exact Hc].
Defined.

Lemma writes_arrive_witness :
  valid_key_length (length key16) = true /\
  length iv0 = AES.BlockSize /\
  closed tcp_open = false /\
  exists c ed' w' sO sch w'',
    transform ToPlaintext (ed_mode CTR key16 iv0) RealConn (world0 tcp_open)
    = Returns ((Some c, None), ed', w') /\
    outgoing ToPlaintext ed' = Some sO /\
    schedule sch (go (write_all c [[1]; []; [2; 3]]%Z (fun _ => Ret tt)) w')
    = Returns w'' /\
    nth_error (tasks w'') 2 = Some (Ret tt) /\
    conn w'' = tcp_sent tcp_open (through sO [1; 2; 3]%Z).
Proof.
  assert (Hk : valid_key_length (length key16) = true) by reflexivity.
  assert (Hiv : length iv0 = AES.BlockSize) by reflexivity.
  assert (Hc : closed tcp_open = false) by reflexivity.
  split; [exact Hk|]. split; [exact Hiv|]. split; [exact Hc|].
  destruct (@writes_arrive_in_order CTR key16 iv0 ToPlaintext [[1]; []; [2; 3]]%Z
              (fun _ => Ret tt) tcp_open Hk Hiv Hc)
    as (c & ed' & w' & sO & sch & w'' & HT & HO & Hs & Hk2 & Hconn & _).
  exists c, ed', w', sO, sch, w''.
  split; [exact HT|]. split; [exact HO|]. split; [exact Hs|].
  split; [exact Hk2 | exact Hconn].
Defined.

Lemma reads_deliver_witness :
  valid_key_length (length key16) = true /\
  length iv0 = AES.BlockSize /\
  Forall (one_read 8) [[1]; [2; 3]]%Z /\
  exists c ed' w' sI w'' (rs : list (bytes * option error)),
    transform ToPlaintext (ed_mode CTR key16 iv0) RealConn
              (world0 (tcp_received tcp_open [[1]; [2; 3]]%Z))
    = Returns ((Some c, None), ed', w') /\
    incoming ToPlaintext ed' = Some sI /\
    schedule (read_turn ++ read_turn) (go (read_all c 2 8 (fun _ => Ret tt)) w')
    = Returns w'' /\
    length rs = 2 /\
    concat (map fst rs) = through sI [1; 2; 3]%Z.
Proof.
  assert (Hk : valid_key_length (length key16) = true) by reflexivity.
  assert (Hiv : length iv0 = AES.BlockSize) by reflexivity.
  assert (Hsegs : Forall (one_read 8) [[1]; [2; 3]]%Z).
  { repeat constructor; try discriminate; try (simpl; lia);
      apply fits_copy_buf; simpl; lia. }
  split; [exact Hk|]. split; [exact Hiv|]. split; [exact Hsegs|].
  destruct (@reads_deliver_in_order CTR key16 iv0 ToPlaintext [[1]; [2; 3]]%Z 8
              (fun _ => Ret tt) (tcp_received tcp_open [[1]; [2; 3]]%Z)
              Hk Hiv eq_refl eq_refl Hsegs)
    as (c & ed' & w' & sI & w'' & rs & HT & HI & Hs & _ & _ & Hn & Hcat & _).
  exists c, ed', w', sI, w'', rs.
  split; [exact HT|]. split; [exact HI|]. split; [exact Hs|].
  split; [exact Hn | exact Hcat].
Defined.

Lemma written_is_read_back_witness :
  valid_key_length (length key16) = true /\
  length iv0 = AES.BlockSize /\
  exists a edA wA sch wA',
    Plaintext (ed_mode CTR key16 iv0) RealConn (world0 tcp_open)
    = Returns ((Some a, None), edA, wA) /\
    schedule sch (go (write_all a [[1]; [2; 3]]%Z (fun _ => Ret tt)) wA)
    = Returns wA' /\
    forall (cap : nat) (kB : list (bytes * option error) -> Prog unit),
      Forall (one_read cap) [outbound (conn wA')] ->
      exists b edB wB wB' rs,
        Plaintext (ed_mode CTR key16 iv0) RealConn
                  (world0 (tcp_received tcp_open [outbound (conn wA')]))
        = Returns ((Some b, None), edB, wB) /\
        schedule read_turn (go (read_all b 1 cap kB) wB) = Returns wB' /\
        nth_error (tasks wB') 2 = Some (kB rs) /\
        concat (map fst rs) = [1; 2; 3]%Z.
Proof.
  assert (Hk : valid_key_length (length key16) = true) by reflexivity.
  assert (Hiv : length iv0 = AES.BlockSize) by reflexivity.
  split; [exact Hk|]. split; [exact Hiv|].
  destruct (@written_is_read_back CTR key16 iv0 [[1]; [2; 3]]%Z (fun _ => Ret tt)
              tcp_open Hk Hiv eq_refl)
    as (a & edA & wA & sch & wA' & HT & Hs & _ & Hback).
  exists a, edA, wA, sch, wA'. split; [exact HT|]. split; [exact Hs|].
  intros cap kB Hsegs.
  destruct (Hback [outbound (conn wA')] cap kB
                  (tcp_received tcp_open [outbound (conn wA')]))
    as (b & edB & wB & wB' & rs & HB & HsB & HkB & Hcat & _);
    [simpl; now rewrite app_nil_r | reflexivity | reflexivity | exact Hsegs |].
  exists b, edB, wB, wB', rs.
  split; [exact HB|]. split; [exact HsB|]. split; [exact HkB | exact Hcat].
Defined.

Lemma calls_wait_witness :
  exists ed' c w' w1,
    initCipherStream ed_ctr = Returns (None, ed') /\
    transform ToCiphertext ed_ctr RealConn (world0 tcp_open)
    = Returns ((Some c, None), ed', w') /\
    schedule [2; 2] (go (write_then c [] (fun _ => Ret tt)) w') = Returns w1 /\
    schedule [2; 2; 2] w1 = Returns w1.
Proof.
  eexists.
  destruct (@calls_wait_for_the_goroutines Tcp _ ToCiphertext ed_ctr _
              tcp_open (tcp_sent tcp_open []) tcp_open [] 8
              (fun _ => Ret tt) (fun _ => Ret tt) (mkRes [] 0 None) (mkRes [] 0 None)
              eq_refl (@tcp_Write_open tcp_open [] eq_refl) eq_refl
              (@tcp_Read_probe tcp_open eq_refl) eq_refl)
    as (c & w' & HT & (w1 & Hs & _ & _ & Hrep) & _).
  exists c, w', w1. split; [reflexivity|]. split; [exact HT|].
  split; [exact Hs | exact (Hrep 3)].
Defined.

Lemma short_buffer_witness :
  exists ed' c w' w'',
    initCipherStream ed_ctr = Returns (None, ed') /\
    incoming ToPlaintext ed' = Some sample_stream /\
    transform ToPlaintext ed_ctr RealConn (world0 (tcp_received tcp_open [[1; 2; 3]%Z]))
    = Returns ((Some c, None), ed', w') /\
    schedule [1; 1; 1; 2; 2; 2; 2; 1] (go (read_all c 2 2 (fun _ => Ret tt)) w')
    = Returns w'' /\
    nth_error (tasks w'') 2 = Some (Ret tt) /\
    conn w'' = tcp_received tcp_open [].
Proof.
  assert (Hfit : length [1; 2; 3]%Z <= copy_buf_size) by (apply fits_copy_buf; simpl; lia).
  assert (Hlt : 2 < length [1; 2; 3]%Z) by (simpl; lia).
  assert (Hle : length [1; 2; 3]%Z <= 2 * 2) by (simpl; lia).
  eexists.
  destruct (@short_buffer_reads_in_pieces Tcp _ ToPlaintext ed_ctr _
              (tcp_received tcp_open [[1; 2; 3]%Z])
              (tcp_received tcp_open []) (tcp_received tcp_open [])
              (tcp_received tcp_open [])
              sample_stream 2 (fun _ => Ret tt)
              (mkRes [1; 2; 3]%Z 3 None) (mkRes [] 0 None) (mkRes [] 0 None)
              eq_refl eq_refl (bytewise_keeps_length _ _)
              (@tcp_Read_segment (tcp_received tcp_open [[1; 2; 3]%Z]) [1; 2; 3]%Z []
                                 eq_refl eq_refl Hfit)
              eq_refl Hlt Hle
              (@tcp_Read_probe (tcp_received tcp_open []) eq_refl) eq_refl
              (@tcp_Read_probe (tcp_received tcp_open []) eq_refl) eq_refl)
    as (c & w' & w'' & HT & Hs & Hk & Hc & _).
  exists c, w', w''. split; [reflexivity|]. split; [reflexivity|].
  split; [exact HT|]. split; [exact Hs|]. split; [exact Hk | exact Hc].
Defined.

End Paths.

(** ** How a session ends *)

Module Endings.

Import IO Runtime Cipher Crypto Props Scenes RunFacts StreamFacts Roundtrip CopyFacts
       Goroutines Segments Paths.

Local Opaque copy_buf_size.

Section Any.

Context {C : Type} {CM : ConnModel C}.

(** The incoming goroutine on a connection whose read brings no data
    and an error: it reads, closes, and has returned. *)
Lemma incoming_winds_down (t : side) (s : Stream) (n : nat) (p : Prog unit)
      (c c1 c2 : C) (ps : list Pipe) (l : list Op) (e : error) (x : OpRes) :
  keeps_length s ->
  conn_Read c copy_buf_size = Done (mkRes [] 0 (Some e), c1) ->
  conn_Close c1 = Done (x, c2) ->
  schedule [1; 1; 1]
           {| conn := c; pipes := ps;
              tasks := [p; incoming_task t (Some s) 1 n (guarded 1 0)]; log := l |}
  = Returns {| conn := c2; pipes := ps; tasks := [p; Ret tt];
               log := l ++ [ConnRead copy_buf_size; ConnClose] |}.
Proof.
  intros Hs Hr Hc. pose proof (nothing_through Hs) as Hnil.
  unfold schedule. destruct t.
  - step_of 1. step_of 1. rewrite Hr. cbn -[sched]. step_of 1. rewrite Hc.
    cbn. now rewrite <- app_assoc.
  - step_of 1. step_of 1. rewrite Hr. cbn -[sched].
    destruct (XORKeyStream s []) as [dst s']. cbn [fst] in Hnil. subst dst.
    cbn -[sched]. step_of 1. rewrite Hc.
    cbn. now rewrite <- app_assoc.
Qed.

End Any.

Lemma tcp_Read_end (c : Tcp) :
  closed c = false -> inbound c = [] -> in_eof c = true ->
  conn_Read c copy_buf_size = Done (mkRes [] 0 (Some EOF), c).
Proof.
  intros H1 H2 H3. simpl. unfold tcp_Read. rewrite H1, H2, H3.
  destruct (Nat.eqb_spec copy_buf_size 0) as [E|_];
    [pose proof copy_buf_size_pos; lia | reflexivity].
Qed.

Lemma tcp_Close_open (c : Tcp) :
  closed c = false -> conn_Close c = Done (mkRes [] 0 None, tcp_shut c).
Proof. intros H. simpl. unfold tcp_Close. now rewrite H. Qed.

(** On a closed connection [Read] and [Write] of the returned connection
    fail at the probe. *)
Lemma closed_calls_fail (w : World Tcp) (b : bytes) (cap : nat) :
  closed (conn w) = true ->
  returns exec (Read (guarded 1 0) cap) w (guarded 1 0, [], Some ErrNetClosing)
          (moved [ConnRead 0] (conn w) w) /\
  returns exec (Write (guarded 1 0) b) w (guarded 1 0, 0, Some ErrNetClosing)
          (moved [ConnWrite []] (conn w) w).
Proof.
  intros H. split.
  - eapply returns_Do;
      [cbn; unfold tcp_Read; rewrite H; reflexivity | apply returns_Ret].
  - eapply returns_Do;
      [cbn; unfold tcp_Write; rewrite H; reflexivity | apply returns_Ret].
Qed.

(** One step of either goroutine keeps a session on a closed connection
    as [after_close] describes it. *)
Lemma after_close_step (t : side) (sO : option Stream) (s : Stream) (i : nat) (w : World Tcp) :
  keeps_length s ->
  after_close t sO s w ->
  exists w', sched i w = Returns w' /\ after_close t sO s w'.
Proof.
  intros Hs (Hc & Hp & p & q & Ht & Hpq & Hq).
  destruct w as [c ps ts lg]. cbn [conn pipes tasks] in *. subst ps ts.
  destruct c as [cl inb eof outb]. cbn [closed] in Hc. subst cl.
  pose proof (nothing_through Hs) as Hnil.
  destruct i as [|[|i]].
  - exists (mkWorld (mkTcp true inb eof outb) [new_pipe; new_pipe]
                    [outgoing_turn t sO 0 0 (guarded 1 0); q] lg).
    split.
    + destruct Hpq as [-> | ->]; destruct t; reflexivity.
    + split; [reflexivity|]. split; [reflexivity|].
      exists (outgoing_turn t sO 0 0 (guarded 1 0)), q.
      split; [reflexivity|]. split; [now right | exact Hq].
  - destruct Hq as [-> | [-> | [-> | ->]]].
    + exists (mkWorld (mkTcp true inb eof outb) [new_pipe; new_pipe]
                      [p; incoming_turn t (Some s) 1 0 (guarded 1 0)] lg).
      split; [destruct t; reflexivity|].
      split; [reflexivity|]. split; [reflexivity|].
      exists p, (incoming_turn t (Some s) 1 0 (guarded 1 0)).
      split; [reflexivity|]. split; [exact Hpq | auto].
    + exists (mkWorld (mkTcp true inb eof outb) [new_pipe; new_pipe]
                      [p; closing (guarded 1 0)] (lg ++ [ConnRead copy_buf_size])).
      split.
      * destruct t; [reflexivity|].
        step_of 1. destruct (XORKeyStream s []) as [dst s']. cbn [fst] in Hnil. subst dst.
        reflexivity.
      * split; [reflexivity|]. split; [reflexivity|]. exists p, (closing (guarded 1 0)).
        split; [reflexivity|]. split; [exact Hpq | auto].
    + exists (mkWorld (mkTcp true inb eof outb) [new_pipe; new_pipe]
                      [p; Ret tt] (lg ++ [ConnClose])).
      split; [reflexivity|].
      split; [reflexivity|]. split; [reflexivity|]. exists p, (Ret tt).
      split; [reflexivity|]. split; [exact Hpq | auto].
    + exists (mkWorld (mkTcp true inb eof outb) [new_pipe; new_pipe] [p; Ret tt] lg).
      split; [reflexivity|].
      split; [reflexivity|]. split; [reflexivity|]. exists p, (Ret tt).
      split; [reflexivity|]. split; [exact Hpq | auto].
  - exists (mkWorld (mkTcp true inb eof outb) [new_pipe; new_pipe] [p; q] lg).
    split; [unfold sched; cbn [tasks nth_error]; destruct i; reflexivity|].
    split; [reflexivity|]. split; [reflexivity|]. exists p, q. auto.
Qed.

Lemma after_close_schedule (t : side) (sO : option Stream) (s : Stream) (l : list nat) :
  keeps_length s ->
  forall w : World Tcp,
    after_close t sO s w ->
    exists w', schedule l w = Returns w' /\ after_close t sO s w'.
Proof.
  intros Hs. induction l as [|i l IH]; intros w Hw.
  - exists w. split; [reflexivity | exact Hw].
  - destruct (@after_close_step t sO s i w Hs Hw) as (w1 & H1 & Hw1).
    destruct (IH w1 Hw1) as (w2 & H2 & Hw2).
    exists w2. split; [|exact Hw2]. cbn [schedule]. rewrite H1. exact H2.
Qed.

Lemma after_close_parked (t : side) (sO : option Stream) (s : Stream) (w : World Tcp) :
  after_close t sO s w ->
  exists p q,
    tasks w = [p; q] /\ finished p = false /\
    (p = outgoing_task t sO 0 0 (guarded 1 0) \/ blocked p w = true).
Proof.
  intros (Hc & Hp & p & q & Ht & Hpq & Hq). exists p, q.
  split; [exact Ht|].
  destruct Hpq as [-> | ->].
  - split; [destruct t; reflexivity | now left].
  - split; [destruct t; reflexivity|]. right.
    unfold blocked. destruct w as [c ps ts lg]. cbn [pipes] in Hp. subst ps.
    destruct t; reflexivity.
Qed.

(** X16: [Close] leaves the outgoing goroutine behind.  After a
    transform on an open TCP-like connection and a [Close] of the
    connection it returned (which returns [nil] and closes the real
    connection), whatever the scheduler then does with the two
    goroutines: nothing panics, the real connection stays closed, the
    pipes stay as they were made, the outgoing goroutine has not returned
    (it has not started yet or is blocked), and a [Write] of the caller
    fails at its probe with the error of a closed connection without
    touching the pipe, so that nothing can reach that goroutine any more.
    In the run where the outgoing goroutine starts and the incoming one
    reads, the incoming goroutine has returned (its read failed, it closed
    once more) and the outgoing goroutine is blocked in its read of the
    pipe. *)
Theorem close_leaves_the_outgoing_goroutine :
  forall (t : side) ed ed' (s : Stream) (c0 : Tcp),
    initCipherStream ed = Returns (None, ed') ->
    incoming t ed' = Some s ->
    keeps_length s ->
    closed c0 = false ->
    exists c w' w1,
      transform t ed RealConn (world0 c0) = Returns ((Some c, None), ed', w') /\
      returns exec (Close c) w' None w1 /\
      conn w1 = tcp_shut c0 /\
      (forall l : list nat,
          exists w2 p q,
            schedule l w1 = Returns w2 /\
            closed (conn w2) = true /\
            pipes w2 = pipes w' /\
            tasks w2 = [p; q] /\
            finished p = false /\
            (p = outgoing_task t (outgoing t ed') 0 0 c \/ blocked p w2 = true) /\
            forall b, returns exec (Write c b) w2 (c, 0, Some ErrNetClosing)
                              (moved [ConnWrite []] (conn w2) w2)) /\
      (exists w3 p,
          schedule [0; 1; 1; 1] w1 = Returns w3 /\
          tasks w3 = [p; Ret tt] /\
          blocked p w3 = true /\
          log w3 = [ConnClose; ConnRead copy_buf_size; ConnClose]).
Proof.
  intros t ed ed' s c0 Hi Hs Hk Hc.
  pose proof (@fresh_transform Tcp _ t _ _ c0 Hi) as HT. rewrite Hs in HT.
  do 3 eexists. split; [exact HT|].
  split.
  { pose proof (@NetConn_Close_returns Tcp _ (guarded 1 0)
                  {| conn := c0; pipes := [new_pipe; new_pipe];
                     tasks := [outgoing_task t (outgoing t ed') 0 0 (guarded 1 0);
                               incoming_task t (Some s) 1 0 (guarded 1 0)];
                     log := [] |} _ _ (tcp_Close_open c0 Hc)) as H.
    cbn [res_err] in H. exact H. }
  split; [reflexivity|].
  split.
  - intros l.
    edestruct (@after_close_schedule t (outgoing t ed') s l Hk) as (w2 & H2 & Hw2).
    2:{ destruct (after_close_parked Hw2) as (p & q & Ht & Hf & Hp).
        exists w2, p, q. split; [exact H2|].
        destruct Hw2 as (Hc2 & Hp2 & _).
        split; [exact Hc2|]. split; [exact Hp2|]. split; [exact Ht|].
        split; [exact Hf|]. split; [exact Hp|].
        intros b. exact (proj2 (@closed_calls_fail w2 b 0 Hc2)). }
    split; [reflexivity|]. split; [reflexivity|].
    do 2 eexists. split; [reflexivity|]. split; [now left | now left].
  - exists {| conn := tcp_shut c0; pipes := [new_pipe; new_pipe];
              tasks := [outgoing_turn t (outgoing t ed') 0 0 (guarded 1 0); Ret tt];
              log := [ConnClose; ConnRead copy_buf_size; ConnClose] |},
           (outgoing_turn t (outgoing t ed') 0 0 (guarded 1 0)).
    cbn [schedule].
    split.
    + step_of 0.
      assert (E : forall p l,
                 schedule [1; 1; 1]
                          {| conn := tcp_shut c0; pipes := [new_pipe; new_pipe];
                             tasks := [p; incoming_task t (Some s) 1 0 (guarded 1 0)];
                             log := l |}
                 = Returns {| conn := tcp_shut c0; pipes := [new_pipe; new_pipe];
                              tasks := [p; Ret tt];
                              log := l ++ [ConnRead copy_buf_size; ConnClose] |}).
      { intros p l. eapply incoming_winds_down; [exact Hk | reflexivity | reflexivity]. }
      destruct t; apply E.
    + split; [reflexivity|]. split; [|reflexivity].
      destruct t; reflexivity.
Qed.

(** X17: the end of the peer's stream closes the connection, and the
    caller is told so with the error of a closed connection, not with
    [io.EOF].  After a transform on an open TCP-like connection on which
    the peer has ended its stream and nothing is left to arrive, the
    incoming goroutine, in its first three steps, reads the end of the
    stream, leaves its copy loop and closes the real connection, with
    these two operations and no other; the goroutine has returned.  From
    then on [Read] and [Write] of the returned connection fail at their
    probe: they return no data and the error of a closed connection,
    having done nothing but the probe. *)
Theorem end_of_stream_closes_the_connection :
  forall (t : side) ed ed' (s : Stream) (c0 : Tcp) (b : bytes) (cap : nat),
    initCipherStream ed = Returns (None, ed') ->
    incoming t ed' = Some s ->
    keeps_length s ->
    closed c0 = false -> inbound c0 = [] -> in_eof c0 = true ->
    exists c w' w1,
      transform t ed RealConn (world0 c0) = Returns ((Some c, None), ed', w') /\
      schedule [1; 1; 1] w' = Returns w1 /\
      nth_error (tasks w1) 1 = Some (Ret tt) /\
      conn w1 = tcp_shut c0 /\
      log w1 = [ConnRead copy_buf_size; ConnClose] /\
      returns exec (Read c cap) w1 (c, [], Some ErrNetClosing)
              (moved [ConnRead 0] (tcp_shut c0) w1) /\
      returns exec (Write c b) w1 (c, 0, Some ErrNetClosing)
              (moved [ConnWrite []] (tcp_shut c0) w1).
Proof.
  intros t ed ed' s c0 b cap Hi Hs Hk Hc Hin Heof.
  pose proof (@fresh_transform Tcp _ t _ _ c0 Hi) as HT. rewrite Hs in HT.
  do 3 eexists. split; [exact HT|].
  split.
  { eapply incoming_winds_down; [exact Hk | apply tcp_Read_end; assumption
                                 | apply tcp_Close_open; assumption]. }
  split; [reflexivity|]. split; [reflexivity|]. split; [reflexivity|].
  exact (@closed_calls_fail
           {| conn := tcp_shut c0; pipes := [new_pipe; new_pipe];
              tasks := [outgoing_task t (outgoing t ed') 0 0 (guarded 1 0); Ret tt];
              log := [] ++ [ConnRead copy_buf_size; ConnClose] |} b cap eq_refl).
Qed.

Section Lost.

Context {C : Type} {CM : ConnModel C}.

(** A [Write] and a [Close] of the caller that overtake the write of
    the outgoing goroutine on the real connection. *)
Lemma write_close_round (t : side) (s : Stream) (written : nat) (t1 : Prog unit)
      (b : bytes) (k : nat * option error -> option error -> Prog unit)
      (c c1 c2 c3 c4 : C) (p1 : Pipe) (l : list Op) xp xc xw xc' e :
  keeps_length s ->
  one_buffer b ->
  conn_Write c [] = Done (xp, c1) -> res_err xp = None ->
  conn_Close c1 = Done (xc, c2) ->
  conn_Write c2 (through s b) = Done (xw, c3) -> res_err xw = Some e ->
  conn_Close c3 = Done (xc', c4) ->
  schedule write_close_turn
           {| conn := c; pipes := [new_pipe; p1];
              tasks := [outgoing_task t (Some s) 0 written (guarded 1 0); t1;
                        write_close (guarded 1 0) b k];
              log := l |}
  = Returns {| conn := c4; pipes := [new_pipe; p1];
               tasks := [Ret tt; t1; k (length b, None) (res_err xc)];
               log := l ++ [ConnWrite []; PipeOffer 0 b; PipeRead 0 copy_buf_size;
                            PipeAwait 0; ConnClose; ConnWrite (through s b);
                            ConnClose] |}.
Proof.
  intros Hs [Hb Hlen] Hp Hpe Hc Hw Hwe Hc'.
  destruct (XORKeyStream_length b Hs) as [Hl _].
  unfold through, advanced in *.
  destruct (XORKeyStream s b) as [cb s'] eqn:EX. cbn [fst snd] in *.
  unfold write_close, write_then, guarded, write_close_turn.
  destruct t; unfold outgoing_task, goroutine_from.
  - unfold schedule. step_of 2. rewrite Hp. cbn -[sched]. rewrite Hpe.
    step_of 2. step_of 0. step_of 0.
    rewrite (Nat.min_r _ _ Hlen), firstn_all, skipn_all, EX.
    destruct cb as [|cb0 cb]; [destruct b; [congruence|discriminate]|].
    step_of 2. step_of 2. rewrite Hc. cbn -[sched].
    step_of 0. rewrite Hw. cbn -[sched]. rewrite Hwe.
    match goal with |- context [if ?c then (0, Some e) else _] => destruct c end;
      cbn -[sched]; step_of 0; rewrite Hc'; cbn;
      rewrite <- !app_assoc; reflexivity.
  - unfold schedule. step_of 2. rewrite Hp. cbn -[sched]. rewrite Hpe.
    step_of 2. step_of 0. step_of 0.
    rewrite (Nat.min_r _ _ Hlen), firstn_all, skipn_all, EX.
    destruct b as [|b0 b]; [congruence|]. cbn -[sched].
    step_of 2. step_of 2. rewrite Hc. cbn -[sched].
    step_of 0. rewrite Hw. cbn -[sched]. rewrite Hwe.
    match goal with |- context [if ?c then (0, Some e) else _] => destruct c end;
      cbn -[sched]; step_of 0; rewrite Hc'; cbn;
      rewrite <- !app_assoc; reflexivity.
Qed.

End Lost.

(** X19: a [Write] that has returned can still be lost when the
    caller closes.  [Write] returns as soon as the outgoing goroutine
    has taken the data from the pipe, before they are written to the real
    connection.  On an open TCP-like connection, for a message of one
    buffer at most: in the run where the caller probes and offers, the
    goroutine takes the data, the caller's [Write] returns [len(b)] and
    [nil] and its [Close] returns [nil], and the goroutine then writes,
    that write fails on the closed connection, and the goroutine closes
    once more and returns; the real connection has sent nothing of the
    message. *)
Theorem write_then_close_can_lose_the_data :
  forall (t : side) ed ed' (s : Stream) (c0 : Tcp) (b : bytes)
         (k : nat * option error -> option error -> Prog unit),
    initCipherStream ed = Returns (None, ed') ->
    outgoing t ed' = Some s ->
    keeps_length s ->
    one_buffer b ->
    closed c0 = false ->
    exists c w' w'',
      transform t ed RealConn (world0 c0) = Returns ((Some c, None), ed', w') /\
      schedule write_close_turn (go (write_close c b k) w') = Returns w'' /\
      nth_error (tasks w'') 2 = Some (k (length b, None) None) /\
      nth_error (tasks w'') 0 = Some (Ret tt) /\
      conn w'' = tcp_shut c0 /\
      outbound (conn w'') = outbound c0 /\
      log w'' = [ConnWrite []; PipeOffer 0 b; PipeRead 0 copy_buf_size; PipeAwait 0;
                 ConnClose; ConnWrite (through s b); ConnClose].
Proof.
  intros t ed ed' s c0 b k Hi Ho Hs Hb Hc.
  pose proof (@fresh_transform Tcp _ t _ _ c0 Hi) as HT. rewrite Ho in HT.
  pose proof (@tcp_Write_open c0 [] Hc) as Hp. rewrite (tcp_sent_nothing c0 Hc) in Hp.
  pose proof (@write_close_round Tcp _ t s 0 (incoming_task t (incoming t ed') 1 0 (guarded 1 0))
                b k c0 c0 (tcp_shut c0) (tcp_shut c0) (tcp_shut c0) new_pipe []
                _ _ (mkRes [] 0 (Some ErrNetClosing)) (mkRes [] 0 (Some ErrNetClosing))
                ErrNetClosing Hs Hb Hp eq_refl (tcp_Close_open c0 Hc)
                eq_refl eq_refl eq_refl) as Hsch.
  do 3 eexists. split; [exact HT|].
  unfold go. cbn [conn pipes tasks log app].
  split; [exact Hsch|]. repeat split.
Qed.

(** *** The theorems at work: AES-128 in CTR mode, key [00..0F], zero IV *)

Lemma close_leaves_witness :
  exists ed' c w' w1 w3 p,
    initCipherStream ed_ctr = Returns (None, ed') /\
    incoming ToPlaintext ed' = Some sample_stream /\
    transform ToPlaintext ed_ctr RealConn (world0 tcp_open)
    = Returns ((Some c, None), ed', w') /\
    returns exec (Close c) w' None w1 /\
    schedule [0; 1; 1; 1] w1 = Returns w3 /\
    tasks w3 = [p; Ret tt] /\
    blocked p w3 = true.
Proof.
  eexists.
  destruct (@close_leaves_the_outgoing_goroutine ToPlaintext ed_ctr _ sample_stream tcp_open
              eq_refl eq_refl (bytewise_keeps_length _ _) eq_refl)
    as (c & w' & w1 & HT & HC & _ & _ & w3 & p & H3 & Ht & Hb & _).
  exists c, w', w1, w3, p. split; [reflexivity|]. split; [reflexivity|].
  split; [exact HT|]. split; [exact HC|]. split; [exact H3|].
  split; [exact Ht | exact Hb].
Defined.

Lemma end_of_stream_witness :
  exists ed' c w' w1,
    initCipherStream ed_ctr = Returns (None, ed') /\
    incoming ToCiphertext ed' = Some sample_stream /\
    transform ToCiphertext ed_ctr RealConn (world0 tcp_ended)
    = Returns ((Some c, None), ed', w') /\
    schedule [1; 1; 1] w' = Returns w1 /\
    conn w1 = tcp_shut tcp_ended /\
    returns exec (Read c 8) w1 (c, [], Some ErrNetClosing)
            (moved [ConnRead 0] (tcp_shut tcp_ended) w1).
Proof.
  eexists.
  destruct (@end_of_stream_closes_the_connection ToCiphertext ed_ctr _ sample_stream
              tcp_ended [1; 2; 3]%Z 8
              eq_refl eq_refl (bytewise_keeps_length _ _) eq_refl eq_refl eq_refl)
    as (c & w' & w1 & HT & H1 & _ & Hc & _ & Hr & _).
  exists c, w', w1. split; [reflexivity|]. split; [reflexivity|].
  split; [exact HT|]. split; [exact H1|]. split; [exact Hc | exact Hr].
Defined.

Lemma write_then_close_witness :
  exists ed' c w' w'',
    initCipherStream ed_ctr = Returns (None, ed') /\
    outgoing ToPlaintext ed' = Some sample_stream /\
    transform ToPlaintext ed_ctr RealConn (world0 tcp_open)
    = Returns ((Some c, None), ed', w') /\
    schedule write_close_turn (go (write_close c [1; 2; 3]%Z (fun _ _ => Ret tt)) w')
    = Returns w'' /\
    nth_error (tasks w'') 2 = Some (Ret tt) /\
    outbound (conn w'') = [].
Proof.
  eexists.
  destruct (@write_then_close_can_lose_the_data
              ToPlaintext ed_ctr _ sample_stream tcp_open [1; 2; 3]%Z (fun _ _ => Ret tt)
              eq_refl eq_refl (bytewise_keeps_length _ _)
              (@small_message [1; 2; 3]%Z ltac:(discriminate) ltac:(simpl; lia)) eq_refl)
    as (c & w' & w'' & HT & Hs & Hk & _ & _ & Ho & _).
  exists c, w', w''. split; [reflexivity|]. split; [reflexivity|].
  split; [exact HT|]. split; [exact Hs|]. split; [exact Hk | exact Ho].
Defined.

End Endings.

(** ** Waiting for the caller *)

Module Ahead.

Import IO Runtime Cipher Crypto Props Scenes RunFacts StreamFacts Roundtrip CopyFacts
       Goroutines Segments Paths.

Local Opaque copy_buf_size.

Section Any.

Context {C : Type} {CM : ConnModel C}.

Lemma one_ahead_step (t : side) (sO : option Stream) (s : Stream) (c0 c1 : C)
      (x : OpRes) (i : nat) (w : World C) :
  keeps_length s ->
  conn_Read c0 copy_buf_size = Done (x, c1) ->
  res_data x <> [] ->
  one_ahead t sO s c0 c1 (through s (res_data x)) w ->
  exists w', sched i w = Returns w' /\
             one_ahead t sO s c0 c1 (through s (res_data x)) w'.
Proof.
  intros Hs Hr Hd (p & q & Ht & Hp & Hst).
  destruct w as [c ps ts lg]. cbn [conn pipes tasks log] in *. subst ts.
  assert (Hne : through s (res_data x) <> []).
  { intros E. apply Hd. destruct (XORKeyStream_length (res_data x) Hs) as [Hl _].
    unfold through in E. rewrite E in Hl. destruct (res_data x); [reflexivity | discriminate]. }
  destruct i as [|[|i]].
  - exists (mkWorld c ps [outgoing_turn t sO 0 0 (guarded 1 0); q] lg).
    split.
    + destruct Hst as [(_ & _ & -> & _) | [(_ & _ & -> & _) | (_ & _ & -> & _)]];
        destruct Hp as [-> | ->]; destruct t; reflexivity.
    + exists (outgoing_turn t sO 0 0 (guarded 1 0)), q.
      split; [reflexivity|]. split; [now right|]. exact Hst.
  - destruct Hst as [(-> & -> & -> & [-> | ->]) | [(-> & -> & -> & Hq) | (-> & -> & -> & Hq)]].
    + exists (mkWorld c0 [new_pipe; new_pipe]
                      [p; incoming_turn t (Some s) 1 0 (guarded 1 0)] []).
      split; [destruct t; reflexivity|].
      exists p, (incoming_turn t (Some s) 1 0 (guarded 1 0)).
      split; [reflexivity|]. split; [exact Hp|]. left. auto.
    + unfold through in *. remember (res_data x) as d eqn:Ed.
      destruct d as [|b0 d]; [contradiction|].
      destruct t.
      * step_of 1. rewrite Hr. cbn -[sched]. rewrite <- Ed.
        destruct (XORKeyStream s (b0 :: d)) as [cd s'].
        cbn [fst length] in *.
        eexists. split; [reflexivity|].
        do 2 eexists. split; [reflexivity|]. split; [exact Hp|].
        right. left. split; [reflexivity|]. split; [reflexivity|]. split; [reflexivity|].
        eexists. split; [reflexivity|].
        intros r Hr'. cbn. rewrite Hr'. eexists. reflexivity.
      * step_of 1. rewrite Hr. cbn -[sched]. rewrite <- Ed.
        destruct (XORKeyStream s (b0 :: d)) as [cd s'].
        cbn [fst length] in *.
        destruct cd as [|cb cd]; [contradiction|].
        eexists. split; [reflexivity|].
        do 2 eexists. split; [reflexivity|]. split; [exact Hp|].
        right. left. split; [reflexivity|]. split; [reflexivity|]. split; [reflexivity|].
        eexists. split; [reflexivity|].
        intros r Hr'. cbn. rewrite Hr'. eexists. reflexivity.
    + destruct Hq as (k & -> & Hk).
      destruct (Hk (mkRes [] 0 None) eq_refl) as (k' & Ek).
      exists (mkWorld c1 [new_pipe; carrying (through s (res_data x)) true 0]
                      [p; Do (PipeAwait 1) k']
                      [ConnRead copy_buf_size; PipeOffer 1 (through s (res_data x))]).
      split.
      * step_of 1. rewrite Ek. reflexivity.
      * exists p, (Do (PipeAwait 1) k').
        split; [reflexivity|]. split; [exact Hp|].
        right. right. split; [reflexivity|]. split; [reflexivity|]. split; [reflexivity|].
        now exists k'.
    + destruct Hq as (k & ->).
      exists (mkWorld c1 [new_pipe; carrying (through s (res_data x)) true 0]
                      [p; Do (PipeAwait 1) k]
                      [ConnRead copy_buf_size; PipeOffer 1 (through s (res_data x))]).
      split.
      * step_of 1. destruct (through s (res_data x)); reflexivity.
      * exists p, (Do (PipeAwait 1) k).
        split; [reflexivity|]. split; [exact Hp|].
        right. right. split; [reflexivity|]. split; [reflexivity|]. split; [reflexivity|].
        now exists k.
  - exists (mkWorld c ps [p; q] lg).
    split; [unfold sched; cbn [tasks nth_error]; destruct i; reflexivity|].
    exists p, q. auto.
Qed.

Lemma one_ahead_schedule (t : side) (sO : option Stream) (s : Stream) (c0 c1 : C)
      (x : OpRes) (l : list nat) :
  keeps_length s ->
  conn_Read c0 copy_buf_size = Done (x, c1) ->
  res_data x <> [] ->
  forall w : World C,
    one_ahead t sO s c0 c1 (through s (res_data x)) w ->
    exists w', schedule l w = Returns w' /\
               one_ahead t sO s c0 c1 (through s (res_data x)) w'.
Proof.
  intros Hs Hr Hd. induction l as [|i l IH]; intros w Hw.
  - exists w. split; [reflexivity | exact Hw].
  - destruct (@one_ahead_step t sO s c0 c1 x i w Hs Hr Hd Hw) as (w1 & H1 & Hw1).
    destruct (IH w1 Hw1) as (w2 & H2 & Hw2).
    exists w2. split; [|exact Hw2]. cbn [schedule]. rewrite H1. exact H2.
Qed.

(** The incoming goroutine takes what the real connection delivers and
    waits in the pipe. *)
Lemma incoming_offers (t : side) (s : Stream) (p : Prog unit) (c0 c1 : C) (x : OpRes) :
  keeps_length s ->
  conn_Read c0 copy_buf_size = Done (x, c1) ->
  res_data x <> [] ->
  exists q,
    schedule [1; 1; 1]
             {| conn := c0; pipes := [new_pipe; new_pipe];
                tasks := [p; incoming_task t (Some s) 1 0 (guarded 1 0)]; log := [] |}
    = Returns {| conn := c1;
                 pipes := [new_pipe; carrying (through s (res_data x)) true 0];
                 tasks := [p; q];
                 log := [ConnRead copy_buf_size; PipeOffer 1 (through s (res_data x))] |} /\
    awaiting q.
Proof.
  intros Hs Hr Hd.
  assert (Hne : through s (res_data x) <> []).
  { intros E. apply Hd. destruct (XORKeyStream_length (res_data x) Hs) as [Hl _].
    unfold through in E. rewrite E in Hl. destruct (res_data x); [reflexivity | discriminate]. }
  unfold through in *. remember (res_data x) as d eqn:Ed.
  destruct d as [|b0 d]; [contradiction|].
  unfold schedule. destruct t.
  - step_of 1. step_of 1. rewrite Hr. cbn -[sched]. rewrite <- Ed.
    destruct (XORKeyStream s (b0 :: d)) as [cd s'].
    cbn [fst length] in *. step_of 1.
    eexists. split; [reflexivity|]. eexists. reflexivity.
  - step_of 1. step_of 1. rewrite Hr. cbn -[sched]. rewrite <- Ed.
    destruct (XORKeyStream s (b0 :: d)) as [cd s'].
    cbn [fst length] in *.
    destruct cd as [|cb cd]; [contradiction|].
    step_of 1.
    eexists. split; [reflexivity|]. eexists. reflexivity.
Qed.

(** X18: the incoming goroutine does not read ahead.  As long as
    the caller does not read, the goroutines of a transform take from
    the real connection what one read of the copy buffer delivers and
    no more.  When that read delivers data, then under every schedule
    of the two goroutines nothing panics and the operations performed
    are none, or the read, or the read and the offer to the pipe of
    what the incoming stream makes of the data; the real connection is
    as before the read or as that one read left it.  In the run where
    the incoming goroutine takes three steps it has read and offered
    and is blocked in the pipe, waiting for a [Read] of the caller:
    what else arrives stays with the real connection. *)
Theorem incoming_goroutine_does_not_read_ahead :
  forall (t : side) ed ed' (s : Stream) (c0 c1 : C) (x : OpRes),
    initCipherStream ed = Returns (None, ed') ->
    incoming t ed' = Some s ->
    keeps_length s ->
    conn_Read c0 copy_buf_size = Done (x, c1) ->
    res_data x <> [] ->
    exists c w',
      transform t ed RealConn (world0 c0) = Returns ((Some c, None), ed', w') /\
      (forall l : list nat,
          exists w2,
            schedule l w' = Returns w2 /\
            (conn w2 = c0 /\ log w2 = [] \/
             conn w2 = c1 /\
             (log w2 = [ConnRead copy_buf_size] \/
              log w2 = [ConnRead copy_buf_size;
                        PipeOffer 1 (through s (res_data x))]))) /\
      (exists w3 q,
          schedule [1; 1; 1] w' = Returns w3 /\
          nth_error (tasks w3) 1 = Some q /\
          blocked q w3 = true /\
          conn w3 = c1 /\
          pipes w3 = [new_pipe; carrying (through s (res_data x)) true 0] /\
          log w3 = [ConnRead copy_buf_size; PipeOffer 1 (through s (res_data x))]).
Proof.
  intros t ed ed' s c0 c1 x Hi Ho Hs Hr Hd.
  pose proof (@fresh_transform C _ t _ _ c0 Hi) as HT. rewrite Ho in HT.
  do 2 eexists. split; [exact HT|]. split.
  - intros l.
    edestruct (@one_ahead_schedule t (outgoing t ed') s c0 c1 x l Hs Hr Hd)
      as (w2 & H2 & p & q & _ & _ & Hst).
    2:{ exists w2. split; [exact H2|].
        destruct Hst as [(E1 & E2 & _) | [(E1 & E2 & _) | (E1 & E2 & _)]]; auto. }
    do 2 eexists. split; [reflexivity|]. split; [now left|].
    left. split; [reflexivity|]. split; [reflexivity|]. split; [reflexivity | now left].
  - destruct (@incoming_offers t s (outgoing_task t (outgoing t ed') 0 0 (guarded 1 0))
                               c0 c1 x Hs Hr Hd) as (q & Hq & k & ->).
    do 2 eexists. split; [exact Hq|].
    split; [reflexivity|].
    split; [|repeat split].
    unfold blocked. cbn. destruct (through s (res_data x)); reflexivity.
Qed.
End Any.

Lemma does_not_read_ahead_witness :
  exists ed' c w' w3 q,
    initCipherStream ed_ctr = Returns (None, ed') /\
    incoming ToPlaintext ed' = Some sample_stream /\
    transform ToPlaintext ed_ctr RealConn
              (world0 (tcp_received tcp_open [[1; 2; 3]; [4]]%Z))
    = Returns ((Some c, None), ed', w') /\
    schedule [1; 1; 1] w' = Returns w3 /\
    nth_error (tasks w3) 1 = Some q /\
    blocked q w3 = true /\
    conn w3 = tcp_received tcp_open [[4]%Z].
Proof.
  assert (Hfit : length [1; 2; 3]%Z <= copy_buf_size) by (apply fits_copy_buf; simpl; lia).
  assert (Hne : [1; 2; 3]%Z <> []) by discriminate.
  eexists.
  destruct (@incoming_goroutine_does_not_read_ahead
              Tcp _ ToPlaintext ed_ctr _ sample_stream
              (tcp_received tcp_open [[1; 2; 3]; [4]]%Z)
              (tcp_received tcp_open [[4]%Z])
              (mkRes [1; 2; 3]%Z 3 None)
              eq_refl eq_refl (bytewise_keeps_length _ _)
              (@tcp_Read_segment (tcp_received tcp_open [[1; 2; 3]; [4]]%Z) [1; 2; 3]%Z [[4]%Z]
                                 eq_refl eq_refl Hfit)
              Hne)
    as (c & w' & HT & _ & w3 & q & H3 & Hq & Hb & Hc & _).
  exists c, w', w3, q. split; [reflexivity|]. split; [reflexivity|].
  split; [exact HT|]. split; [exact H3|]. split; [exact Hq|].
  split; [exact Hb | exact Hc].
Defined.

End Ahead.
